(** * Bangkok rail network: spatial accessibility analysis

    A shallow embedding of [spatial_analysis.py].  The script computes with
    Python floats, which are IEEE-754 binary64 numbers: they are modelled by
    Rocq's primitive [float], whose operations are the same correctly rounded
    binary64 operations, so that the definitions below can be run on concrete
    station lists.  Python exceptions are modelled by an error monad. *)

From Stdlib Require Import ZArith List String Ascii Bool Lia.
From Stdlib Require Import Permutation Sorted.
From Stdlib Require Import Reals Lra.
From Stdlib Require Import Floats.
Import ListNotations.

Set Warnings "-inexact-float".

Local Open Scope Z_scope.

(** ** The Python runtime the script relies on *)

Module Py.

(** The exceptions the script can raise once the stations are loaded. *)
Inductive exn : Set :=
| ValueError
| ZeroDivisionError
| OverflowError
| IndexError.

Inductive result (A : Type) : Type :=
| OK (a : A)
| Raise (e : exn).

Arguments OK {A} a.
Arguments Raise {A} e.

Definition bind {A B : Type} (c : result A) (k : A -> result B) : result B :=
  match c with
  | OK a => k a
  | Raise e => Raise e
  end.

Definition is_ok {A : Type} (c : result A) : bool :=
  match c with
  | OK _ => true
  | Raise _ => false
  end.

(** [for x in xs: s = body(x, s)], stopping at the first exception. *)
Fixpoint for_each {A S : Type} (xs : list A) (body : A -> S -> result S)
    (s : S) : result S :=
  match xs with
  | [] => OK s
  | x :: rest => bind (body x s) (for_each rest body)
  end.

(** A list comprehension (or generator consumed in order) whose element
    expression may raise. *)
Fixpoint map_m {A B : Type} (f : A -> result B) (xs : list A)
    : result (list B) :=
  match xs with
  | [] => OK []
  | x :: rest =>
      bind (f x) (fun y => bind (map_m f rest) (fun ys => OK (y :: ys)))
  end.

(** [range(n)] and [range(0, n, step)]; empty when [n <= 0]. *)
Definition range (n : Z) : list Z :=
  map Z.of_nat (seq 0 (Z.to_nat n)).

Definition range_step (n step : Z) : list Z :=
  map (fun k => Z.of_nat k * step) (seq 0 (Z.to_nat ((n + step - 1) / step))).

(** [xs[i]] for [i >= 0]. *)
Definition index {A : Type} (xs : list A) (i : Z) : result A :=
  match nth_error xs (Z.to_nat i) with
  | Some x => OK x
  | None => Raise IndexError
  end.

(** *** Floats *)

(** The value of an [int] as a float, rounded to nearest even. *)
Definition float_of_Z (z : Z) : float :=
  SF2Prim (binary_normalize prec emax z 0 false).

(** The implicit conversion in [int * float] and [float / int]:
    an [int] too large for a float raises [OverflowError]. *)
Definition float_of_int (z : Z) : result float :=
  let f := float_of_Z z in
  if is_infinity f then Raise OverflowError else OK f.

(** [x / y] on floats. *)
Definition truediv (x y : float) : result float :=
  if (y =? 0)%float then Raise ZeroDivisionError else OK (x / y)%float.

(** [x ** 2] on a float: the C library's [pow(x, 2.0)], taken here as the
    correctly rounded square, which raises [OverflowError] when a finite
    [x] has an infinite square. *)
Definition pow2 (x : float) : result float :=
  let y := (x * x)%float in
  if is_finite x && is_infinity y then Raise OverflowError else OK y.

(** [math.ceil] (the result is an [int], so [int(math.ceil(x))] is the same
    number). *)
Definition ceil (x : float) : result Z :=
  match Prim2SF x with
  | S754_nan => Raise ValueError
  | S754_infinity _ => Raise OverflowError
  | S754_zero _ => OK 0
  | S754_finite s m e =>
      let n := Z.pos m in
      if 0 <=? e then OK ((if s then - n else n) * 2 ^ e)
      else if s then OK (- (n / 2 ^ (- e)))
      else OK (- ((- n) / 2 ^ (- e)))
  end.

(** [math.sqrt]: a negative argument is a domain error. *)
Definition sqrt (x : float) : result float :=
  if (x <? 0)%float then Raise ValueError else OK (PrimFloat.sqrt x).

(** [min(xs)] and [max(xs)]: the first smallest (largest) item;
    [ValueError] on an empty sequence. *)
Definition min (xs : list float) : result float :=
  match xs with
  | [] => Raise ValueError
  | x :: rest => OK (fold_left (fun m y => if (y <? m)%float then y else m) rest x)
  end.

Definition max (xs : list float) : result float :=
  match xs with
  | [] => Raise ValueError
  | x :: rest => OK (fold_left (fun m y => if (m <? y)%float then y else m) rest x)
  end.

(** [round(x, ndigits)] for [ndigits >= 0]: the float nearest to the decimal
    with [ndigits] digits after the point that is nearest to [x], ties going
    to the even digit; infinities, NaN and zeros are returned unchanged. *)
Definition round_half_even (num den : Z) : Z :=
  let q := num / den in
  let r := num mod den in
  match 2 * r ?= den with
  | Lt => q
  | Gt => q + 1
  | Eq => if Z.even q then q else q + 1
  end.

Definition round (x : float) (ndigits : Z) : float :=
  match Prim2SF x with
  | S754_finite s m e =>
      let scale := 10 ^ ndigits in
      let n :=
        if 0 <=? e then Z.pos m * 2 ^ e * scale
        else round_half_even (Z.pos m * scale) (2 ^ (- e)) in
      match n, scale with
      | Z.pos n', Z.pos scale' =>
          SF2Prim (SFdiv prec emax (S754_finite s n' 0) (S754_finite false scale' 0))
      | _, _ => if s then neg_zero else zero
      end
  | _ => x
  end.

End Py.

Import Py.

Declare Scope py_scope.
Delimit Scope py_scope with py.
Notation "x <- c ;; k" := (bind c (fun x => k))
  (at level 61, c at next level, right associativity) : py_scope.
Notation "' pat <- c ;; k" := (bind c (fun x => match x with pat => k end))
  (at level 61, pat pattern, c at next level, right associativity) : py_scope.
Local Open Scope py_scope.

(** ** 1. Station data *)

Record station : Type := {
  stationId : string;
  name : string;
  nameEng : string;
  lat : float;
  lng : float;
  lineNameEng : string;
  lineColorHex : string;
  lineServiceName : string
}.

(** ** Helper: approximate conversions for Bangkok *)

Definition KM_PER_DEG_LAT : float := 110.574%float.
Definition KM_PER_DEG_LNG : float := 107.551%float.

Definition BUFFER_KM : float := 1.0%float.
Definition GAP_THRESHOLD_KM : float := 5.0%float.

(** ** 3. Transit coverage: grid sampling of the union of the buffers *)

Record bbox : Type := {
  min_lat : float;
  max_lat : float;
  min_lng : float;
  max_lng : float
}.

(** Lines 132-138.  The divisors are non-zero constants, so these divisions
    cannot raise. *)
Definition bounding_box (stations : list station) : result bbox :=
  let all_lats := map lat stations in
  let all_lngs := map lng stations in
  lo_lat <- Py.min all_lats ;;
  hi_lat <- Py.max all_lats ;;
  lo_lng <- Py.min all_lngs ;;
  hi_lng <- Py.max all_lngs ;;
  OK {| min_lat := (lo_lat - BUFFER_KM / KM_PER_DEG_LAT)%float;
        max_lat := (hi_lat + BUFFER_KM / KM_PER_DEG_LAT)%float;
        min_lng := (lo_lng - BUFFER_KM / KM_PER_DEG_LNG)%float;
        max_lng := (hi_lng + BUFFER_KM / KM_PER_DEG_LNG)%float |}.

Definition CELL_SIZE_KM : float := 0.1%float.

Definition n_rows (b : bbox) : result Z :=
  Py.ceil ((max_lat b - min_lat b) * KM_PER_DEG_LAT / CELL_SIZE_KM)%float.

Definition n_cols (b : bbox) : result Z :=
  Py.ceil ((max_lng b - min_lng b) * KM_PER_DEG_LNG / CELL_SIZE_KM)%float.

(** Station positions in km relative to the bounding-box origin, as
    [(sy, sx)] pairs. *)
Definition stations_km (b : bbox) (stations : list station)
    : list (float * float) :=
  map (fun s => (((lat s - min_lat b) * KM_PER_DEG_LAT)%float,
                 ((lng s - min_lng b) * KM_PER_DEG_LNG)%float)) stations.

(** Centre of row or column [k], in km: [k * CELL_SIZE_KM + CELL_SIZE_KM / 2].
    [k] is below a row or column count, which is the ceiling of a finite
    float, so its conversion to a float cannot overflow. *)
Definition cell_center (k : Z) : float :=
  (float_of_Z k * CELL_SIZE_KM + CELL_SIZE_KM / 2)%float.

(** The innermost loop (lines 161-164): is the cell centre [(x, y)] within
    the buffer of some station?  The scan stops at the first hit. *)
Fixpoint cell_covered (x y : float) (skm : list (float * float))
    : result bool :=
  match skm with
  | [] => OK false
  | (sy, sx) :: rest =>
      dx2 <- pow2 (x - sx) ;;
      dy2 <- pow2 (y - sy) ;;
      r2 <- pow2 BUFFER_KM ;;
      if (dx2 + dy2 <=? r2)%float then OK true else cell_covered x y rest
  end.

(** Lines 156-164: the count of covered cells. *)
Definition covered_cells (rows cols : Z) (skm : list (float * float))
    : result Z :=
  for_each (range rows) (fun r covered =>
    let y := cell_center r in
    for_each (range cols) (fun c covered =>
      let x := cell_center c in
      hit <- cell_covered x y skm ;;
      OK (if hit then covered + 1 else covered)) covered) 0.

Record CoverageResult : Type := {
  cr_bbox : bbox;
  cr_n_rows : Z;
  cr_n_cols : Z;
  cr_covered_cells : Z;
  cr_cell_area : float;
  cr_total_coverage_sqkm : float
}.

(** Lines 132-167. *)
Definition coverage (stations : list station) : result CoverageResult :=
  b <- bounding_box stations ;;
  rows <- n_rows b ;;
  cols <- n_cols b ;;
  covered <- covered_cells rows cols (stations_km b stations) ;;
  cell_area <- pow2 CELL_SIZE_KM ;;
  covered_f <- float_of_int covered ;;
  OK {| cr_bbox := b;
        cr_n_rows := rows;
        cr_n_cols := cols;
        cr_covered_cells := covered;
        cr_cell_area := cell_area;
        cr_total_coverage_sqkm := (covered_f * cell_area)%float |}.

(** ** The C math library behind Python's [math] module

    [math.sin], [math.cos] and [math.atan2] call the C library, whose results
    are not fixed by IEEE-754; the model is parameterised by them. *)

Class Libm : Type := {
  libm_sin : float -> float;
  libm_cos : float -> float;
  libm_atan2 : float -> float -> float
}.

Definition math_pi : float := 3.141592653589793%float.

(** [math.sin] and [math.cos] raise [ValueError] (math domain error) on an
    infinite argument. *)
Definition math_sin `{Libm} (x : float) : result float :=
  if is_infinity x then Raise ValueError else OK (libm_sin x).

Definition math_cos `{Libm} (x : float) : result float :=
  if is_infinity x then Raise ValueError else OK (libm_cos x).

Definition math_atan2 `{Libm} (y x : float) : float := libm_atan2 y x.

(** [math.radians(x)] is [x * (pi / 180)]. *)
Definition math_radians (x : float) : float :=
  (x * (math_pi / 180))%float.

(** Lines 54-62. *)
Definition haversine_km `{Libm} (lat1 lng1 lat2 lng2 : float) : result float :=
  let R := 6371.0%float in
  let dlat := math_radians (lat2 - lat1) in
  let dlng := math_radians (lng2 - lng1) in
  s1 <- math_sin (dlat / 2) ;;
  s1sq <- pow2 s1 ;;
  c1 <- math_cos (math_radians lat1) ;;
  c2 <- math_cos (math_radians lat2) ;;
  s2 <- math_sin (dlng / 2) ;;
  s2sq <- pow2 s2 ;;
  let a := (s1sq + c1 * c2 * s2sq)%float in
  ra <- Py.sqrt a ;;
  rb <- Py.sqrt (1 - a) ;;
  OK (R * 2 * math_atan2 ra rb)%float.

(** A coordinate pair: [[lng, lat]] in GeoJSON, [(x, y)] for the hull. *)
Definition point : Type := (float * float)%type.

(** The angle of vertex [i]: [2 * math.pi * i / n_points]. *)
Definition vertex_angle (i n_points : Z) : result float :=
  fi <- float_of_int i ;;
  fn <- float_of_int n_points ;;
  truediv (2 * math_pi * fi) fn.

(** Lines 65-76; [n_points] defaults to 64 at the call sites that omit it. *)
Definition circle_polygon `{Libm} (lat lng radius_km : float) (n_points : Z)
    : result (list point) :=
  let d_lat := (radius_km / KM_PER_DEG_LAT)%float in
  let d_lng := (radius_km / KM_PER_DEG_LNG)%float in
  for_each (range (n_points + 1)) (fun i coords =>
    angle <- vertex_angle i n_points ;;
    c <- math_cos angle ;;
    s <- math_sin angle ;;
    OK (coords ++ [(Py.round (lng + d_lng * c) 8,
                    Py.round (lat + d_lat * s) 8)])) [].

(** ** 4. Transit deserts *)

Definition is_upper (c : ascii) : bool :=
  ((65 <=? nat_of_ascii c) && (nat_of_ascii c <=? 90))%nat.

(** The group captured by [re.match(r"([A-Z]+)", s)]: the greedy run of
    characters in [A-Z] at the start of [s]; no match when the run is
    empty.  Identifiers are byte strings (UTF-8): no byte of a character
    outside ASCII lies in [A-Z]. *)
Fixpoint upper_run (s : string) : string :=
  match s with
  | EmptyString => EmptyString
  | String c rest => if is_upper c then String c (upper_run rest) else EmptyString
  end.

Definition re_match_upper (s : string) : option string :=
  match upper_run s with
  | EmptyString => None
  | g => Some g
  end.

(** Lines 190-193. *)
Definition branch_key (s : station) : string :=
  match re_match_upper (stationId s) with
  | Some g => g
  | None => stationId s
  end.

Definition group_key : Type := (string * string)%type.

Definition key_eqb (k1 k2 : group_key) : bool :=
  String.eqb (fst k1) (fst k2) && String.eqb (snd k1) (snd k2).

(** [groups.setdefault(key, []).append(s)] on an [OrderedDict], kept as an
    association list in insertion order of the keys. *)
Fixpoint setdefault_append (key : group_key) (s : station)
    (groups : list (group_key * list station))
    : list (group_key * list station) :=
  match groups with
  | [] => [(key, [s])]
  | (k, members) :: rest =>
      if key_eqb k key then (k, members ++ [s]) :: rest
      else (k, members) :: setdefault_append key s rest
  end.

(** Lines 196-199. *)
Definition line_branch_groups (stations : list station)
    : list (group_key * list station) :=
  fold_left (fun groups s =>
    setdefault_append (lineNameEng s, branch_key s) s groups) stations [].

Record GapRecord : Type := {
  gap_line : string;
  gap_from : string;
  gap_to : string;
  distance_km : float
}.

(** The features appended to [gap_features]. *)
Inductive feature : Type :=
| transit_desert_gap (line from_station to_station : string) (gap_km : float)
    (coordinates : list point)
| transit_desert_zone (rank : Z) (nearest_station_km : float)
    (ring : list point).

Definition gap_record (line_name branch : string) (a b : station)
    (dist : float) : GapRecord :=
  {| gap_line := (line_name ++ " (" ++ branch ++ "-branch)")%string;
     gap_from := nameEng a;
     gap_to := nameEng b;
     distance_km := Py.round dist 2 |}.

Definition gap_feature (line_name : string) (a b : station) (dist : float)
    : feature :=
  transit_desert_gap line_name (nameEng a) (nameEng b) (Py.round dist 2)
    [(lng a, lat a); (lng b, lat b)].

(** The body of the inner loop, lines 206-234, on the state
    [(gaps_info, gap_features)]. *)
Definition gap_step `{Libm} (line_name branch : string)
    (line_stations : list station) (i : Z)
    (st : list GapRecord * list feature)
    : result (list GapRecord * list feature) :=
  a <- Py.index line_stations i ;;
  b <- Py.index line_stations (i + 1) ;;
  dist <- haversine_km (lat a) (lng a) (lat b) (lng b) ;;
  if (GAP_THRESHOLD_KM <=? dist)%float
  then OK (fst st ++ [gap_record line_name branch a b dist],
           snd st ++ [gap_feature line_name a b dist])
  else OK st.

(** Lines 201-234. *)
Definition gap_scan `{Libm} (groups : list (group_key * list station))
    : result (list GapRecord * list feature) :=
  for_each groups (fun g st =>
    let '((line_name, branch), line_stations) := g in
    for_each (range (Z.of_nat (List.length line_stations) - 1))
      (gap_step line_name branch line_stations) st) ([], []).

(** *** Isolated zones *)

Record desert_cell : Type := {
  dc_lat : float;
  dc_lng : float;
  nearest_km : float
}.

(** Lines 246-249: the distance from a cell centre to the nearest station. *)
Definition cell_min_dist (x_km y_km : float) (skm : list (float * float))
    : result float :=
  ds <- map_m (fun s : float * float =>
          let (sy, sx) := s in
          dx2 <- pow2 (x_km - sx) ;;
          dy2 <- pow2 (y_km - sy) ;;
          Py.sqrt (dx2 + dy2)) skm ;;
  Py.min ds.

(** The body of the inner loop, lines 244-255. *)
Definition desert_step (b : bbox) (skm : list (float * float)) (r c : Z)
    (cells : list desert_cell) : result (list desert_cell) :=
  let y_km := cell_center r in
  let lat_cell := (min_lat b + y_km / KM_PER_DEG_LAT)%float in
  let x_km := cell_center c in
  let lng_cell := (min_lng b + x_km / KM_PER_DEG_LNG)%float in
  min_dist <- cell_min_dist x_km y_km skm ;;
  if (GAP_THRESHOLD_KM <=? min_dist)%float
  then OK (cells ++ [{| dc_lat := lat_cell; dc_lng := lng_cell;
                        nearest_km := Py.round min_dist 2 |}])
  else OK cells.

(** Lines 239-255: every fifth row and column of the grid. *)
Definition desert_center_cells (b : bbox) (rows cols : Z)
    (skm : list (float * float)) : result (list desert_cell) :=
  for_each (range_step rows 5) (fun r cells =>
    for_each (range_step cols 5) (fun c cells =>
      desert_step b skm r c cells) cells) [].

(** [cells.sort(key=lambda d: d["nearest_km"], reverse=True)].  Python's sort
    is stable, also with [reverse=True]: items whose keys compare equal keep
    their order.  For keys that are not NaN this fixes the result, which is
    computed here by insertion. *)
Fixpoint insert_desc (d : desert_cell) (sorted : list desert_cell)
    : list desert_cell :=
  match sorted with
  | [] => [d]
  | e :: rest =>
      if (nearest_km d <? nearest_km e)%float then e :: insert_desc d rest
      else d :: e :: rest
  end.

Definition sort_nearest_km_reverse (cells : list desert_cell)
    : list desert_cell :=
  fold_right insert_desc [] cells.

(** Line 260. *)
Definition desert_zones (cells : list desert_cell) : list desert_cell :=
  firstn 10 (sort_nearest_km_reverse cells).

(** The radius, in km, of the disk drawn for a desert zone: the literal
    [2.0] of line 263. *)
Definition DESERT_ZONE_RADIUS_KM : float := 2.0%float.

(** Lines 262-277: [enumerate(desert_zones)] starting at index [i]. *)
Fixpoint desert_zone_features `{Libm} (i : Z) (zones : list desert_cell)
    : result (list feature) :=
  match zones with
  | [] => OK []
  | dz :: rest =>
      ring <- circle_polygon (dc_lat dz) (dc_lng dz) DESERT_ZONE_RADIUS_KM 48 ;;
      fs <- desert_zone_features (i + 1) rest ;;
      OK (transit_desert_zone (i + 1) (nearest_km dz) ring :: fs)
  end.

(** Lines 239-277 for a station list. *)
Definition isolation_scan `{Libm} (stations : list station)
    : result (list desert_cell * list feature) :=
  b <- bounding_box stations ;;
  rows <- n_rows b ;;
  cols <- n_cols b ;;
  cells <- desert_center_cells b rows cols (stations_km b stations) ;;
  let zones := desert_zones cells in
  fs <- desert_zone_features 0 zones ;;
  OK (zones, fs).

(** ** 5. Network footprint: convex hull of the stations *)

(** Line 320. *)
Definition cross (o a b : point) : float :=
  ((fst a - fst o) * (snd b - snd o) - (snd a - snd o) * (fst b - fst o))%float.

(** [==] and [<] on pairs of floats. *)
Definition point_eqb (p q : point) : bool :=
  ((fst p =? fst q) && (snd p =? snd q))%float.

Definition point_ltb (p q : point) : bool :=
  if (fst p =? fst q)%float then
    if (snd p =? snd q)%float then false else (snd p <? snd q)%float
  else (fst p <? fst q)%float.

(** [set(points)]: one representative of each class of equal points.  The
    order in which a set is iterated is not specified, but the set is sorted
    at once; for coordinates that are not NaN the sorted list does not depend
    on it. *)
Definition set_of (points : list point) : list point :=
  fold_left (fun seen p =>
    if existsb (point_eqb p) seen then seen else seen ++ [p]) points [].

(** [sorted(xs)] on points, by stable insertion. *)
Fixpoint insert_point (p : point) (sorted : list point) : list point :=
  match sorted with
  | [] => [p]
  | q :: rest =>
      if point_ltb q p then q :: insert_point p rest else p :: q :: rest
  end.

Definition sorted (points : list point) : list point :=
  fold_right insert_point [] points.

(** The [while] loop of lines 309-310 and 314-315; the stack is held with
    its top first. *)
Fixpoint pop_while (stack : list point) (p : point) : list point :=
  match stack with
  | top :: below =>
      match below with
      | under :: _ =>
          if (cross under top p <=? 0)%float then pop_while below p else stack
      | [] => stack
      end
  | [] => stack
  end.

(** One chain (lines 307-311, and 312-316 on the reversed points), returned
    in the order of the Python list. *)
Definition chain (points : list point) : list point :=
  rev (fold_left (fun stack p => p :: pop_while stack p) points []).

(** Lines 301-317. *)
Definition convex_hull (points : list point) : list point :=
  let points := sorted (set_of points) in
  if (List.length points <=? 1)%nat then points
  else
    let lower := chain points in
    let upper := chain (rev points) in
    removelast lower ++ removelast upper.

(** Lines 324-326. *)
Definition hull_coords (stations : list station) : result (list point) :=
  let hull_pts := convex_hull (map (fun s => (lng s, lat s)) stations) in
  let coords := map (fun p : point => (fst p, snd p)) hull_pts in
  first <- Py.index coords 0 ;;
  OK (coords ++ [first]).

(** ** 2. The station points and their buffers *)

(** The features of the output, by their ["type"] property: the footprint
    polygon, a station point, a station buffer, and the gap lines and desert
    disks kept in [gap_features]. *)
Inductive geojson_feature : Type :=
| network_footprint (ring : list point)
| station_feature (station_id name_eng name_th line service color : string)
    (coordinates : point)
| buffer_1km (station_id name_eng line color : string) (radius_km : float)
    (ring : list point)
| desert_feature (f : feature).

Definition station_point_feature (s : station) : geojson_feature :=
  station_feature (stationId s) (nameEng s) (name s) (lineNameEng s)
    (lineServiceName s) (lineColorHex s) (lng s, lat s).

Definition station_buffer_feature (s : station) (ring : list point)
    : geojson_feature :=
  buffer_1km (stationId s) (nameEng s) (lineNameEng s) (lineColorHex s)
    BUFFER_KM ring.

(** The body of the loop of lines 85-122, on the state
    [(station_features, buffer_polygons)]. *)
Definition station_step `{Libm} (s : station)
    (st : list geojson_feature * list (list point))
    : result (list geojson_feature * list (list point)) :=
  ring <- circle_polygon (lat s) (lng s) BUFFER_KM 64 ;;
  OK (fst st ++ [station_point_feature s; station_buffer_feature s ring],
      snd st ++ [ring]).

(** Lines 82-122. *)
Definition station_buffers `{Libm} (stations : list station)
    : result (list geojson_feature * list (list point)) :=
  for_each stations station_step ([], []).

(** ** 6. The document written to [coverage.geojson] *)

Record metadata : Type := {
  transit_coverage_sqkm : float;
  total_stations : Z;
  buffer_radius_km : float;
  gap_threshold_km : float;
  transit_desert_gaps : list GapRecord
}.

Record geojson : Type := {
  geo_metadata : metadata;
  features : list geojson_feature
}.

(** The script from the loaded stations to the document of line 364, stage
    by stage in the order of the source; the grid of section 3 is reused by
    the desert scan. *)
Definition analysis `{Libm} (stations : list station) : result geojson :=
  '(station_features, buffer_polygons) <- station_buffers stations ;;
  cov <- coverage stations ;;
  '(gaps_info, gap_features) <- gap_scan (line_branch_groups stations) ;;
  cells <- desert_center_cells (cr_bbox cov) (cr_n_rows cov) (cr_n_cols cov)
             (stations_km (cr_bbox cov) stations) ;;
  zone_features <- desert_zone_features 0 (desert_zones cells) ;;
  hull <- hull_coords stations ;;
  OK {| geo_metadata :=
          {| transit_coverage_sqkm := Py.round (cr_total_coverage_sqkm cov) 2;
             total_stations := Z.of_nat (List.length stations);
             buffer_radius_km := BUFFER_KM;
             gap_threshold_km := GAP_THRESHOLD_KM;
             transit_desert_gaps := gaps_info |};
        features :=
          [network_footprint hull] ++ station_features
            ++ map desert_feature (gap_features ++ zone_features) |}.

(** ** A reference math library

    An instance of [Libm] to run the model with: sine, cosine and arc tangent
    evaluated in fixed-point arithmetic with [ref_bits] fractional bits and
    then rounded to the nearest float.  The theorems below do not depend on
    it: they hold for every [Libm]. *)

Module RefLibm.

Definition ref_bits : Z := 128.
Definition pi_bits : Z := 1400.

Definition fix_mul (k a b : Z) : Z := Z.shiftr (a * b) k.

(** [atan (1 / n)] scaled by [2 ^ k], by its power series. *)
Fixpoint atan_inv_series (fuel : nat) (n2 sign j term acc : Z) : Z :=
  match fuel with
  | O => acc
  | S fuel' =>
      if term =? 0 then acc
      else atan_inv_series fuel' n2 (- sign) (j + 2) (term / n2)
             (acc + sign * (term / j))
  end.

Definition atan_inv (k n : Z) : Z :=
  atan_inv_series 2000 (n * n) 1 1 (2 ^ k / n) 0.

(** Machin's formula, with guard bits. *)
Definition pi_fix : Z :=
  Eval vm_compute in
    (16 * atan_inv (pi_bits + 32) 5 - 4 * atan_inv (pi_bits + 32) 239) / 2 ^ 32.

(** Sine and cosine of [r] in [[0, pi/2)], scaled by [2 ^ ref_bits]:
    the sum of the terms [r^j / j!] of alternating sign, from [j] on. *)
Fixpoint taylor (fuel : nat) (r2 j term acc sign : Z) : Z :=
  match fuel with
  | O => acc
  | S fuel' =>
      if term =? 0 then acc
      else taylor fuel' r2 (j + 2) (fix_mul ref_bits term r2 / ((j + 1) * (j + 2)))
             (acc + sign * term) (- sign)
  end.

Definition sin_fix (r : Z) : Z := taylor 200 (fix_mul ref_bits r r) 1 r 0 1.
Definition cos_fix (r : Z) : Z :=
  taylor 200 (fix_mul ref_bits r r) 0 (2 ^ ref_bits) 0 1.

(** [|x| = m * 2 ^ e] reduced modulo [pi/2]: the quadrant and the remainder
    scaled by [2 ^ ref_bits].  The reduction is done with [k] fractional
    bits, enough for the size of [x]. *)
Definition reduce (m : positive) (e : Z) : Z * Z :=
  let k := ref_bits + 64 + Z.max 0 (Z.log2 (Z.pos m) + e) in
  let xs := Z.shiftl (Z.pos m) (e + k) in
  let h := Z.shiftr pi_fix (pi_bits - k + 1) in
  let q := xs / h in
  (q mod 4, Z.shiftr (xs - q * h) (k - ref_bits)).

Definition of_fix (z : Z) : float :=
  SF2Prim (binary_normalize prec emax z (- ref_bits) false).

Definition small (m : positive) (e : Z) : bool :=
  Z.log2 (Z.pos m) + e <? -28.

Definition ref_sin (x : float) : float :=
  match Prim2SF x with
  | S754_finite s m e =>
      if small m e then x
      else
        let (q, r) := reduce m e in
        let v := if q =? 0 then sin_fix r
                 else if q =? 1 then cos_fix r
                 else if q =? 2 then - sin_fix r
                 else - cos_fix r in
        of_fix (if s then - v else v)
  | S754_infinity _ => nan
  | _ => x
  end.

Definition ref_cos (x : float) : float :=
  match Prim2SF x with
  | S754_finite s m e =>
      if small m e then 1%float
      else
        let (q, r) := reduce m e in
        of_fix (if q =? 0 then cos_fix r
                else if q =? 1 then - sin_fix r
                else if q =? 2 then - cos_fix r
                else sin_fix r)
  | S754_zero _ => 1%float
  | _ => nan
  end.

(** [atan t] for [0 <= t <= 1], scaled: three halvings of the angle, then
    the power series. *)
Definition one_fix : Z := 2 ^ ref_bits.

Definition half_angle (t : Z) : Z :=
  t * one_fix / (one_fix + Z.sqrt (one_fix * one_fix + t * t)).

Fixpoint atan_series (fuel : nat) (u2 j term acc sign : Z) : Z :=
  match fuel with
  | O => acc
  | S fuel' =>
      if term =? 0 then acc
      else atan_series fuel' u2 (j + 2) (fix_mul ref_bits term u2)
             (acc + sign * (term / j)) (- sign)
  end.

Definition atan_fix (t : Z) : Z :=
  let u := half_angle (half_angle (half_angle t)) in
  8 * atan_series 200 (fix_mul ref_bits u u) 1 u 0 1.

Definition pi_ref : Z :=
  Eval vm_compute in Z.shiftr pi_fix (pi_bits - ref_bits).

(** [my * 2 ^ ey / (mx * 2 ^ ex)] scaled by [2 ^ ref_bits]. *)
Definition ratio_fix (my : positive) (ey : Z) (mx : positive) (ex : Z) : Z :=
  let sh := ey - ex + ref_bits in
  if 0 <=? sh then Z.pos my * 2 ^ sh / Z.pos mx
  else Z.pos my / (Z.pos mx * 2 ^ (- sh)).

Definition signed (s : bool) (x : float) : float :=
  if s then (- x)%float else x.

Definition ref_atan2 (y x : float) : float :=
  match Prim2SF y, Prim2SF x with
  | S754_nan, _ | _, S754_nan => nan
  | S754_zero sy, S754_zero sx
  | S754_zero sy, S754_finite sx _ _
  | S754_zero sy, S754_infinity sx
  | S754_finite sy _ _, S754_infinity sx =>
      signed sy (if sx then of_fix pi_ref else 0%float)
  | S754_finite sy _ _, S754_zero _
  | S754_infinity sy, S754_zero _
  | S754_infinity sy, S754_finite _ _ _ => signed sy (of_fix (pi_ref / 2))
  | S754_infinity sy, S754_infinity sx =>
      signed sy (of_fix (if sx then 3 * pi_ref / 4 else pi_ref / 4))
  | S754_finite sy my ey, S754_finite sx mx ex =>
      let t := ratio_fix my ey mx ex in
      if (t <? 2 ^ (ref_bits - 30)) && negb sx then (y / x)%float
      else
        let a := if t <=? one_fix then atan_fix t
                 else pi_ref / 2 - atan_fix (ratio_fix mx ex my ey) in
        signed sy (of_fix (if sx then pi_ref - a else a))
  end.

#[export] Instance libm : Libm :=
  {| libm_sin := ref_sin; libm_cos := ref_cos; libm_atan2 := ref_atan2 |}.

End RefLibm.

(** ** Vocabulary of the statements and example data *)

Definition mk_station (id line : string) (la lo : float) : station :=
  {| stationId := id; name := id; nameEng := id; lat := la; lng := lo;
     lineNameEng := line; lineColorHex := "#000000"; lineServiceName := "" |}.

(** The test of line 162 for one station. *)
Definition in_buffer (x y : float) (s : float * float) : result bool :=
  dx2 <- pow2 (x - snd s) ;;
  dy2 <- pow2 (y - fst s) ;;
  r2 <- pow2 BUFFER_KM ;;
  OK (dx2 + dy2 <=? r2)%float.

Definition count_cell (skm : list (float * float)) (y : float) (c covered : Z)
    : result Z :=
  hit <- cell_covered (cell_center c) y skm ;;
  OK (if hit then covered + 1 else covered).

Definition station_A : station := mk_station "A1" "Line" 13.7 100.5.
Definition station_NE : station := mk_station "A2" "Line" 13.702 100.503.
Definition station_SE : station := mk_station "A2" "Line" 13.69989 100.50011.

Definition coverage_summary (stations : list station)
    : result (Z * Z * Z) :=
  r <- coverage stations ;;
  OK (cr_n_rows r, cr_n_cols r, cr_covered_cells r).

(** [p] is the leading maximal run of upper-case letters of [id]: a prefix
    made of letters in [A-Z] that is followed by the end of [id] or by a
    character outside [A-Z]. *)
Definition leading_upper_run (id p : string) : Prop :=
  exists rest,
    id = (p ++ rest)%string /\
    Forall (fun c => is_upper c = true) (list_ascii_of_string p) /\
    match rest with
    | EmptyString => True
    | String c _ => is_upper c = false
    end.


Definition station_point (s : station) : point := (lng s, lat s).

Definition collinear_points : list point :=
  [(2.4, 4.2); (2.9, 4.7); (5.0, 6.8); (12.2, 14.0)]%float.


(** The vertex of the circle at a given angle (lines 72-75). *)
Definition vertex_at `{Libm} (lat lng radius_km angle : float) : point :=
  (Py.round (lng + radius_km / KM_PER_DEG_LNG * libm_cos angle) 8,
   Py.round (lat + radius_km / KM_PER_DEG_LAT * libm_sin angle) 8)%float.

(** One iteration of the loop of [circle_polygon], without the list. *)
Definition circle_vertex `{Libm} (lat lng radius_km : float) (n_points i : Z)
    : result point :=
  angle <- vertex_angle i n_points ;;
  c <- math_cos angle ;;
  s <- math_sin angle ;;
  OK (Py.round (lng + radius_km / KM_PER_DEG_LNG * c) 8,
      Py.round (lat + radius_km / KM_PER_DEG_LAT * s) 8)%float.

(** Every angle [2 * pi * i / n_points], [0 <= i <= n_points], is computed
    without an exception and is finite. *)
Definition angles_ok (n_points : Z) : bool :=
  forallb (fun i =>
    match vertex_angle i n_points with
    | OK angle => negb (is_infinity angle)
    | Raise _ => false
    end) (range (n_points + 1)).

Definition first_and_last (ring : result (list point))
    : option (point * point) :=
  match ring with
  | OK (first :: rest) => Some (first, last rest first)
  | _ => None
  end.

(** [a] and [b] are the stations at positions [i] and [i + 1] of a branch. *)
Definition consecutive (line_stations : list station) (i : nat)
    (a b : station) : Prop :=
  nth_error line_stations i = Some a /\
  nth_error line_stations (S i) = Some b.

(** What one iteration of the gap loop emits: nothing, or one record with its
    feature. *)
Definition pair_gap `{Libm} (line_name branch : string)
    (line_stations : list station) (i : Z)
    : result (list (GapRecord * feature)) :=
  a <- Py.index line_stations i ;;
  b <- Py.index line_stations (i + 1) ;;
  dist <- haversine_km (lat a) (lng a) (lat b) (lng b) ;;
  OK (if (GAP_THRESHOLD_KM <=? dist)%float
      then [(gap_record line_name branch a b dist,
             gap_feature line_name a b dist)]
      else []).

Definition group_gaps `{Libm} (g : group_key * list station)
    : result (list (GapRecord * feature)) :=
  ls <- map_m (pair_gap (fst (fst g)) (snd (fst g)) (snd g))
          (range (Z.of_nat (List.length (snd g)) - 1)) ;;
  OK (List.concat ls).

(** The two output lists after [l] has been emitted. *)
Definition emit {A B : Type} (st : list A * list B) (l : list (A * B))
    : list A * list B :=
  (fst st ++ map fst l, snd st ++ map snd l).

Definition three_stations : list station :=
  [mk_station "N1" "Green" 13.70 100.50;
   mk_station "N2" "Green" 13.72 100.50;
   mk_station "N3" "Green" 13.80 100.50].

(** [a] stands before [b] in a list. *)
Inductive before {A : Type} (a b : A) : list A -> Prop :=
| before_here l : In b l -> before a b (a :: l)
| before_later x l : before a b l -> before a b (x :: l).

(** Two cells in descending order of their rounded distance. *)
Definition not_farther (a b : desert_cell) : Prop :=
  (nearest_km a <? nearest_km b)%float = false.

(** What one sampled cell contributes to [desert_center_cells]. *)
Definition cell_candidate (b : bbox) (skm : list (float * float)) (r c : Z)
    : result (list desert_cell) :=
  min_dist <- cell_min_dist (cell_center c) (cell_center r) skm ;;
  OK (if (GAP_THRESHOLD_KM <=? min_dist)%float
      then [{| dc_lat := (min_lat b + cell_center r / KM_PER_DEG_LAT)%float;
               dc_lng := (min_lng b + cell_center c / KM_PER_DEG_LNG)%float;
               nearest_km := Py.round min_dist 2 |}]
      else []).

Definition reported_km (f : feature) : option float :=
  match f with
  | transit_desert_zone _ km _ => Some km
  | transit_desert_gap _ _ _ _ _ => None
  end.

Definition two_stations : list station :=
  [mk_station "E1" "Green" 13.7 100.5; mk_station "E2" "Green" 13.74 100.54].

(** The exact (unrounded) distance to the nearest station at the sampled
    cell of row [r] and column [c], for a station list. *)
Definition exact_min_dist (stations : list station) (r c : Z) : result float :=
  b <- bounding_box stations ;;
  cell_min_dist (cell_center c) (cell_center r) (stations_km b stations).

Definition candidate_cells (stations : list station)
    : result (list desert_cell) :=
  b <- bounding_box stations ;;
  rows <- n_rows b ;;
  cols <- n_cols b ;;
  desert_center_cells b rows cols (stations_km b stations).

Definition row_candidates (b : bbox) (skm : list (float * float)) (cols r : Z)
    : result (list desert_cell) :=
  ls <- map_m (cell_candidate b skm r) (range_step cols 5) ;;
  OK (List.concat ls).

(** The real number a finite float stands for. *)
Definition float_value (x : float) : R :=
  match Prim2SF x with
  | S754_finite s m e =>
      let v := if 0 <=? e then IZR (Z.pos m * 2 ^ e)
               else (IZR (Z.pos m) / IZR (2 ^ (- e)))%R in
      if s then (- v)%R else v
  | _ => 0%R
  end.

(** The length of a degree of longitude, in km, at latitude [deg] degrees:
    the equatorial degree length times the cosine of the latitude. *)
Definition km_per_deg_lng_at (deg : R) : R :=
  (111.320 * cos (deg * PI / 180))%R.

(** The order of the floats that are not NaN, through a rank in [Z * Z * Z]
    ordered lexicographically. *)
Definition SF_rank (x : spec_float) : Z * Z * Z :=
  match x with
  | S754_infinity true => (-2, 0, 0)
  | S754_finite true m e => (-1, - e, - Z.pos m)
  | S754_zero _ => (0, 0, 0)
  | S754_finite false m e => (1, e, Z.pos m)
  | S754_infinity false => (2, 0, 0)
  | S754_nan => (3, 0, 0)
  end.

Definition rank_lt (a b : Z * Z * Z) : Prop :=
  let '(a1, a2, a3) := a in
  let '(b1, b2, b3) := b in
  a1 < b1 \/ (a1 = b1 /\ (a2 < b2 \/ (a2 = b2 /\ a3 < b3))).

(** The key under which line 198 files a station. *)
Definition station_key (s : station) : group_key :=
  (lineNameEng s, branch_key s).

(** The distinct keys of a list, in the order of their first appearance. *)
Fixpoint first_keys (ks : list group_key) : list group_key :=
  match ks with
  | [] => []
  | k :: rest => k :: filter (fun k' => negb (key_eqb k k')) (first_keys rest)
  end.

(** The stations filed under [k], in the order of the input. *)
Definition members_of (k : group_key) (stations : list station)
    : list station :=
  filter (fun s => key_eqb k (station_key s)) stations.

(** Four stations of one line on two branches, interleaved in the input. *)
Definition two_branches : list station :=
  [mk_station "N1" "Green" 13.70 100.50;
   mk_station "E1" "Green" 13.70 100.60;
   mk_station "N2" "Green" 13.80 100.50;
   mk_station "E2" "Green" 13.70 100.61].

(** The cell centre [(x, y)] lies in the buffer of station [s]: the test of
    line 162 holds. *)
Definition within_buffer (x y : float) (s : float * float) : bool :=
  match in_buffer x y s with
  | OK hit => hit
  | Raise _ => false
  end.

(** The cells of a grid, row by row. *)
Definition grid_cells (rows cols : Z) : list (Z * Z) :=
  list_prod (range rows) (range cols).

(** The cells whose centre lies in the buffer of some station. *)
Definition cells_in_some_buffer (rows cols : Z) (skm : list (float * float))
    : list (Z * Z) :=
  filter (fun rc => existsb (within_buffer (cell_center (snd rc))
                                           (cell_center (fst rc))) skm)
         (grid_cells rows cols).

(** The planar distance, in km, from the point [(x_km, y_km)] to a station
    of [stations_km] (line 247). *)
Definition planar_distance (x_km y_km : float) (s : float * float)
    : result float :=
  dx2 <- pow2 (x_km - snd s) ;;
  dy2 <- pow2 (y_km - fst s) ;;
  Py.sqrt (dx2 + dy2).

(** No coordinate of the stations is NaN. *)
Definition coordinates_not_nan (stations : list station) : Prop :=
  Forall (fun s => is_nan (lat s) = false /\ is_nan (lng s) = false) stations.

(** The ring of the buffer of a station, empty should its computation
    fail. *)
Definition buffer_ring `{Libm} (s : station) : list point :=
  match circle_polygon (lat s) (lng s) BUFFER_KM 64 with
  | OK ring => ring
  | Raise _ => []
  end.

(** ** The hull algorithm over any tests

    [convex_hull] with its three tests ([==] and [<] on points, and the sign
    test of the cross product) taken as parameters, to compare the run on
    floats with a run in exact arithmetic. *)

Section ByTests.

Context {A : Type}.

Variables (eqb ltb : A -> A -> bool) (clockwise : A -> A -> A -> bool).

Definition set_of_by (points : list A) : list A :=
  fold_left (fun seen p =>
    if existsb (eqb p) seen then seen else seen ++ [p]) points [].

Fixpoint insert_by (p : A) (sorted : list A) : list A :=
  match sorted with
  | [] => [p]
  | q :: rest => if ltb q p then q :: insert_by p rest else p :: q :: rest
  end.

Definition sorted_by (points : list A) : list A :=
  fold_right insert_by [] points.

Fixpoint pop_while_by (stack : list A) (p : A) : list A :=
  match stack with
  | top :: below =>
      match below with
      | under :: _ =>
          if clockwise under top p then pop_while_by below p else stack
      | [] => stack
      end
  | [] => stack
  end.

Definition push_by (stack : list A) (p : A) : list A :=
  p :: pop_while_by stack p.

Definition chain_by (points : list A) : list A :=
  rev (fold_left push_by points []).

Definition hull_by (points : list A) : list A :=
  let points := sorted_by (set_of_by points) in
  if (List.length points <=? 1)%nat then points
  else removelast (chain_by points) ++ removelast (chain_by (rev points)).

End ByTests.

(** Points with integer coordinates, and the tests in exact arithmetic. *)

Definition zpoint : Type := (Z * Z)%type.

Definition lex_lt (a b : zpoint) : Prop :=
  fst a < fst b \/ (fst a = fst b /\ snd a < snd b).

Definition cross_exact (o a b : zpoint) : Z :=
  (fst a - fst o) * (snd b - snd o) - (snd a - snd o) * (fst b - fst o).

Definition zeqb (a b : zpoint) : bool :=
  (fst a =? fst b) && (snd a =? snd b).

Definition lex_ltb (a b : zpoint) : bool :=
  (fst a <? fst b) || ((fst a =? fst b) && (snd a <? snd b)).

Definition clockwise_exact (o a b : zpoint) : bool :=
  cross_exact o a b <=? 0.

(** [slope lj l a b]: the direction from [a] to [b] is not to the right of
    the direction from [lj] to [l]. *)

Definition slope (lj l a b : zpoint) : Z :=
  (fst l - fst lj) * (snd b - snd a) - (snd l - snd lj) * (fst b - fst a).

(** ** The scan on exact points *)

Definition pop_exact : list zpoint -> zpoint -> list zpoint :=
  pop_while_by clockwise_exact.

Definition push_exact (stack : list zpoint) (p : zpoint) : list zpoint :=
  p :: pop_exact stack p.

Definition scan_exact (points stack : list zpoint) : list zpoint :=
  fold_left push_exact points stack.

(** Properties of the edges [a -> b] of a stack held top first. *)

Fixpoint edges (R : zpoint -> zpoint -> Prop) (stack : list zpoint) : Prop :=
  match stack with
  | b :: below =>
      match below with
      | a :: _ => R a b /\ edges R below
      | [] => True
      end
  | [] => True
  end.

(** Every three consecutive points of the stack turn left. *)

Fixpoint convex (stack : list zpoint) : Prop :=
  match stack with
  | c :: below =>
      match below with
      | b :: a :: _ => 0 < cross_exact a b c /\ convex below
      | _ => True
      end
  | [] => True
  end.

Definition ascending (stack : list zpoint) : Prop := edges lex_lt stack.

Definition above (stack : list zpoint) (q : zpoint) : Prop :=
  edges (fun a b => 0 <= cross_exact a b q) stack.

Definition lex_le (a b : zpoint) : Prop := a = b \/ lex_lt a b.

(** The state of the scan after the points [seen]. *)

Record scanned (stack seen : list zpoint) : Prop := {
  scanned_convex : convex stack;
  scanned_ascending : ascending stack;
  scanned_above : forall q, In q seen -> above stack q;
  scanned_top : forall q top rest,
    In q seen -> stack = top :: rest -> lex_le q top;
  scanned_bottom : forall q d, In q seen -> lex_le (last stack d) q;
  scanned_nonempty : seen <> [] -> stack <> [];
  scanned_incl : incl stack seen
}.

(** The point reflection, which turns the scan of the upper chain into a
    scan of ascending points. *)
Definition negp (p : zpoint) : zpoint := (- fst p, - snd p).

(** The hull computed with exact tests. *)
Definition hull_exact : list zpoint -> list zpoint :=
  hull_by zeqb lex_ltb clockwise_exact.

(** The turn test of lines 309 and 314. *)
Definition clockwise (o a b : point) : bool := (cross o a b <=? 0)%float.

(** The same point, coordinate by coordinate (which [==] does not decide:
    it equates the two zeros). *)
Definition point_same (p q : point) : bool :=
  Leibniz.eqb (fst p) (fst q) && Leibniz.eqb (snd p) (snd q).

(** The tests of [convex_hull] on the points of a list come out as in exact
    arithmetic on the integer points [exact p]: the comparisons of the
    deduplication and of the sort, and the sign test of every cross product;
    and [exact] tells the points of the list apart. *)
Definition exact_on (exact : point -> zpoint) (points : list point) : bool :=
  forallb (fun p =>
    forallb (fun q =>
      Bool.eqb (point_eqb p q) (zeqb (exact p) (exact q)) &&
      Bool.eqb (point_ltb p q) (lex_ltb (exact p) (exact q)) &&
      implb (zeqb (exact p) (exact q)) (point_same p q) &&
      forallb (fun o =>
        Bool.eqb (clockwise o p q)
                 (clockwise_exact (exact o) (exact p) (exact q))) points)
      points) points.

(** A point with integer coordinates, as an exact point. *)
Definition integer_point (p : point) : zpoint :=
  (match Py.ceil (fst p) with OK z => z | Raise _ => 0 end,
   match Py.ceil (snd p) with OK z => z | Raise _ => 0 end).

(** Stations on a 2 by 2 grid of whole degrees: the corners of the square,
    the middles of three sides and the centre. *)
Definition grid_stations : list station :=
  map (fun p : point => mk_station "S" "Line" (snd p) (fst p))
    [(1, 1); (0, 0); (2, 0); (1, 0); (2, 2); (0, 2); (1, 2); (2, 1)]%float.

(** A station both of whose coordinates are NaN (as [float("nan")] reads
    them from the file). *)
Definition nan_station (s : station) : bool :=
  is_nan (lat s) && is_nan (lng s).

Definition station_C : station := mk_station "A3" "Line" nan nan.

(** A coordinate that [==] tells apart from every other float: neither NaN
    (which differs from itself) nor the negative zero (which equals the
    positive one). *)
Definition plain_coordinate (x : float) : bool :=
  negb (is_nan x) && negb (Leibniz.eqb x (-0)%float).

Definition plain_point (p : point) : bool :=
  plain_coordinate (fst p) && plain_coordinate (snd p).

(** The exceptions of the numeric operations: a domain error or an
    overflow. *)
Definition numeric_error (e : exn) : Prop :=
  e = ValueError \/ e = OverflowError.

(** The float [x] times [2 ^ k], an integer as soon as [k] makes up for
    the exponent of [x]: a finite float is a dyadic number. *)
Definition scaled (k : Z) (x : float) : Z :=
  match Prim2SF x with
  | S754_finite s m e =>
      let v := Z.pos m * 2 ^ (e + k) in if s then - v else v
  | _ => 0
  end.

Definition scaled_point (k : Z) (p : point) : zpoint :=
  (scaled k (fst p), scaled k (snd p)).

(** Three of the points of [collinear_points]: a triangle whose area, about
    2.8e-15, is below the rounding errors of its cross products. *)
Definition thin_triangle : list point :=
  [(2.4, 4.2); (5.0, 6.8); (12.2, 14.0)]%float.

(** Three stations at these positions, as (lng, lat). *)
Definition thin_stations : list station :=
  map (fun p : point => mk_station "T" "Line" (snd p) (fst p)) thin_triangle.

(** * Properties *)

(** ** The error monad and the loops *)

Lemma bind_OK {A B : Type} (c : result A) (k : A -> result B) (b : B) :
  bind c k = OK b -> exists a, c = OK a /\ k a = OK b.
Proof.
  destruct c as [a | e]; simpl; intros E.
  - exists a; split; [reflexivity | exact E].
  - discriminate E.
Qed.

Ltac inv_bind H :=
  let a := fresh "v" in
  let E := fresh "E" in
  apply bind_OK in H; destruct H as (a & E & H).

Lemma for_each_app {A S : Type} (xs ys : list A) (body : A -> S -> result S)
    (s : S) :
  for_each (xs ++ ys) body s = bind (for_each xs body s) (for_each ys body).
Proof.
  revert s; induction xs as [| x xs IH]; intros s; simpl.
  - reflexivity.
  - destruct (body x s) as [s' | e]; simpl; [apply IH | reflexivity].
Qed.

Lemma range_nonpos (n : Z) : n <= 0 -> range n = [].
Proof.
  intros H; unfold range.
  replace (Z.to_nat n) with O by lia; reflexivity.
Qed.

Lemma range_prefix (n n' : Z) :
  n <= n' -> exists ys, range n' = range n ++ ys.
Proof.
  intros H; unfold range.
  exists (map Z.of_nat (seq (Z.to_nat n) (Z.to_nat n' - Z.to_nat n))).
  rewrite <- map_app, <- seq_app.
  replace (Z.to_nat n + (Z.to_nat n' - Z.to_nat n))%nat with (Z.to_nat n')
    by lia.
  reflexivity.
Qed.

Lemma in_range (n i : Z) : In i (range n) <-> 0 <= i < n.
Proof.
  unfold range; rewrite in_map_iff; split.
  - intros (k & <- & Hk); apply in_seq in Hk; lia.
  - intros Hi; exists (Z.to_nat i); split; [lia | apply in_seq; lia].
Qed.

(** A counting loop never loses what an earlier, smaller loop counted. *)
Lemma for_each_mono {A : Type} (F F' : A -> Z -> result Z) (xs ys : list A) :
  (forall x n n' m m',
      In x xs -> n <= n' -> F x n = OK m -> F' x n' = OK m' -> m <= m') ->
  (forall x n' m', F' x n' = OK m' -> n' <= m') ->
  forall n n' m m',
    n <= n' ->
    for_each xs F n = OK m ->
    for_each (xs ++ ys) F' n' = OK m' ->
    m <= m'.
Proof.
  intros Hstep Hgrow.
  assert (Hys : forall zs n' m', for_each zs F' n' = OK m' -> n' <= m').
  { induction zs as [| z zs IH]; simpl; intros n' m' E.
    - injection E as <-; lia.
    - inv_bind E. apply Hgrow in E0. apply IH in E. lia. }
  induction xs as [| x xs IH]; simpl; intros n n' m m' Hn E E'.
  - injection E as <-. apply Hys in E'. lia.
  - inv_bind E. inv_bind E'.
    apply (IH (fun y a b c d Hy => Hstep y a b c d (or_intror Hy)) v v0);
      [| assumption | assumption].
    apply (Hstep x n n' v v0); [left; reflexivity | assumption ..].
Qed.

(** ** Coverage *)

Lemma cell_covered_cons (x y : float) (s : float * float)
    (rest : list (float * float)) :
  cell_covered x y (s :: rest) =
  hit <- in_buffer x y s ;; if hit then OK true else cell_covered x y rest.
Proof.
  destruct s as (sy, sx); unfold in_buffer; cbn [cell_covered fst snd].
  destruct (pow2 (x - sx)) as [dx2 |]; [| reflexivity].
  destruct (pow2 (y - sy)) as [dy2 |]; [| reflexivity].
  destruct (pow2 BUFFER_KM) as [r2 |]; reflexivity.
Qed.

Lemma cell_covered_insert (x y : float) (s : float * float)
    (skm1 skm2 : list (float * float)) (b : bool) :
  cell_covered x y (skm1 ++ skm2) = OK true ->
  cell_covered x y (skm1 ++ s :: skm2) = OK b ->
  b = true.
Proof.
  induction skm1 as [| s1 skm1 IH]; cbn [app].
  - intros E E'. rewrite cell_covered_cons in E'.
    inv_bind E'. destruct v.
    + injection E' as <-; reflexivity.
    + rewrite E in E'; injection E' as <-; reflexivity.
  - intros E E'. rewrite cell_covered_cons in E, E'.
    inv_bind E. rewrite E0 in E'; cbn [bind] in E'.
    destruct v.
    + injection E' as <-; reflexivity.
    + apply IH; assumption.
Qed.

Lemma count_cell_grows skm y c n m : count_cell skm y c n = OK m -> n <= m.
Proof.
  unfold count_cell; intros E; inv_bind E.
  injection E as <-; destruct v; lia.
Qed.

Lemma count_row_grows skm y cols n m :
  for_each cols (count_cell skm y) n = OK m -> n <= m.
Proof.
  revert n; induction cols as [| c cols IH]; simpl; intros n E.
  - injection E as <-; lia.
  - inv_bind E. apply count_cell_grows in E0. apply IH in E. lia.
Qed.

Lemma covered_cells_mono (rows cols rows' cols' : Z)
    (s : float * float) (skm1 skm2 : list (float * float)) (m m' : Z) :
  rows <= rows' -> cols <= cols' ->
  covered_cells rows cols (skm1 ++ skm2) = OK m ->
  covered_cells rows' cols' (skm1 ++ s :: skm2) = OK m' ->
  m <= m'.
Proof.
  intros Hr Hc E E'.
  destruct (range_prefix rows rows' Hr) as (rs & Hrs).
  destruct (range_prefix cols cols' Hc) as (cs & Hcs).
  unfold covered_cells in E, E'. rewrite Hrs in E'.
  refine (for_each_mono _ _ _ _ _ _ 0 0 m m' (Z.le_refl 0) E E').
  - intros r n n' k k' _ Hn F F'.
    rewrite Hcs in F'.
    refine (for_each_mono _ _ _ _ _ _ n n' k k' Hn F F').
    + intros c a a' d d' _ Ha G G'.
      inv_bind G. inv_bind G'.
      injection G as <-. injection G' as <-.
      destruct v.
      * rewrite (cell_covered_insert _ _ _ _ _ _ E0 E1). lia.
      * destruct v0; lia.
    + intros c a d G. exact (count_cell_grows _ _ _ _ _ G).
  - intros r n k F. exact (count_row_grows _ _ _ _ _ F).
Qed.

Lemma stations_km_origin (b b' : bbox) (stations : list station) :
  min_lat b' = min_lat b -> min_lng b' = min_lng b ->
  stations_km b' stations = stations_km b stations.
Proof.
  intros Hla Hlo; unfold stations_km; rewrite Hla, Hlo; reflexivity.
Qed.

Lemma coverage_OK (stations : list station) (r : CoverageResult) :
  coverage stations = OK r ->
  bounding_box stations = OK (cr_bbox r) /\
  n_rows (cr_bbox r) = OK (cr_n_rows r) /\
  n_cols (cr_bbox r) = OK (cr_n_cols r) /\
  covered_cells (cr_n_rows r) (cr_n_cols r)
    (stations_km (cr_bbox r) stations) = OK (cr_covered_cells r).
Proof.
  unfold coverage; intros E.
  inv_bind E. inv_bind E. inv_bind E. inv_bind E. inv_bind E. inv_bind E.
  injection E as <-; simpl; auto.
Qed.

(** C1 (as amended).  For an empty station list the bounding-box step raises
    [ValueError] ([min] of an empty sequence) and the coverage estimation
    stops there: no grid is built and no result is returned.  The bounding
    box of a non-empty station list is defined, and a grid with no rows or no
    columns has zero covered cells. *)
Theorem coverage_empty_station_list_raises :
  bounding_box [] = Raise ValueError /\
  coverage [] = Raise ValueError /\
  (forall s rest, exists b, bounding_box (s :: rest) = OK b) /\
  (forall cols skm, covered_cells 0 cols skm = OK 0) /\
  (forall rows skm, covered_cells rows 0 skm = OK 0).
Proof.
  repeat split; try reflexivity.
  - intros s rest; eexists; reflexivity.
  - intros rows skm; unfold covered_cells.
    generalize (range rows); intros rs; induction rs as [| r rs IH]; simpl;
      [reflexivity | exact IH].
Qed.

(** C1, refuted as stated: on the empty station list the coverage estimation
    returns no result at all. *)
Lemma coverage_empty_no_result : ~ exists r, coverage [] = OK r.
Proof.
  intros (r & E); discriminate E.
Qed.

(** C2 (as amended).  Adding a station never decreases the covered-cell
    count when it leaves the grid in place: the origin of the bounding box
    (minimum latitude and longitude) is unchanged and the grid has at least
    as many rows and columns. *)
Theorem coverage_monotone_on_fixed_origin
    (before after : list station) (s : station) (r r' : CoverageResult) :
  coverage (before ++ after) = OK r ->
  coverage (before ++ s :: after) = OK r' ->
  min_lat (cr_bbox r') = min_lat (cr_bbox r) ->
  min_lng (cr_bbox r') = min_lng (cr_bbox r) ->
  cr_n_rows r <= cr_n_rows r' ->
  cr_n_cols r <= cr_n_cols r' ->
  cr_covered_cells r <= cr_covered_cells r'.
Proof.
  intros E E' Hla Hlo Hr Hc.
  apply coverage_OK in E; destruct E as (_ & _ & _ & E).
  apply coverage_OK in E'; destruct E' as (_ & _ & _ & E').
  rewrite (stations_km_origin _ _ _ Hla Hlo) in E'.
  unfold stations_km in E, E'.
  rewrite map_app in E, E'; simpl in E'.
  exact (covered_cells_mono _ _ _ _ _ _ _ _ _ Hr Hc E E').
Qed.

Lemma coverage_monotone_on_fixed_origin_witness :
  exists r r',
    coverage [station_A] = OK r /\
    coverage [station_A; station_NE] = OK r' /\
    cr_covered_cells r <= cr_covered_cells r'.
Proof.
  destruct (coverage [station_A]) as [r |] eqn:E;
    [| exfalso; vm_compute in E; discriminate E].
  destruct (coverage [station_A; station_NE]) as [r' |] eqn:E';
    [| exfalso; vm_compute in E'; discriminate E'].
  exists r, r'; split; [reflexivity | split; [reflexivity |]].
  apply (coverage_monotone_on_fixed_origin [station_A] [] station_NE r r');
    [exact E | exact E' | | | |];
    vm_compute in E, E'; injection E as <-; injection E' as <-;
    vm_compute; first [reflexivity | discriminate].
Defined.

(** C2, refuted as stated: one station covers 316 cells; with a second
    station 12 m to the south and 12 m to the east the grid is anchored
    elsewhere and 314 cells are covered. *)
Lemma coverage_not_monotone :
  coverage_summary [station_A] = OK (21, 21, 316) /\
  coverage_summary [station_A; station_SE] = OK (21, 21, 314).
Proof.
  split; vm_compute; reflexivity.
Qed.

(** ** Branch keys *)

Lemma upper_run_is_leading (id : string) : leading_upper_run id (upper_run id).
Proof.
  induction id as [| c id IH]; simpl.
  - exists EmptyString; repeat split; constructor.
  - destruct (is_upper c) eqn:Hc.
    + destruct IH as (rest & Hid & Hall & Hnext).
      exists rest; simpl; repeat split.
      * f_equal; exact Hid.
      * constructor; assumption.
      * exact Hnext.
    + exists (String c id); simpl; repeat split; [constructor | exact Hc].
Qed.

Lemma leading_upper_run_unique (id p : string) :
  leading_upper_run id p -> p = upper_run id.
Proof.
  revert id; induction p as [| c p IH]; intros id (rest & Hid & Hall & Hnext).
  - simpl in Hid; subst id.
    destruct rest as [| d rest]; simpl; [reflexivity |].
    rewrite Hnext; reflexivity.
  - simpl in Hid; subst id; simpl in Hall.
    inversion Hall as [| ? ? Hc Hall']; subst.
    simpl; rewrite Hc; f_equal.
    apply IH; exists rest; repeat split; assumption.
Qed.

Lemma upper_run_nonempty_key (s : station) :
  upper_run (stationId s) <> EmptyString ->
  branch_key s = upper_run (stationId s).
Proof.
  unfold branch_key, re_match_upper.
  destruct (upper_run (stationId s)); [intros H; contradiction H |]; reflexivity.
Qed.

(** C4 (as amended).  The branch key is the leading maximal run of letters in
    [A-Z] of the station identifier, or the whole identifier when that run is
    empty; it is a total function of the identifier, and it is empty exactly
    when the identifier itself is empty. *)
Theorem branch_key_leading_run (s : station) :
  exists p,
    leading_upper_run (stationId s) p /\
    (forall q, leading_upper_run (stationId s) q -> q = p) /\
    branch_key s = (if String.eqb p "" then stationId s else p) /\
    (branch_key s = EmptyString <-> stationId s = EmptyString).
Proof.
  exists (upper_run (stationId s)); split; [apply upper_run_is_leading |].
  split; [intros q; apply leading_upper_run_unique |].
  unfold branch_key, re_match_upper.
  destruct (upper_run (stationId s)) as [| c p] eqn:E; simpl.
  - split; [reflexivity | tauto].
  - split; [reflexivity |].
    split; [discriminate |].
    intros Hid; rewrite Hid in E; discriminate E.
Qed.

(** C4, refuted as stated: the branch key of a station whose identifier is
    the empty string is the empty string. *)
Lemma branch_key_empty_identifier :
  branch_key (mk_station "" "Blue" 13.7 100.5) = EmptyString.
Proof.
  reflexivity.
Qed.

(** ** Convex hull *)








Lemma map_pair_id (l : list point) :
  map (fun p : point => (fst p, snd p)) l = l.
Proof.
  induction l as [| (x, y) l IH]; simpl; [| rewrite IH]; reflexivity.
Qed.

(** C5 (as amended).  [convex_hull] itself returns a point set with at most
    one distinct point unchanged, without closing a ring and without failing.
    The ring is closed afterwards, at lines 324-326, for every hull alike: the
    first vertex is appended whenever the hull is not empty, so a single
    station gives the two-vertex ring [[p, p]], and an empty hull raises
    [IndexError]. *)
Theorem hull_degenerate_and_ring_closure :
  convex_hull [] = [] /\
  (forall p, convex_hull [p] = [p]) /\
  (forall points,
      (List.length (set_of points) <= 1)%nat ->
      convex_hull points = set_of points) /\
  hull_coords [] = Raise IndexError /\
  (forall s, hull_coords [s] = OK [station_point s; station_point s]) /\
  (forall stations,
      match convex_hull (map station_point stations) with
      | [] => hull_coords stations = Raise IndexError
      | first :: rest =>
          hull_coords stations = OK ((first :: rest) ++ [first])
      end).
Proof.
  split; [reflexivity |].
  split; [intros p; reflexivity |].
  split.
  { intros points H; unfold convex_hull.
    destruct (set_of points) as [| p [| q rest]]; simpl in *;
      [reflexivity | reflexivity | lia]. }
  split; [reflexivity |].
  split; [intros s; reflexivity |].
  intros stations; unfold hull_coords.
  change (fun s => (lng s, lat s)) with station_point.
  rewrite map_pair_id.
  unfold point.
  set (hull := convex_hull _); clearbody hull.
  destruct hull; reflexivity.
Qed.

(** C5, refuted as stated: for a single station the ring is closed all the
    same (the vertex is repeated), and for no station the closure fails. *)
Lemma hull_ring_closed_on_one_point :
  hull_coords [station_A] = OK [(100.5, 13.7); (100.5, 13.7)]%float /\
  hull_coords [] = Raise IndexError.
Proof.
  split; reflexivity.
Qed.


(** C6, the code against its own docstring.  [convex_hull] is documented as
    Andrew's monotone chain, returning the hull in counter-clockwise order.
    For the three points (2.4, 4.2), (5.0, 6.8), (12.2, 14.0) it returns four
    vertices, (5.0, 6.8) twice, and the footprint ring of three stations at
    these positions passes through that vertex twice.  The cross product of
    line 320 for the turn (12.2, 14.0), (5.0, 6.8), (2.4, 4.2) is computed
    as 2^-46, about +1.42e-14, where its exact value is
    -27922317689697074 / 2^102, about -5.5e-15, so that the upper chain keeps
    the vertex the lower chain already holds.  With exact tests the hull of
    the three points is the triangle, each vertex once.  The three points
    are the hull of [collinear_points], whose hull is therefore not the hull
    of its own vertices. *)
Theorem convex_hull_repeats_a_vertex :
  convex_hull thin_triangle =
    [(2.4, 4.2); (5.0, 6.8); (12.2, 14.0); (5.0, 6.8)]%float /\
  ~ NoDup (convex_hull thin_triangle) /\
  cross (12.2, 14.0)%float (5.0, 6.8)%float (2.4, 4.2)%float =
    1.4210854715202004e-14%float /\
  clockwise (12.2, 14.0)%float (5.0, 6.8)%float (2.4, 4.2)%float = false /\
  cross_exact (scaled_point 51 (12.2, 14.0)%float)
    (scaled_point 51 (5.0, 6.8)%float) (scaled_point 51 (2.4, 4.2)%float) =
    -27922317689697074 /\
  clockwise_exact (scaled_point 51 (12.2, 14.0)%float)
    (scaled_point 51 (5.0, 6.8)%float) (scaled_point 51 (2.4, 4.2)%float) =
    true /\
  hull_exact (map (scaled_point 51) thin_triangle) =
    map (scaled_point 51) thin_triangle /\
  hull_coords thin_stations =
    OK [(2.4, 4.2); (5.0, 6.8); (12.2, 14.0); (5.0, 6.8); (2.4, 4.2)]%float /\
  convex_hull collinear_points = thin_triangle /\
  convex_hull (convex_hull collinear_points) <> convex_hull collinear_points.
Proof.
  assert (E : convex_hull thin_triangle =
              [(2.4, 4.2); (5.0, 6.8); (12.2, 14.0); (5.0, 6.8)]%float)
    by (vm_compute; reflexivity).
  assert (E' : convex_hull collinear_points = thin_triangle)
    by (vm_compute; reflexivity).
  split; [exact E |].
  split.
  { rewrite E. intros H.
    inversion H as [| ? ? _ H1]. inversion H1 as [| ? ? Hc _].
    apply Hc. right; left; reflexivity. }
  do 6 (split; [vm_compute; reflexivity |]).
  split; [exact E' |].
  rewrite E', E. unfold thin_triangle. discriminate.
Qed.

(** ** Loops that build a list *)

Lemma for_each_ext {A S : Type} (body body' : A -> S -> result S)
    (xs : list A) (s : S) :
  (forall x t, body x t = body' x t) ->
  for_each xs body s = for_each xs body' s.
Proof.
  intros H; revert s; induction xs as [| x xs IH]; intros s; simpl.
  - reflexivity.
  - rewrite H; destruct (body' x s); simpl; [apply IH | reflexivity].
Qed.

Lemma for_each_collect {A B : Type} (f : A -> result B) (xs : list A)
    (acc : list B) :
  for_each xs (fun x acc => v <- f x ;; OK (acc ++ [v])) acc =
  (vs <- map_m f xs ;; OK (acc ++ vs)).
Proof.
  revert acc; induction xs as [| x xs IH]; intros acc; simpl.
  - rewrite app_nil_r; reflexivity.
  - destruct (f x) as [v |]; simpl; [| reflexivity].
    rewrite IH; destruct (map_m f xs) as [vs |]; simpl; [| reflexivity].
    rewrite <- app_assoc; reflexivity.
Qed.

Lemma map_m_length {A B : Type} (f : A -> result B) (xs : list A)
    (ys : list B) :
  map_m f xs = OK ys -> List.length ys = List.length xs.
Proof.
  revert ys; induction xs as [| x xs IH]; simpl; intros ys E.
  - injection E as <-; reflexivity.
  - inv_bind E. inv_bind E. injection E as <-.
    simpl; f_equal; apply IH; assumption.
Qed.

Lemma map_m_nth {A B : Type} (f : A -> result B) (xs : list A)
    (ys : list B) :
  map_m f xs = OK ys ->
  forall i x, nth_error xs i = Some x ->
    exists y, f x = OK y /\ nth_error ys i = Some y.
Proof.
  revert ys; induction xs as [| x0 xs IH]; simpl; intros ys E i x Hi.
  - destruct i; discriminate Hi.
  - inv_bind E. inv_bind E. injection E as <-.
    destruct i as [| i]; simpl in Hi.
    + injection Hi as <-; exists v; split; [assumption | reflexivity].
    + exact (IH v0 E1 i x Hi).
Qed.

Lemma map_m_In {A B : Type} (f : A -> result B) (xs : list A)
    (ys : list B) :
  map_m f xs = OK ys ->
  forall y, In y ys <-> exists x, In x xs /\ f x = OK y.
Proof.
  revert ys; induction xs as [| x0 xs IH]; simpl; intros ys E y.
  - injection E as <-; simpl; split; [tauto | intros (x & [] & _)].
  - inv_bind E. inv_bind E. injection E as <-; simpl.
    rewrite (IH v0 E1 y); split.
    + intros [<- | (x & Hx & Hy)].
      * exists x0; split; [left; reflexivity | assumption].
      * exists x; split; [right; assumption | assumption].
    + intros (x & [<- | Hx] & Hy).
      * left; rewrite E0 in Hy; injection Hy as <-; reflexivity.
      * right; exists x; split; assumption.
Qed.

Lemma map_m_total {A B : Type} (f : A -> result B) (xs : list A) :
  (forall x, In x xs -> exists y, f x = OK y) ->
  exists ys, map_m f xs = OK ys.
Proof.
  induction xs as [| x xs IH]; simpl; intros H.
  - eexists; reflexivity.
  - destruct (H x (or_introl eq_refl)) as (y & ->).
    destruct IH as (ys & ->); [intros z Hz; apply H; right; exact Hz |].
    eexists; reflexivity.
Qed.

Lemma map_m_Raise {A B : Type} (f : A -> result B) (xs : list A) (e : exn) :
  map_m f xs = Raise e -> exists x, In x xs /\ f x = Raise e.
Proof.
  induction xs as [| x xs IH]; simpl; intros E; [discriminate E |].
  destruct (f x) as [y |] eqn:Ex; simpl in E.
  - destruct (map_m f xs) as [ys |]; simpl in E; [discriminate E |].
    destruct (IH E) as (z & Hz & Ez).
    exists z; split; [right; exact Hz | exact Ez].
  - injection E as <-; exists x; split; [left; reflexivity | exact Ex].
Qed.

Lemma nth_error_range (n i : Z) :
  0 <= i < n -> nth_error (range n) (Z.to_nat i) = Some i.
Proof.
  intros Hi; unfold range.
  rewrite nth_error_map, nth_error_seq.
  destruct (Nat.ltb_spec (Z.to_nat i) (Z.to_nat n)); [| lia].
  simpl; f_equal; lia.
Qed.

Lemma length_range (n : Z) : List.length (range n) = Z.to_nat n.
Proof.
  unfold range; rewrite length_map, length_seq; reflexivity.
Qed.

(** ** Circle polygons *)

Section Circle.

Context `{Libm}.
Variables lat lng radius_km : float.

Lemma circle_polygon_map_m (n_points : Z) :
  circle_polygon lat lng radius_km n_points =
  map_m (circle_vertex lat lng radius_km n_points) (range (n_points + 1)).
Proof.
  unfold circle_polygon.
  rewrite (for_each_ext _
    (fun i coords =>
       v <- circle_vertex lat lng radius_km n_points i ;; OK (coords ++ [v]))).
  - rewrite for_each_collect.
    destruct (map_m _ _); reflexivity.
  - intros i coords; unfold circle_vertex.
    destruct (vertex_angle i n_points) as [angle |]; simpl; [| reflexivity].
    destruct (math_cos angle); simpl; [| reflexivity].
    destruct (math_sin angle); reflexivity.
Qed.

Lemma circle_vertex_finite (n_points i : Z) (angle : float) :
  vertex_angle i n_points = OK angle ->
  is_infinity angle = false ->
  circle_vertex lat lng radius_km n_points i =
  OK (vertex_at lat lng radius_km angle).
Proof.
  intros E F; unfold circle_vertex, math_cos, math_sin.
  rewrite E; simpl; rewrite F; reflexivity.
Qed.

Lemma angles_ok_at (n_points i : Z) :
  angles_ok n_points = true -> 0 <= i <= n_points ->
  exists angle,
    vertex_angle i n_points = OK angle /\ is_infinity angle = false.
Proof.
  unfold angles_ok; rewrite forallb_forall; intros Hall Hi.
  specialize (Hall i); rewrite in_range in Hall.
  specialize (Hall ltac:(lia)).
  destruct (vertex_angle i n_points) as [angle |]; [| discriminate Hall].
  exists angle; split; [reflexivity |].
  destruct (is_infinity angle); [discriminate Hall | reflexivity].
Qed.

Lemma circle_polygon_vertices (n_points : Z) :
  1 <= n_points -> angles_ok n_points = true ->
  exists ring,
    circle_polygon lat lng radius_km n_points = OK ring /\
    List.length ring = Z.to_nat (n_points + 1) /\
    (forall i, 0 <= i <= n_points ->
       exists angle,
         vertex_angle i n_points = OK angle /\
         nth_error ring (Z.to_nat i) =
           Some (vertex_at lat lng radius_km angle)).
Proof.
  intros Hn Hok; rewrite circle_polygon_map_m.
  destruct (map_m_total (circle_vertex lat lng radius_km n_points)
              (range (n_points + 1))) as (ring & E).
  { intros i Hi; apply in_range in Hi.
    destruct (angles_ok_at n_points i Hok ltac:(lia)) as (angle & Ea & Fa).
    eexists; apply (circle_vertex_finite _ _ _ Ea Fa). }
  exists ring; split; [exact E |]; split.
  - rewrite (map_m_length _ _ _ E), length_range; reflexivity.
  - intros i Hi.
    destruct (angles_ok_at n_points i Hok Hi) as (angle & Ea & Fa).
    exists angle; split; [exact Ea |].
    destruct (map_m_nth _ _ _ E (Z.to_nat i) i) as (v & Ev & Hv).
    { apply nth_error_range; lia. }
    rewrite (circle_vertex_finite _ _ _ Ea Fa) in Ev.
    injection Ev as <-; exact Hv.
Qed.

End Circle.

(** C7 (as amended).  For [n_points >= 1] whose angles [2 * pi * i / n_points]
    are all finite, which includes the 64 and the 48 the script uses,
    [circle_polygon] returns a ring of exactly [n_points + 1] vertices in
    (longitude, latitude) order; vertex [i] is the centre displaced by the
    radius in degrees ([radius_km / KM_PER_DEG_LNG] times the cosine,
    [radius_km / KM_PER_DEG_LAT] times the sine) at angle
    [2 * pi * i / n_points], rounded to 8 decimals.  The last vertex is not a
    copy of the first: it is computed at the last angle, and equals the first
    whenever the two computations round to the same coordinates.  For
    [n_points = 0] the function raises [ZeroDivisionError], and for a
    negative [n_points] it returns the empty list. *)
Theorem circle_polygon_ring :
  (forall (L : Libm) (lat lng radius_km : float) (n_points : Z),
      1 <= n_points -> angles_ok n_points = true ->
      exists ring,
        circle_polygon lat lng radius_km n_points = OK ring /\
        List.length ring = Z.to_nat (n_points + 1) /\
        (forall i, 0 <= i <= n_points ->
           exists angle,
             vertex_angle i n_points = OK angle /\
             nth_error ring (Z.to_nat i) =
               Some (vertex_at lat lng radius_km angle)) /\
        (forall first_angle last_angle,
           vertex_angle 0 n_points = OK first_angle ->
           vertex_angle n_points n_points = OK last_angle ->
           vertex_at lat lng radius_km last_angle =
             vertex_at lat lng radius_km first_angle ->
           nth_error ring (Z.to_nat n_points) = nth_error ring 0)) /\
  angles_ok 64 = true /\
  angles_ok 48 = true /\
  (forall (L : Libm) (lat lng radius_km : float),
      circle_polygon lat lng radius_km 0 = Raise ZeroDivisionError) /\
  (forall (L : Libm) (lat lng radius_km : float) (n_points : Z),
      n_points < 0 -> circle_polygon lat lng radius_km n_points = OK []).
Proof.
  split; [| split; [| split; [| split]]].
  - intros L lat lng radius_km n_points Hn Hok.
    destruct (circle_polygon_vertices lat lng radius_km n_points Hn Hok)
      as (ring & E & Hlen & Hnth).
    exists ring; repeat split; try assumption.
    intros a0 an E0 En Hsame.
    destruct (Hnth 0 ltac:(lia)) as (a0' & E0' & H0).
    destruct (Hnth n_points ltac:(lia)) as (an' & En' & ->).
    change (Z.to_nat 0) with 0%nat in H0; rewrite H0.
    rewrite E0 in E0'; injection E0' as <-.
    rewrite En in En'; injection En' as <-.
    rewrite Hsame; reflexivity.
  - vm_compute; reflexivity.
  - vm_compute; reflexivity.
  - intros L lat lng radius_km; reflexivity.
  - intros L lat lng radius_km n_points Hn.
    unfold circle_polygon; rewrite range_nonpos by lia; reflexivity.
Qed.

Lemma circle_polygon_ring_witness :
  exists ring,
    @circle_polygon RefLibm.libm 13.7 100.5 1 8 = OK ring /\
    List.length ring = 9%nat.
Proof.
  destruct (proj1 circle_polygon_ring RefLibm.libm 13.7%float 100.5%float
              1%float 8 ltac:(lia) ltac:(vm_compute; reflexivity))
    as (ring & E & Hlen & _).
  exists ring; split; [exact E | exact Hlen].
Defined.

(** C7, refuted as stated: with [n_points = 0] the function raises; and with
    the reference math library the four-point ring around latitude 5e-9 is
    not closed, the sine of the last angle being -2.4e-16 and not 0. *)
Lemma circle_polygon_not_always_closed :
  @circle_polygon RefLibm.libm 13.7 100.5 1 0 = Raise ZeroDivisionError /\
  first_and_last (@circle_polygon RefLibm.libm 5e-9 100.5 1 4) =
    Some ((100.50929791, 1e-08), (100.50929791, 0))%float.
Proof.
  split; vm_compute; reflexivity.
Qed.

(** ** Loops that emit into two lists *)

Lemma emit_nil {A B : Type} (st : list A * list B) : emit st [] = st.
Proof.
  destruct st; unfold emit; simpl; rewrite !app_nil_r; reflexivity.
Qed.

Lemma emit_app {A B : Type} (st : list A * list B) (l l' : list (A * B)) :
  emit (emit st l) l' = emit st (l ++ l').
Proof.
  unfold emit; simpl; rewrite !map_app, !app_assoc; reflexivity.
Qed.

Lemma for_each_emit {X A B : Type} (g : X -> result (list (A * B)))
    (body : X -> list A * list B -> result (list A * list B)) (xs : list X) :
  (forall x st, body x st = (l <- g x ;; OK (emit st l))) ->
  forall st,
    for_each xs body st = (ls <- map_m g xs ;; OK (emit st (List.concat ls))).
Proof.
  intros Hbody; induction xs as [| x xs IH]; intros st; simpl.
  - rewrite emit_nil; reflexivity.
  - rewrite Hbody; destruct (g x) as [l |]; simpl; [| reflexivity].
    rewrite IH; destruct (map_m g xs) as [ls |]; simpl; [| reflexivity].
    rewrite emit_app; reflexivity.
Qed.

Lemma combine_emit {A B : Type} (l : list (A * B)) :
  combine (map fst l) (map snd l) = l.
Proof.
  induction l as [| (a, b) l IH]; simpl; [| rewrite IH]; reflexivity.
Qed.

(** ** Gaps between consecutive stations *)

Section Gaps.

Context `{Libm}.

Lemma gap_step_emit (line_name branch : string) (line_stations : list station)
    (i : Z) (st : list GapRecord * list feature) :
  gap_step line_name branch line_stations i st =
  (l <- pair_gap line_name branch line_stations i ;; OK (emit st l)).
Proof.
  unfold gap_step, pair_gap.
  destruct (Py.index line_stations i) as [a |]; simpl; [| reflexivity].
  destruct (Py.index line_stations (i + 1)) as [b |]; simpl; [| reflexivity].
  destruct (haversine_km _ _ _ _) as [dist |]; simpl; [| reflexivity].
  destruct (GAP_THRESHOLD_KM <=? dist)%float.
  - reflexivity.
  - rewrite emit_nil; reflexivity.
Qed.

Lemma gap_scan_emit (groups : list (group_key * list station)) :
  gap_scan groups =
  (ls <- map_m group_gaps groups ;; OK (emit ([], []) (List.concat ls))).
Proof.
  unfold gap_scan; apply for_each_emit.
  intros ((line_name, branch), line_stations) st.
  unfold group_gaps; cbn [fst snd].
  rewrite (for_each_emit _ _ _ (gap_step_emit line_name branch line_stations)).
  destruct (map_m _ _); reflexivity.
Qed.

Lemma index_consecutive (line_stations : list station) (i : nat)
    (a b : station) :
  consecutive line_stations i a b ->
  Py.index line_stations (Z.of_nat i) = OK a /\
  Py.index line_stations (Z.of_nat i + 1) = OK b /\
  In (Z.of_nat i) (range (Z.of_nat (List.length line_stations) - 1)).
Proof.
  intros (Ha & Hb); unfold Py.index.
  replace (Z.to_nat (Z.of_nat i + 1)) with (S i) by lia.
  rewrite Nat2Z.id, Ha, Hb; repeat split.
  apply in_range.
  assert (S i < List.length line_stations)%nat
    by (apply nth_error_Some; rewrite Hb; discriminate).
  lia.
Qed.

Lemma consecutive_index (line_stations : list station) (i : Z) :
  In i (range (Z.of_nat (List.length line_stations) - 1)) ->
  exists a b,
    consecutive line_stations (Z.to_nat i) a b /\
    Py.index line_stations i = OK a /\
    Py.index line_stations (i + 1) = OK b.
Proof.
  intros Hi; apply in_range in Hi; unfold Py.index, consecutive.
  replace (Z.to_nat (i + 1)) with (S (Z.to_nat i)) by lia.
  destruct (nth_error line_stations (Z.to_nat i)) as [a |] eqn:Ha.
  - destruct (nth_error line_stations (S (Z.to_nat i))) as [b |] eqn:Hb.
    + exists a, b; repeat split.
    + apply nth_error_None in Hb; lia.
  - apply nth_error_None in Ha; lia.
Qed.

Lemma pair_gap_In (line_name branch : string) (line_stations : list station)
    (i : Z) (l : list (GapRecord * feature)) (rec : GapRecord) (f : feature) :
  In i (range (Z.of_nat (List.length line_stations) - 1)) ->
  pair_gap line_name branch line_stations i = OK l ->
  (In (rec, f) l <->
   exists a b dist,
     consecutive line_stations (Z.to_nat i) a b /\
     haversine_km (lat a) (lng a) (lat b) (lng b) = OK dist /\
     (GAP_THRESHOLD_KM <=? dist)%float = true /\
     rec = gap_record line_name branch a b dist /\
     f = gap_feature line_name a b dist).
Proof.
  intros Hi E.
  destruct (consecutive_index _ _ Hi) as (a & b & Hab & Ea & Eb).
  unfold pair_gap in E; rewrite Ea, Eb in E; cbn [bind] in E.
  inv_bind E; injection E as <-; split.
  - destruct (GAP_THRESHOLD_KM <=? v)%float eqn:T; [| intros []].
    intros [Hin | []]; injection Hin as <- <-.
    exists a, b, v; repeat split; try assumption; apply Hab.
  - intros (a' & b' & dist & (Ha' & Hb') & Ed & T & -> & ->).
    destruct Hab as (Ha & Hb).
    rewrite Ha in Ha'; injection Ha' as <-.
    rewrite Hb in Hb'; injection Hb' as <-.
    rewrite E0 in Ed; injection Ed as <-.
    rewrite T; left; reflexivity.
Qed.

Lemma group_gaps_In (g : group_key * list station)
    (l : list (GapRecord * feature)) (rec : GapRecord) (f : feature) :
  group_gaps g = OK l ->
  (In (rec, f) l <->
   exists i a b dist,
     consecutive (snd g) i a b /\
     haversine_km (lat a) (lng a) (lat b) (lng b) = OK dist /\
     (GAP_THRESHOLD_KM <=? dist)%float = true /\
     rec = gap_record (fst (fst g)) (snd (fst g)) a b dist /\
     f = gap_feature (fst (fst g)) a b dist).
Proof.
  unfold group_gaps; intros E; inv_bind E; injection E as <-.
  rewrite in_concat; split.
  - intros (l & Hl & Hin).
    apply (map_m_In _ _ _ E0) in Hl; destruct Hl as (i & Hi & Ei).
    apply (pair_gap_In _ _ _ _ _ rec f Hi Ei) in Hin.
    destruct Hin as (a & b & dist & Hin).
    exists (Z.to_nat i), a, b, dist; exact Hin.
  - intros (i & a & b & dist & Hab & Hrest).
    destruct (index_consecutive _ _ _ _ Hab) as (_ & _ & Hi).
    destruct (map_m_nth _ _ _ E0 i (Z.of_nat i)) as (l & El & Hl).
    { rewrite <- (Nat2Z.id i) at 1; apply nth_error_range.
      apply in_range in Hi; exact Hi. }
    exists l; split; [exact (nth_error_In _ _ Hl) |].
    apply (pair_gap_In _ _ _ _ _ rec f Hi El).
    exists a, b, dist; rewrite Nat2Z.id; split; assumption.
Qed.

Lemma group_gaps_Raise (g : group_key * list station) (e : exn) :
  group_gaps g = Raise e ->
  exists i a b,
    consecutive (snd g) i a b /\
    haversine_km (lat a) (lng a) (lat b) (lng b) = Raise e.
Proof.
  unfold group_gaps; intros E.
  destruct (map_m _ _) as [ls |] eqn:Em; [discriminate E |].
  injection E as ->.
  apply map_m_Raise in Em; destruct Em as (i & Hi & Ei).
  destruct (consecutive_index _ _ Hi) as (a & b & Hab & Ea & Eb).
  exists (Z.to_nat i), a, b; split; [exact Hab |].
  unfold pair_gap in Ei; rewrite Ea, Eb in Ei; cbn [bind] in Ei.
  destruct (haversine_km _ _ _ _); cbn [bind] in Ei;
    [discriminate Ei | injection Ei as ->; reflexivity].
Qed.

End Gaps.

(** C3.  The gap scan emits a [GapRecord], together with its line-segment
    feature, for a pair of stations exactly when the two are consecutive in
    one branch group and their haversine distance (Earth radius 6371 km, on
    the geographic coordinates) is at least the 5 km threshold; a branch of
    one station emits nothing.  The scan fails only with the exception of a
    haversine computation on some consecutive pair. *)
Theorem gap_scan_emits_long_gaps (L : Libm)
    (groups : list (group_key * list station)) :
  match gap_scan groups with
  | OK (gaps_info, gap_features) =>
      List.length gaps_info = List.length gap_features /\
      (forall rec f,
          In (rec, f) (combine gaps_info gap_features) <->
          exists line_name branch line_stations i a b dist,
            In ((line_name, branch), line_stations) groups /\
            consecutive line_stations i a b /\
            haversine_km (lat a) (lng a) (lat b) (lng b) = OK dist /\
            (GAP_THRESHOLD_KM <=? dist)%float = true /\
            rec = gap_record line_name branch a b dist /\
            f = gap_feature line_name a b dist)
  | Raise e =>
      exists line_name branch line_stations i a b,
        In ((line_name, branch), line_stations) groups /\
        consecutive line_stations i a b /\
        haversine_km (lat a) (lng a) (lat b) (lng b) = Raise e
  end /\
  GAP_THRESHOLD_KM = 5%float /\
  (forall key s, gap_scan [(key, [s])] = OK ([], [])).
Proof.
  split; [| split; [reflexivity | intros (line_name, branch) s; reflexivity]].
  rewrite gap_scan_emit.
  destruct (map_m group_gaps groups) as [ls |] eqn:E; simpl.
  - rewrite combine_emit; split; [rewrite !length_map; reflexivity |].
    intros rec f; rewrite in_concat; split.
    + intros (l & Hl & Hin).
      apply (map_m_In _ _ _ E) in Hl.
      destruct Hl as (((line_name, branch), line_stations) & Hg & Eg).
      apply (group_gaps_In _ _ rec f Eg) in Hin.
      destruct Hin as (i & a & b & dist & Hin).
      exists line_name, branch, line_stations, i, a, b, dist.
      split; [exact Hg | exact Hin].
    + intros (line_name & branch & line_stations & i & a & b & dist & Hg & Hin).
      destruct (In_nth_error _ _ Hg) as (k & Hk).
      destruct (map_m_nth _ _ _ E k _ Hk) as (l & El & Hl).
      exists l; split; [exact (nth_error_In _ _ Hl) |].
      apply (group_gaps_In _ _ rec f El).
      exists i, a, b, dist; exact Hin.
  - apply map_m_Raise in E.
    destruct E as (((line_name, branch), line_stations) & Hg & Eg).
    apply group_gaps_Raise in Eg; destruct Eg as (i & a & b & Hab & Ed).
    exists line_name, branch, line_stations, i, a, b.
    split; [exact Hg | split; [exact Hab | exact Ed]].
Qed.

(** ** Order on floats *)

Lemma SFcompare_Lt_Gt (x y : spec_float) :
  SFcompare x y = Some Lt -> SFcompare y x = Some Gt.
Proof.
  destruct x as [sx | sx | | sx mx ex], y as [sy | sy | | sy my ey]; simpl;
    try discriminate;
    try (destruct sx; try discriminate; reflexivity);
    try (destruct sy; try discriminate; reflexivity);
    try (destruct sx, sy; try discriminate; reflexivity).
  rewrite (Z.compare_antisym ex ey).
  change (Pos.compare_cont Eq my mx) with (Pos.compare my mx).
  change (Pos.compare_cont Eq mx my) with (Pos.compare mx my).
  rewrite (Pos.compare_antisym mx my).
  destruct sx, sy; try discriminate; try reflexivity;
    destruct (ex ?= ey); simpl; try discriminate; try reflexivity;
    destruct (mx ?= my)%positive; simpl; try discriminate; reflexivity.
Qed.

Lemma ltb_asym (x y : float) : (x <? y)%float = true -> (y <? x)%float = false.
Proof.
  rewrite !ltb_spec; unfold SFltb.
  destruct (SFcompare (Prim2SF x) (Prim2SF y)) as [[| |] |] eqn:E;
    try discriminate.
  rewrite (SFcompare_Lt_Gt _ _ E); reflexivity.
Qed.

Lemma ltb_irrefl (x : float) : (x <? x)%float = false.
Proof.
  destruct (x <? x)%float eqn:E; [| reflexivity].
  pose proof (ltb_asym x x E) as E'; rewrite E in E'; discriminate E'.
Qed.

Lemma Prim2SF_not_nan (x : float) :
  is_nan x = false -> Prim2SF x <> S754_nan.
Proof.
  unfold Prim2SF; intros ->.
  destruct (is_zero x); [discriminate |].
  destruct (is_infinity x); [discriminate |].
  destruct (Z.frexp x) as (r, e).
  destruct (shr_fexp _ _ _ _ _) as (mrs, e').
  destruct (shr_m mrs); discriminate.
Qed.

Lemma not_nan_Prim2SF (x : float) :
  Prim2SF x <> S754_nan -> is_nan x = false.
Proof.
  unfold Prim2SF; destruct (is_nan x); [intros H; contradiction H |]; reflexivity.
Qed.

Section Rounding.

Variables prec emax : Z.

Lemma shr_1_nonneg (mrs : shr_record) :
  0 <= shr_m mrs -> 0 <= shr_m (shr_1 mrs).
Proof.
  destruct mrs as [m r s]; destruct m as [| [p | p |] | p]; simpl; lia.
Qed.

Lemma iter_shr_1_nonneg (p : positive) (mrs : shr_record) :
  0 <= shr_m mrs -> 0 <= shr_m (iter_pos shr_1 p mrs).
Proof.
  revert mrs; induction p as [p IH | p IH |]; intros mrs H; simpl.
  - apply IH, IH, shr_1_nonneg, H.
  - apply IH, IH, H.
  - apply shr_1_nonneg, H.
Qed.

Lemma shr_fexp_nonneg (m e : Z) (l : location) :
  0 <= m -> 0 <= shr_m (fst (shr_fexp prec emax m e l)).
Proof.
  intros H; unfold shr_fexp, shr.
  assert (H' : 0 <= shr_m (shr_record_of_loc m l))
    by (destruct l as [| []]; exact H).
  destruct (fexp prec emax (Zdigits2 m + e) - e); simpl;
    [exact H' | apply iter_shr_1_nonneg; exact H' | exact H'].
Qed.

Lemma round_nearest_even_nonneg (m : Z) (l : location) :
  0 <= m -> 0 <= round_nearest_even m l.
Proof.
  intros H; destruct l as [| []]; simpl; try destruct (Z.even m); lia.
Qed.

Lemma binary_round_aux_not_nan (sx : bool) (mx ex : Z) (lx : location) :
  0 <= mx -> binary_round_aux prec emax sx mx ex lx <> S754_nan.
Proof.
  intros H; unfold binary_round_aux.
  pose proof (shr_fexp_nonneg mx ex lx H) as H1.
  destruct (shr_fexp prec emax mx ex lx) as (mrs', e'); simpl in H1.
  pose proof (shr_fexp_nonneg _ e' loc_Exact
                (round_nearest_even_nonneg _ (loc_of_shr_record mrs') H1)) as H2.
  destruct (shr_fexp prec emax _ e' loc_Exact) as (mrs'', e''); simpl in H2.
  destruct (shr_m mrs''); [discriminate | | lia].
  destruct (e'' <=? emax - prec); discriminate.
Qed.

Lemma binary_round_not_nan (sx : bool) (mx : positive) (ex : Z) :
  binary_round prec emax sx mx ex <> S754_nan.
Proof.
  unfold binary_round; destruct (shl_align _ _ _) as (mz, ez).
  apply binary_round_aux_not_nan; lia.
Qed.

Lemma SFdiv_finite_not_nan (sx sy : bool) (mx my : positive) (ex ey : Z) :
  SFdiv prec emax (S754_finite sx mx ex) (S754_finite sy my ey) <> S754_nan.
Proof.
  unfold SFdiv, SFdiv_core_binary.
  set (s := _ - _ - _).
  set (m' := match s with Z.pos _ => _ | Z0 => _ | Z.neg _ => _ end).
  assert (Hm : 0 <= m').
  { unfold m'; destruct s; [lia | apply Z.shiftl_nonneg; lia | lia]. }
  pose proof (Z_div_mod m' (Z.pos my) ltac:(lia)) as Hd.
  destruct (Z.div_eucl m' (Z.pos my)) as (q, r).
  apply binary_round_aux_not_nan. nia.
Qed.

End Rounding.

Lemma SF2Prim_not_nan (x : spec_float) :
  x <> S754_nan -> is_nan (SF2Prim x) = false.
Proof.
  destruct x as [[] | [] | | s m e]; try reflexivity;
    [intros H; contradiction H; reflexivity |]; intros _.
  apply not_nan_Prim2SF; unfold SF2Prim.
  set (pm := of_uint63 _).
  assert (H : Prim2SF (Z.ldexp pm e) <> S754_nan).
  { rewrite Z_ldexp_spec; unfold pm; rewrite of_uint63_spec.
    unfold binary_normalize.
    destruct (Uint63Axioms.to_Z _) as [| p | p]; simpl;
      try discriminate;
      (destruct (binary_round prec emax _ p 0) eqn:E; simpl; try discriminate;
        [exfalso; exact (binary_round_not_nan _ _ _ _ _ E)
        | apply binary_round_not_nan]). }
  destruct s; [| exact H].
  rewrite opp_spec; destruct (Prim2SF (Z.ldexp pm e)); simpl;
    try discriminate; contradiction H; reflexivity.
Qed.

Lemma round_not_nan (x : float) (ndigits : Z) :
  is_nan x = false -> is_nan (Py.round x ndigits) = false.
Proof.
  intros H; unfold Py.round.
  destruct (Prim2SF x) as [sx | sx | | sx m e]; try exact H.
  destruct (if 0 <=? e then _ else _) as [| n | n];
    try (destruct sx; reflexivity).
  destruct (10 ^ ndigits) as [| scale | scale];
    try (destruct sx; reflexivity).
  apply SF2Prim_not_nan, SFdiv_finite_not_nan.
Qed.

Lemma leb_true_not_nan (x y : float) :
  (x <=? y)%float = true -> is_nan y = false.
Proof.
  rewrite leb_spec; intros H; apply not_nan_Prim2SF; intros E.
  rewrite E in H; destruct (Prim2SF x); discriminate H.
Qed.

Lemma SFltb_rank (x y : spec_float) :
  x <> S754_nan -> y <> S754_nan ->
  (SFltb x y = true <-> rank_lt (SF_rank x) (SF_rank y)).
Proof.
  intros Hx Hy; unfold SFltb, rank_lt.
  destruct x as [sx | sx | | sx mx ex]; [| | contradiction Hx; reflexivity |];
    (destruct y as [sy | sy | | sy my ey];
      [| | contradiction Hy; reflexivity |]);
    try (destruct sx); try (destruct sy); cbn [SFcompare SF_rank];
    try (split; intros; first [reflexivity | discriminate | lia]).
  all: change (Pos.compare_cont Eq mx my) with (Pos.compare mx my).
  all: destruct (Z.compare_spec ex ey); cbn [CompOpp];
    try (split; intros; first [reflexivity | discriminate | lia]).
  all: destruct (Pos.compare_spec mx my); cbn [CompOpp];
    split; intros; first [reflexivity | discriminate | lia].
Qed.

Lemma SFltb_true_not_nan (x y : spec_float) :
  SFltb x y = true -> x <> S754_nan /\ y <> S754_nan.
Proof.
  unfold SFltb; destruct x, y; simpl; try discriminate;
    intros _; split; discriminate.
Qed.

Lemma not_ltb_trans (x y z : float) :
  is_nan y = false ->
  (x <? y)%float = false -> (y <? z)%float = false -> (x <? z)%float = false.
Proof.
  intros Hy Fxy Fyz; apply Prim2SF_not_nan in Hy.
  destruct (x <? z)%float eqn:Fxz; [exfalso | reflexivity].
  rewrite ltb_spec in Fxy, Fyz, Fxz.
  destruct (SFltb_true_not_nan _ _ Fxz) as (Hx & Hz).
  apply (SFltb_rank _ _ Hx Hz) in Fxz.
  assert (Hxy : ~ rank_lt (SF_rank (Prim2SF x)) (SF_rank (Prim2SF y))).
  { intros F; apply (SFltb_rank _ _ Hx Hy) in F.
    rewrite F in Fxy; discriminate Fxy. }
  assert (Hyz : ~ rank_lt (SF_rank (Prim2SF y)) (SF_rank (Prim2SF z))).
  { intros F; apply (SFltb_rank _ _ Hy Hz) in F.
    rewrite F in Fyz; discriminate Fyz. }
  destruct (SF_rank (Prim2SF x)) as ((x1, x2), x3).
  destruct (SF_rank (Prim2SF y)) as ((y1, y2), y3).
  destruct (SF_rank (Prim2SF z)) as ((z1, z2), z3).
  unfold rank_lt in *; lia.
Qed.

(** ** The ranking of the desert cells *)

Lemma insert_desc_perm (d : desert_cell) (l : list desert_cell) :
  Permutation (insert_desc d l) (d :: l).
Proof.
  induction l as [| e l IH]; simpl; [reflexivity |].
  destruct (nearest_km d <? nearest_km e)%float; [| reflexivity].
  rewrite IH; apply perm_swap.
Qed.

Lemma sort_perm (cells : list desert_cell) :
  Permutation (sort_nearest_km_reverse cells) cells.
Proof.
  induction cells as [| d cells IH]; simpl; [reflexivity |].
  rewrite insert_desc_perm; constructor; exact IH.
Qed.

Lemma insert_desc_sorted (d : desert_cell) (l : list desert_cell) :
  Sorted not_farther l -> Sorted not_farther (insert_desc d l).
Proof.
  induction l as [| e l IH]; simpl; intros H.
  - repeat constructor.
  - apply Sorted_inv in H; destruct H as (Hl & He).
    destruct (nearest_km d <? nearest_km e)%float eqn:T.
    + constructor; [apply IH; exact Hl |].
      destruct l as [| e' l]; simpl.
      * constructor; exact (ltb_asym _ _ T).
      * destruct (nearest_km d <? nearest_km e')%float.
        -- constructor; apply HdRel_inv in He; exact He.
        -- constructor; exact (ltb_asym _ _ T).
    + constructor; [constructor; assumption | constructor; exact T].
Qed.

Lemma sort_sorted (cells : list desert_cell) :
  Sorted not_farther (sort_nearest_km_reverse cells).
Proof.
  induction cells as [| d cells IH]; simpl;
    [constructor | apply insert_desc_sorted; exact IH].
Qed.

Lemma before_In {A : Type} (a b : A) (l : list A) :
  before a b l -> In a l /\ In b l.
Proof.
  induction 1 as [l Hb | x l _ (Ha & Hb)]; simpl; auto.
Qed.

Lemma insert_desc_In (d x : desert_cell) (l : list desert_cell) :
  In x l -> In x (insert_desc d l).
Proof.
  intros H; apply (Permutation_in x (Permutation_sym (insert_desc_perm d l))).
  right; exact H.
Qed.

Lemma insert_desc_keeps_order (d a b : desert_cell) (l : list desert_cell) :
  before a b l -> before a b (insert_desc d l).
Proof.
  induction 1 as [l Hb | x l Hab IH]; simpl.
  - destruct (nearest_km d <? nearest_km a)%float.
    + apply before_here; apply insert_desc_In; exact Hb.
    + apply before_later; apply before_here; exact Hb.
  - destruct (nearest_km d <? nearest_km x)%float.
    + apply before_later; exact IH.
    + apply before_later; apply before_later; exact Hab.
Qed.

Lemma insert_desc_first (a b : desert_cell) (l : list desert_cell) :
  not_farther a b -> In b l -> before a b (insert_desc a l).
Proof.
  unfold not_farther; intros Hab; induction l as [| e l IH]; simpl;
    intros Hb; [contradiction |].
  destruct (nearest_km a <? nearest_km e)%float eqn:T.
  - apply before_later; apply IH.
    destruct Hb as [-> | Hb]; [| exact Hb].
    rewrite Hab in T; discriminate T.
  - apply before_here; exact Hb.
Qed.

(** The sort is stable: a cell sampled before another one that is not
    farther from the stations, by the rounded distances, stays before it. *)
Lemma sort_stable (a b : desert_cell) (cells : list desert_cell) :
  before a b cells -> not_farther a b ->
  before a b (sort_nearest_km_reverse cells).
Proof.
  intros H Hab; induction H as [l Hb | x l _ IH]; simpl.
  - apply insert_desc_first; [exact Hab |].
    apply (Permutation_in b (Permutation_sym (sort_perm l))); exact Hb.
  - apply insert_desc_keeps_order; exact IH.
Qed.

Lemma firstn_In {A : Type} (n : nat) (l : list A) (x : A) :
  In x (firstn n l) -> In x l.
Proof.
  revert l; induction n as [| n IH]; intros [| y l]; simpl; try tauto.
  intros [-> | H]; [left; reflexivity | right; apply IH; exact H].
Qed.

(** ** The isolation scan *)

Lemma for_each_append {X A : Type} (g : X -> result (list A))
    (body : X -> list A -> result (list A)) (xs : list X) :
  (forall x acc, body x acc = (l <- g x ;; OK (acc ++ l))) ->
  forall acc,
    for_each xs body acc = (ls <- map_m g xs ;; OK (acc ++ List.concat ls)).
Proof.
  intros Hbody; induction xs as [| x xs IH]; intros acc; simpl.
  - rewrite app_nil_r; reflexivity.
  - rewrite Hbody; destruct (g x) as [l |]; simpl; [| reflexivity].
    rewrite IH; destruct (map_m g xs) as [ls |]; simpl; [| reflexivity].
    rewrite app_assoc; reflexivity.
Qed.

Lemma in_range_step_5 (n k : Z) :
  In k (range_step n 5) <-> 0 <= k < n /\ k mod 5 = 0.
Proof.
  unfold range_step; rewrite in_map_iff.
  pose proof (Z.div_mod (n + 5 - 1) 5 ltac:(lia)) as Hd.
  pose proof (Z.mod_pos_bound (n + 5 - 1) 5 ltac:(lia)) as Hb.
  set (q := (n + 5 - 1) / 5) in *.
  set (m := (n + 5 - 1) mod 5) in *.
  split.
  - intros (j & <- & Hj); apply in_seq in Hj.
    split; [lia | apply Z_mod_mult].
  - intros (Hk & Hm); exists (Z.to_nat (k / 5)).
    pose proof (Z.div_mod k 5 ltac:(lia)) as Hd'.
    rewrite Hm in Hd'.
    set (p := k / 5) in *.
    split; [lia | apply in_seq; lia].
Qed.

Lemma desert_step_candidate (b : bbox) (skm : list (float * float)) (r c : Z)
    (cells : list desert_cell) :
  desert_step b skm r c cells =
  (l <- cell_candidate b skm r c ;; OK (cells ++ l)).
Proof.
  unfold desert_step, cell_candidate.
  destruct (cell_min_dist _ _ _) as [min_dist |]; simpl; [| reflexivity].
  destruct (GAP_THRESHOLD_KM <=? min_dist)%float;
    [| rewrite app_nil_r]; reflexivity.
Qed.

(** The candidate cells are listed row by row, and within a row column by
    column. *)
Lemma desert_center_cells_row_major (b : bbox) (rows cols : Z)
    (skm : list (float * float)) :
  desert_center_cells b rows cols skm =
  (ls <- map_m (row_candidates b skm cols) (range_step rows 5) ;;
   OK (List.concat ls)).
Proof.
  unfold desert_center_cells.
  rewrite (for_each_append (row_candidates b skm cols)).
  - destruct (map_m _ _); reflexivity.
  - intros r acc; unfold row_candidates.
    rewrite (for_each_append (cell_candidate b skm r)).
    + destruct (map_m _ _); reflexivity.
    + intros c acc'; apply desert_step_candidate.
Qed.

Lemma desert_center_cells_In (b : bbox) (rows cols : Z)
    (skm : list (float * float)) (cells : list desert_cell)
    (dz : desert_cell) :
  desert_center_cells b rows cols skm = OK cells ->
  (In dz cells <->
   exists r c min_dist,
     (0 <= r < rows /\ r mod 5 = 0) /\
     (0 <= c < cols /\ c mod 5 = 0) /\
     cell_min_dist (cell_center c) (cell_center r) skm = OK min_dist /\
     (GAP_THRESHOLD_KM <=? min_dist)%float = true /\
     dz = {| dc_lat := (min_lat b + cell_center r / KM_PER_DEG_LAT)%float;
             dc_lng := (min_lng b + cell_center c / KM_PER_DEG_LNG)%float;
             nearest_km := Py.round min_dist 2 |}).
Proof.
  rewrite desert_center_cells_row_major; intros E.
  inv_bind E; injection E as <-.
  rewrite in_concat; split.
  - intros (row & Hrow & Hin).
    apply (map_m_In _ _ _ E0) in Hrow; destruct Hrow as (r & Hr & Er).
    unfold row_candidates in Er; inv_bind Er; injection Er as <-.
    apply in_concat in Hin; destruct Hin as (l & Hl & Hin).
    apply (map_m_In _ _ _ E) in Hl; destruct Hl as (c & Hc & Ec).
    unfold cell_candidate in Ec; inv_bind Ec; injection Ec as <-.
    destruct (GAP_THRESHOLD_KM <=? v1)%float eqn:T; [| destruct Hin].
    destruct Hin as [<- | []].
    exists r, c, v1.
    rewrite <- (in_range_step_5 rows r), <- (in_range_step_5 cols c).
    repeat split; assumption.
  - intros (r & c & min_dist & Hr & Hc & Ed & T & ->).
    apply in_range_step_5 in Hr, Hc.
    destruct (In_nth_error _ _ Hr) as (i & Hi).
    destruct (map_m_nth _ _ _ E0 i r Hi) as (row & Erow & Hrow).
    exists row; split; [exact (nth_error_In _ _ Hrow) |].
    unfold row_candidates in Erow; inv_bind Erow; injection Erow as <-.
    destruct (In_nth_error _ _ Hc) as (j & Hj).
    destruct (map_m_nth _ _ _ E j c Hj) as (l & El & Hl).
    apply in_concat; exists l; split; [exact (nth_error_In _ _ Hl) |].
    unfold cell_candidate in El; rewrite Ed in El; cbn [bind] in El.
    rewrite T in El; injection El as <-; left; reflexivity.
Qed.

Lemma desert_zone_features_nth (L : Libm) (zones : list desert_cell) :
  forall (i : Z) (features : list feature),
    desert_zone_features i zones = OK features ->
    List.length features = List.length zones /\
    forall k dz, nth_error zones k = Some dz ->
      exists ring,
        circle_polygon (dc_lat dz) (dc_lng dz) DESERT_ZONE_RADIUS_KM 48
          = OK ring /\
        nth_error features k =
          Some (transit_desert_zone (i + Z.of_nat k + 1) (nearest_km dz) ring).
Proof.
  induction zones as [| dz0 zones IH]; intros i features E.
  - injection E as <-; split; [reflexivity |].
    intros [| k] dz Hk; discriminate Hk.
  - cbn [desert_zone_features] in E.
    inv_bind E. inv_bind E. injection E as <-.
    destruct (IH _ _ E1) as (Hlen & Hnth).
    split; [simpl; f_equal; exact Hlen |].
    intros [| k] dz Hk; simpl in Hk.
    + injection Hk as <-; exists v; split; [exact E0 |].
      simpl; do 2 f_equal; lia.
    + destruct (Hnth k dz Hk) as (ring & Er & Hf).
      exists ring; split; [exact Er |].
      simpl; rewrite Hf; do 2 f_equal; lia.
Qed.

Lemma desert_zone_features_reported (L : Libm) (zones : list desert_cell) :
  forall (i : Z) (features : list feature),
    desert_zone_features i zones = OK features ->
    map reported_km features = map (fun dz => Some (nearest_km dz)) zones.
Proof.
  induction zones as [| dz0 zones IH]; intros i features E.
  - injection E as <-; reflexivity.
  - cbn [desert_zone_features] in E.
    inv_bind E. inv_bind E. injection E as <-.
    simpl; f_equal; exact (IH _ _ E1).
Qed.

Lemma Sorted_firstn {A : Type} (R : A -> A -> Prop) (n : nat) (l : list A) :
  Sorted R l -> Sorted R (firstn n l).
Proof.
  revert l; induction n as [| n IH]; intros [| x l] H; simpl;
    try constructor.
  - apply IH; apply Sorted_inv in H; tauto.
  - apply Sorted_inv in H; destruct H as (_ & H).
    destruct n, l; simpl; constructor.
    apply HdRel_inv in H; exact H.
Qed.

Lemma Sorted_not_nan_StronglySorted (l : list desert_cell) :
  Forall (fun d => is_nan (nearest_km d) = false) l ->
  Sorted not_farther l -> StronglySorted not_farther l.
Proof.
  induction l as [| x l IH]; intros Hnan Hs; [constructor |].
  apply Forall_cons_iff in Hnan; destruct Hnan as (_ & Hnan).
  apply Sorted_inv in Hs; destruct Hs as (Hs & Hx).
  specialize (IH Hnan Hs); constructor; [exact IH |].
  destruct l as [| y l]; [constructor |].
  apply HdRel_inv in Hx.
  apply StronglySorted_inv in IH; destruct IH as (_ & Hy).
  constructor; [exact Hx |].
  apply Forall_cons_iff in Hnan; destruct Hnan as (Hny & _).
  apply Forall_forall; intros z Hz.
  rewrite Forall_forall in Hy.
  exact (not_ltb_trans _ _ _ Hny Hx (Hy z Hz)).
Qed.

Lemma StronglySorted_app_inv {A : Type} (R : A -> A -> Prop) (l1 l2 : list A) :
  StronglySorted R (l1 ++ l2) ->
  StronglySorted R l1 /\ forall a b, In a l1 -> In b l2 -> R a b.
Proof.
  induction l1 as [| x l1 IH]; simpl; intros H.
  - split; [constructor | intros a b []].
  - apply StronglySorted_inv in H; destruct H as (H & Hx).
    destruct (IH H) as (H1 & H12).
    rewrite Forall_forall in Hx; split.
    + constructor; [exact H1 |].
      apply Forall_forall; intros y Hy; apply Hx, in_or_app; left; exact Hy.
    + intros a b [<- | Ha] Hb.
      * apply Hx, in_or_app; right; exact Hb.
      * exact (H12 a b Ha Hb).
Qed.

(** The rounded distance of a candidate cell is a number. *)
Lemma candidates_not_nan (b : bbox) (rows cols : Z)
    (skm : list (float * float)) (cells : list desert_cell) :
  desert_center_cells b rows cols skm = OK cells ->
  Forall (fun d => is_nan (nearest_km d) = false) cells.
Proof.
  intros E; apply Forall_forall; intros dz Hdz.
  apply (desert_center_cells_In _ _ _ _ _ dz E) in Hdz.
  destruct Hdz as (r & c & min_dist & _ & _ & _ & T & ->); simpl.
  apply round_not_nan; exact (leb_true_not_nan _ _ T).
Qed.

(** The ranking of the candidate cells is in descending order throughout:
    no cell is farther, by the rounded distances, than a cell ranked before
    it. *)
Lemma ranking_descending (b : bbox) (rows cols : Z)
    (skm : list (float * float)) (cells : list desert_cell) :
  desert_center_cells b rows cols skm = OK cells ->
  StronglySorted not_farther (sort_nearest_km_reverse cells).
Proof.
  intros E; apply Sorted_not_nan_StronglySorted; [| apply sort_sorted].
  apply Forall_forall; intros dz Hdz.
  apply (Permutation_in dz (sort_perm cells)) in Hdz.
  pose proof (candidates_not_nan _ _ _ _ _ E) as H.
  rewrite Forall_forall in H; exact (H dz Hdz).
Qed.

Lemma isolation_scan_OK (L : Libm) (stations : list station)
    (zones : list desert_cell) (features : list feature) :
  isolation_scan stations = OK (zones, features) ->
  exists b rows cols cells,
    bounding_box stations = OK b /\
    n_rows b = OK rows /\
    n_cols b = OK cols /\
    desert_center_cells b rows cols (stations_km b stations) = OK cells /\
    zones = desert_zones cells /\
    desert_zone_features 0 zones = OK features.
Proof.
  unfold isolation_scan; intros E.
  inv_bind E. inv_bind E. inv_bind E. inv_bind E. inv_bind E.
  injection E as <- <-.
  exists v, v0, v1, v2; repeat split; assumption.
Qed.

(** C8 (as amended).  The desert zones are the first 10, at most, of the
    candidate cells in descending order of distance, so that no cell left out
    is farther than a zone; a candidate is a cell of every fifth row and
    column whose planar distance to the nearest station is at least the 5 km
    threshold.  Every zone is drawn as a disk of the
    fixed radius 2 km, which is larger than the 1 km buffer radius, not
    smaller. *)
Theorem desert_zones_filtered_and_drawn (L : Libm) (stations : list station)
    (zones : list desert_cell) (features : list feature) :
  isolation_scan stations = OK (zones, features) ->
  exists b rows cols cells,
    bounding_box stations = OK b /\
    n_rows b = OK rows /\
    n_cols b = OK cols /\
    desert_center_cells b rows cols (stations_km b stations) = OK cells /\
    zones = firstn 10 (sort_nearest_km_reverse cells) /\
    (List.length zones <= 10)%nat /\
    StronglySorted not_farther zones /\
    (forall dz d,
       In dz zones -> In d (skipn 10 (sort_nearest_km_reverse cells)) ->
       not_farther dz d) /\
    (forall dz, In dz zones ->
       exists r c min_dist,
         (0 <= r < rows /\ r mod 5 = 0) /\
         (0 <= c < cols /\ c mod 5 = 0) /\
         cell_min_dist (cell_center c) (cell_center r)
           (stations_km b stations) = OK min_dist /\
         (GAP_THRESHOLD_KM <=? min_dist)%float = true /\
         dz = {| dc_lat := (min_lat b + cell_center r / KM_PER_DEG_LAT)%float;
                 dc_lng := (min_lng b + cell_center c / KM_PER_DEG_LNG)%float;
                 nearest_km := Py.round min_dist 2 |}) /\
    List.length features = List.length zones /\
    (forall k dz, nth_error zones k = Some dz ->
       exists ring,
         circle_polygon (dc_lat dz) (dc_lng dz) DESERT_ZONE_RADIUS_KM 48
           = OK ring /\
         nth_error features k =
           Some (transit_desert_zone (Z.of_nat k + 1) (nearest_km dz) ring)) /\
    DESERT_ZONE_RADIUS_KM = 2%float /\
    (BUFFER_KM <? DESERT_ZONE_RADIUS_KM)%float = true.
Proof.
  intros E; apply isolation_scan_OK in E.
  destruct E as (b & rows & cols & cells & Eb & Er & Ec & Ecells & -> & Ef).
  exists b, rows, cols, cells.
  destruct (desert_zone_features_nth L _ _ _ Ef) as (Hlen & Hnth).
  unfold desert_zones in *.
  repeat (split; [first [assumption | reflexivity] |]).
  split; [apply firstn_le_length |].
  pose proof (ranking_descending _ _ _ _ _ Ecells) as Hsorted.
  rewrite <- (firstn_skipn 10 (sort_nearest_km_reverse cells)) in Hsorted.
  apply StronglySorted_app_inv in Hsorted; destruct Hsorted as (Hz & Hrest).
  split; [exact Hz |].
  split; [exact Hrest |].
  split.
  { intros dz Hdz; apply firstn_In in Hdz.
    apply (Permutation_in dz (sort_perm cells)) in Hdz.
    apply (desert_center_cells_In _ _ _ _ _ dz Ecells); exact Hdz. }
  split; [exact Hlen |].
  split; [exact Hnth |].
  split; reflexivity.
Qed.

Lemma desert_zones_filtered_and_drawn_witness :
  exists zones features,
    @isolation_scan RefLibm.libm two_stations = OK (zones, features) /\
    (List.length zones <= 10)%nat /\
    List.length features = List.length zones.
Proof.
  assert (Hok : is_ok (@isolation_scan RefLibm.libm two_stations) = true)
    by (vm_compute; reflexivity).
  destruct (@isolation_scan RefLibm.libm two_stations)
    as [[zones features] |] eqn:E; [| discriminate Hok].
  exists zones, features; split; [reflexivity |].
  destruct (desert_zones_filtered_and_drawn RefLibm.libm two_stations
              zones features E)
    as (b & rows & cols & cells & _ & _ & _ & _ & _ & Hlen & _ & _ & _ & Hf & _).
  split; [exact Hlen | exact Hf].
Defined.

(** C8, refuted as stated: for two stations about 6 km apart the first zone
    is drawn with radius 2 km, and 2 km is not smaller than the buffer
    radius. *)
Lemma desert_disk_larger_than_buffer :
  match @isolation_scan RefLibm.libm two_stations with
  | OK (dz :: _, transit_desert_zone _ _ ring :: _) =>
      @circle_polygon RefLibm.libm (dc_lat dz) (dc_lng dz) 2 48 = OK ring /\
      (2 <? BUFFER_KM)%float = false
  | _ => False
  end.
Proof.
  vm_compute; split; reflexivity.
Qed.

(** C10.  The candidate cells are ranked by the distance rounded to two
    decimals, the value stored as [nearest_km] and reported for the zone:
    the ranking is a permutation of the candidates in descending order of
    that value, and it is stable, so that of two candidates with the same
    rounded distance the one sampled first (row by row, column by column)
    stays first, whatever their exact distances. *)
Theorem desert_ranking_by_rounded_distance :
  (forall cells,
      desert_zones cells = firstn 10 (sort_nearest_km_reverse cells) /\
      Permutation (sort_nearest_km_reverse cells) cells /\
      Sorted not_farther (sort_nearest_km_reverse cells)) /\
  (forall cells a b,
      before a b cells -> nearest_km a = nearest_km b ->
      before a b (sort_nearest_km_reverse cells)) /\
  (forall b rows cols skm cells,
      desert_center_cells b rows cols skm = OK cells ->
      (exists per_row,
          map_m (row_candidates b skm cols) (range_step rows 5) = OK per_row /\
          cells = List.concat per_row) /\
      StronglySorted not_farther (sort_nearest_km_reverse cells) /\
      forall dz, In dz cells ->
        exists r c min_dist,
          cell_min_dist (cell_center c) (cell_center r) skm = OK min_dist /\
          nearest_km dz = Py.round min_dist 2) /\
  (forall (L : Libm) i zones features,
      desert_zone_features i zones = OK features ->
      map reported_km features = map (fun dz => Some (nearest_km dz)) zones).
Proof.
  split; [| split; [| split]].
  - intros cells; split; [reflexivity |].
    split; [apply sort_perm | apply sort_sorted].
  - intros cells a b Hab Hkey; apply sort_stable; [exact Hab |].
    unfold not_farther; rewrite Hkey; apply ltb_irrefl.
  - intros b rows cols skm cells E; split; [| split].
    + rewrite desert_center_cells_row_major in E.
      inv_bind E; injection E as <-.
      exists v; split; [exact E0 | reflexivity].
    + exact (ranking_descending _ _ _ _ _ E).
    + intros dz Hdz.
      apply (desert_center_cells_In _ _ _ _ _ dz E) in Hdz.
      destruct Hdz as (r & c & min_dist & _ & _ & Ed & _ & ->).
      exists r, c, min_dist; split; [exact Ed | reflexivity].
  - intros L i zones features E.
    exact (desert_zone_features_reported L zones i features E).
Qed.

Lemma desert_ranking_by_rounded_distance_witness :
  exists a b,
    candidate_cells two_stations = OK [a; b] /\
    exact_min_dist two_stations 0 60 = OK 5.138579570270209%float /\
    exact_min_dist two_stations 60 0 = OK 5.138579570270321%float /\
    nearest_km a = 5.14%float /\
    nearest_km b = 5.14%float /\
    before a b (sort_nearest_km_reverse [a; b]).
Proof.
  destruct (candidate_cells two_stations) as [[| a [| b [| c cells]]] |] eqn:E;
    try (exfalso; vm_compute in E; discriminate E).
  exists a, b; split; [reflexivity |].
  vm_compute in E; injection E as <- <-.
  split; [vm_compute; reflexivity |].
  split; [vm_compute; reflexivity |].
  split; [reflexivity |].
  split; [reflexivity |].
  apply (proj1 (proj2 desert_ranking_by_rounded_distance));
    [apply before_here; left; reflexivity | reflexivity].
Defined.

(** ** The scenario of three stations on one branch

    Stations at latitudes 13.70, 13.72 and 13.80 on the same meridian: the
    first two are 2.2 km apart, the last two 8.9 km, so that exactly one gap
    is reported, between the second and the third. *)
Example gap_scan_three_stations :
  @haversine_km RefLibm.libm 13.70 100.50 13.72 100.50
    = OK 2.2238985328913246%float /\
  @haversine_km RefLibm.libm 13.72 100.50 13.80 100.50
    = OK 8.895594131564707%float /\
  @gap_scan RefLibm.libm (line_branch_groups three_stations) =
    OK ([{| gap_line := "Green (N-branch)"; gap_from := "N2"; gap_to := "N3";
            distance_km := 8.9 |}],
        [transit_desert_gap "Green" "N2" "N3" 8.9
           [(100.5, 13.72); (100.5, 13.8)]])%float.
Proof.
  repeat split; vm_compute; reflexivity.
Qed.

(** ** The projection constants *)

Section ProjectionConstants.

Local Open Scope R_scope.

Lemma KM_PER_DEG_LNG_value :
  float_value KM_PER_DEG_LNG = 7568228805051941 / 70368744177664.
Proof.
  reflexivity.
Qed.

Lemma PI_between : 3.1415 <= PI <= 3.1421.
Proof.
  pose proof (PI_2_3_7_ineq 1) as H.
  unfold sum_f_R0, tg_alt, PI_2_3_7_tg, Ratan_seq in H.
  simpl in H; lra.
Qed.

Lemma cos_between (a : R) :
  0 <= a <= 1 ->
  1 - a * a / 2 + a * a * (a * a) / 24 - a * a * (a * a) * (a * a) / 720
    <= cos a <=
  1 - a * a / 2 + a * a * (a * a) / 24.
Proof.
  intros Ha; pose proof PI2_1.
  destruct (COS a) as (Hlo & _); [lra | lra |].
  destruct (cos_bound a 0) as (_ & Hhi); [lra | lra |].
  unfold cos_lb, cos_approx, sum_f_R0, cos_term in Hlo, Hhi.
  simpl in Hlo, Hhi; lra.
Qed.

Lemma km_per_deg_lng_at_reference_latitude :
  108.1515 < km_per_deg_lng_at 13.7 < 108.155.
Proof.
  unfold km_per_deg_lng_at.
  pose proof PI_between.
  set (a := 13.7 * PI / 180).
  assert (Ha : 0.2391 <= a <= 0.23915) by (unfold a; lra).
  pose proof (cos_between a ltac:(lra)) as Hc.
  assert (H2 : 0.2391 * 0.2391 <= a * a <= 0.23915 * 0.23915) by nra.
  assert (H4 : 0.2391 * 0.2391 * (0.2391 * 0.2391) <= a * a * (a * a)
               <= 0.23915 * 0.23915 * (0.23915 * 0.23915)) by nra.
  assert (H6 : 0 <= a * a * (a * a) * (a * a) <= 0.06 * 0.06 * 0.06) by nra.
  lra.
Qed.

End ProjectionConstants.

(** C9, the code against its own comment.  Line 48 sets [KM_PER_DEG_LNG] to
    107.551 and comments it as [cos(13.7 deg) * 111.320]; that product lies
    between 108.1515 and 108.155, more than 0.6 km per degree above the
    constant. *)
Theorem KM_PER_DEG_LNG_differs_from_cosine_formula :
  (108.1515 < km_per_deg_lng_at 13.7 < 108.155)%R /\
  (float_value KM_PER_DEG_LNG < 107.552)%R /\
  (km_per_deg_lng_at 13.7 - float_value KM_PER_DEG_LNG > 0.6)%R.
Proof.
  pose proof km_per_deg_lng_at_reference_latitude as H.
  rewrite KM_PER_DEG_LNG_value.
  split; [exact H |]; split; lra.
Qed.

(** ** Branch groups *)

Lemma key_eqb_eq (k1 k2 : group_key) : key_eqb k1 k2 = true <-> k1 = k2.
Proof.
  destruct k1 as [a1 b1], k2 as [a2 b2]; unfold key_eqb; simpl.
  rewrite andb_true_iff, !String.eqb_eq.
  split; [intros [-> ->]; reflexivity | intros E; injection E; auto].
Qed.

Lemma key_eqb_refl (k : group_key) : key_eqb k k = true.
Proof. apply key_eqb_eq; reflexivity. Qed.

Lemma key_eqb_neq (k1 k2 : group_key) : key_eqb k1 k2 = false <-> k1 <> k2.
Proof.
  rewrite <- key_eqb_eq. destruct (key_eqb k1 k2); split; congruence.
Qed.

Lemma first_keys_In (k : group_key) (ks : list group_key) :
  In k (first_keys ks) <-> In k ks.
Proof.
  induction ks as [|k0 ks IH]; simpl; [tauto|].
  rewrite filter_In, IH, negb_true_iff, key_eqb_neq.
  destruct (key_eqb k0 k) eqn:E.
  - apply key_eqb_eq in E. tauto.
  - apply key_eqb_neq in E. tauto.
Qed.

Lemma first_keys_NoDup (ks : list group_key) : NoDup (first_keys ks).
Proof.
  induction ks as [|k ks IH]; simpl; constructor.
  - rewrite filter_In, negb_true_iff, key_eqb_neq. tauto.
  - apply NoDup_filter, IH.
Qed.

Lemma filter_absent {A : Type} (p : A -> bool) (l : list A) :
  (forall x, In x l -> p x = true) -> filter p l = l.
Proof.
  induction l as [|a l IH]; simpl; intros Hp; [reflexivity|].
  rewrite (Hp a) by auto. f_equal. apply IH. auto.
Qed.

Lemma first_keys_snoc (ks : list group_key) (k : group_key) :
  first_keys (ks ++ [k]) =
  if existsb (key_eqb k) (first_keys ks) then first_keys ks
  else first_keys ks ++ [k].
Proof.
  induction ks as [|k0 ks IH]; simpl; [reflexivity|].
  rewrite IH.
  destruct (key_eqb k k0) eqn:E0; simpl.
  - apply key_eqb_eq in E0; subst k0.
    destruct (existsb (key_eqb k) (first_keys ks)) eqn:E; [reflexivity|].
    rewrite filter_app; simpl. rewrite key_eqb_refl; simpl.
    rewrite app_nil_r. reflexivity.
  - assert (E1 : key_eqb k0 k = false).
    { apply key_eqb_neq. apply key_eqb_neq in E0. congruence. }
    destruct (existsb (key_eqb k) (first_keys ks)) eqn:E.
    + assert (Hex : existsb (key_eqb k)
                (filter (fun k' => negb (key_eqb k0 k')) (first_keys ks)) = true).
      { apply existsb_exists in E. destruct E as (x & Hx & Ex).
        apply existsb_exists. exists x. split; [|exact Ex].
        apply filter_In. split; [exact Hx|].
        apply key_eqb_eq in Ex; subst x. rewrite E1. reflexivity. }
      rewrite Hex. reflexivity.
    + assert (Hex : existsb (key_eqb k)
                (filter (fun k' => negb (key_eqb k0 k')) (first_keys ks)) = false).
      { destruct (existsb _ (filter _ _)) eqn:E2; [|reflexivity].
        apply existsb_exists in E2. destruct E2 as (x & Hx & Ex).
        apply filter_In in Hx.
        assert (existsb (key_eqb k) (first_keys ks) = true)
          by (apply existsb_exists; exists x; tauto).
        congruence. }
      rewrite Hex, filter_app; simpl. rewrite E1; simpl. reflexivity.
Qed.

Lemma line_branch_groups_snoc (stations : list station) (s : station) :
  line_branch_groups (stations ++ [s]) =
  setdefault_append (station_key s) s (line_branch_groups stations).
Proof. unfold line_branch_groups. rewrite fold_left_app. reflexivity. Qed.

Lemma members_of_snoc (k : group_key) (stations : list station) (s : station) :
  members_of k (stations ++ [s]) =
  if key_eqb k (station_key s) then members_of k stations ++ [s]
  else members_of k stations.
Proof.
  unfold members_of. rewrite filter_app; simpl.
  destruct (key_eqb k (station_key s)); [reflexivity | apply app_nil_r].
Qed.


Lemma key_eqb_sym (k1 k2 : group_key) : key_eqb k1 k2 = key_eqb k2 k1.
Proof.
  destruct (key_eqb k2 k1) eqn:E.
  - apply key_eqb_eq in E; subst. apply key_eqb_refl.
  - apply key_eqb_neq. apply key_eqb_neq in E. congruence.
Qed.

Lemma setdefault_append_map (key : group_key) (s : station)
    (M : group_key -> list station) (ks : list group_key) :
  NoDup ks ->
  (~ In key ks -> M key = []) ->
  setdefault_append key s (map (fun k => (k, M k)) ks) =
  map (fun k => (k, if key_eqb k key then M k ++ [s] else M k))
      (if existsb (key_eqb key) ks then ks else ks ++ [key]).
Proof.
  induction ks as [|k ks IH]; intros Hnd Hnew.
  - simpl. rewrite key_eqb_refl, Hnew by (simpl; tauto). reflexivity.
  - inversion Hnd as [|? ? Hk Hnd']; subst.
    simpl. rewrite (key_eqb_sym key k).
    destruct (key_eqb k key) eqn:E; simpl.
    + rewrite E. f_equal.
      apply key_eqb_eq in E; subst k.
      apply map_ext_in. intros k Hin.
      destruct (key_eqb k key) eqn:E; [|reflexivity].
      apply key_eqb_eq in E; subst k. contradiction.
    + rewrite IH; [| exact Hnd' | intro Hn; apply Hnew; simpl; intros [->|Hin];
                     [rewrite key_eqb_refl in E; discriminate | tauto]].
      destruct (existsb (key_eqb key) ks); simpl; rewrite E; reflexivity.
Qed.

Lemma members_of_absent (k : group_key) (stations : list station) :
  ~ In k (map station_key stations) -> members_of k stations = [].
Proof.
  unfold members_of. induction stations as [|s l IH]; simpl; intros Hn;
    [reflexivity|].
  destruct (key_eqb k (station_key s)) eqn:E.
  - apply key_eqb_eq in E. destruct Hn. left. congruence.
  - apply IH. tauto.
Qed.

Lemma line_branch_groups_by_key (stations : list station) :
  line_branch_groups stations =
  map (fun k => (k, members_of k stations))
      (first_keys (map station_key stations)).
Proof.
  induction stations as [|s l IH] using rev_ind; [reflexivity|].
  rewrite line_branch_groups_snoc, IH, map_app; simpl.
  rewrite first_keys_snoc.
  rewrite setdefault_append_map.
  - apply map_ext. intros k. rewrite members_of_snoc. reflexivity.
  - apply first_keys_NoDup.
  - intros Hn. apply members_of_absent. rewrite <- first_keys_In. exact Hn.
Qed.

Lemma members_of_nonempty (k : group_key) (stations : list station) :
  In k (map station_key stations) -> members_of k stations <> [].
Proof.
  intros Hin E. apply in_map_iff in Hin. destruct Hin as (s & <- & Hs).
  assert (Hm : In s (members_of (station_key s) stations)).
  { apply filter_In. split; [exact Hs | apply key_eqb_refl]. }
  rewrite E in Hm. destruct Hm.
Qed.

(** The groups, concatenated, hold every station once. *)
Lemma groups_partition (stations : list station) (ks : list group_key) :
  NoDup ks ->
  (forall s, In s stations -> In (station_key s) ks) ->
  Permutation (List.concat (map (fun k => members_of k stations) ks)) stations.
Proof.
  revert stations. induction ks as [|k ks IH]; intros stations Hnd Hall.
  - destruct stations as [|s l]; [constructor|]. destruct (Hall s); simpl; auto.
  - inversion Hnd as [|? ? Hk Hnd']; subst. simpl.
    set (others := filter (fun s => negb (key_eqb k (station_key s))) stations).
    assert (Hsame : forall k', In k' ks ->
              members_of k' stations = members_of k' others).
    { intros k' Hk'. unfold members_of, others.
      clear - Hk Hk'. induction stations as [|s l IH]; simpl; [reflexivity|].
      destruct (key_eqb k (station_key s)) eqn:E; simpl.
      - apply key_eqb_eq in E.
        destruct (key_eqb k' (station_key s)) eqn:E'; [|exact IH].
        apply key_eqb_eq in E'. congruence.
      - destruct (key_eqb k' (station_key s)); [f_equal|]; exact IH. }
    rewrite (map_ext_in _ _ _ Hsame).
    transitivity (members_of k stations ++ others).
    + apply Permutation_app_head. apply IH; [exact Hnd'|].
      intros s Hs. apply filter_In in Hs. destruct Hs as [Hs Hneq].
      destruct (Hall s Hs) as [->|Hin]; [|exact Hin].
      rewrite key_eqb_refl in Hneq. discriminate.
    + unfold members_of, others. clear.
      induction stations as [|s l IH]; simpl; [constructor|].
      destruct (key_eqb k (station_key s)); simpl.
      * constructor. exact IH.
      * apply Permutation_sym, Permutation_cons_app, Permutation_sym, IH.
Qed.

(** X1.  Grouping by line and branch is a partition of the station list.
    The groups are, for each distinct key (line name, branch key) in the
    order of its first appearance, the stations with that key in the order
    of the input: the keys are pairwise distinct, no group is empty, a
    station is a member of the group of its own key and of no other, and the
    groups taken together hold every station exactly once. *)
Theorem line_branch_groups_partition (stations : list station) :
  let groups := line_branch_groups stations in
  groups =
    map (fun k => (k, members_of k stations))
        (first_keys (map station_key stations)) /\
  NoDup (map fst groups) /\
  (forall k, In k (map fst groups) <-> exists s, In s stations /\ station_key s = k) /\
  (forall k members, In (k, members) groups ->
     members <> [] /\
     forall s, In s members <-> In s stations /\ station_key s = k) /\
  Permutation (List.concat (map snd groups)) stations.
Proof.
  intros groups. unfold groups.
  assert (Hfst : map fst (line_branch_groups stations) =
                 first_keys (map station_key stations)).
  { rewrite line_branch_groups_by_key, map_map; simpl. apply map_id. }
  split; [apply line_branch_groups_by_key|].
  split; [rewrite Hfst; apply first_keys_NoDup|].
  split.
  { intros k. rewrite Hfst, first_keys_In, in_map_iff.
    split; intros (s & H1 & H2); exists s; tauto. }
  split.
  { intros k members Hin. rewrite line_branch_groups_by_key in Hin.
    apply in_map_iff in Hin. destruct Hin as (k' & E & Hk').
    injection E as -> <-. rewrite first_keys_In in Hk'.
    split; [apply members_of_nonempty, Hk'|].
    intros s. unfold members_of. rewrite filter_In, key_eqb_eq.
    split; intros [? ?]; split; congruence. }
  rewrite line_branch_groups_by_key, map_map; simpl.
  apply groups_partition; [apply first_keys_NoDup|].
  intros s Hs. apply first_keys_In, in_map, Hs.
Qed.

(** ** Gaps along the input *)

Lemma filter_first {A : Type} (p : A -> bool) (l : list A) (b : A) :
  nth_error (filter p l) 0 = Some b ->
  exists l2 l3,
    l = l2 ++ b :: l3 /\ p b = true /\ Forall (fun s => p s = false) l2.
Proof.
  induction l as [|x l IH]; simpl; [discriminate|].
  destruct (p x) eqn:E; simpl.
  - intros [= ->]. exists [], l. auto.
  - intros Hn. destruct (IH Hn) as (l2 & l3 & -> & Hb & Hl2).
    exists (x :: l2), l3. auto.
Qed.

Lemma filter_consecutive {A : Type} (p : A -> bool) (l : list A) (a b : A) :
  (exists i, nth_error (filter p l) i = Some a /\
             nth_error (filter p l) (S i) = Some b) <->
  (exists l1 l2 l3,
     l = l1 ++ a :: l2 ++ b :: l3 /\ p a = true /\ p b = true /\
     Forall (fun s => p s = false) l2).
Proof.
  split.
  - intros (i & Ha & Hb). revert i Ha Hb.
    induction l as [|x l IH]; intros i Ha Hb; [destruct i; discriminate|].
    simpl in Ha, Hb. destruct (p x) eqn:E.
    + destruct i as [|i].
      * injection Ha as ->. simpl in Hb.
        destruct (filter_first _ _ _ Hb) as (l2 & l3 & -> & Hpb & Hl2).
        exists [], l2, l3. auto.
      * destruct (IH i Ha Hb) as (l1 & l2 & l3 & -> & H).
        exists (x :: l1), l2, l3. auto.
    + destruct (IH i Ha Hb) as (l1 & l2 & l3 & -> & H).
      exists (x :: l1), l2, l3. auto.
  - intros (l1 & l2 & l3 & -> & Ha & Hb & Hl2).
    exists (List.length (filter p l1)).
    assert (E2 : filter p l2 = []).
    { clear - Hl2. induction Hl2 as [|x l Hx _ IH]; simpl;
        [reflexivity | rewrite Hx; exact IH]. }
    assert (E : filter p (l1 ++ a :: l2 ++ b :: l3) =
                filter p l1 ++ a :: b :: filter p l3).
    { rewrite filter_app; simpl. rewrite Ha, filter_app, E2; simpl.
      rewrite Hb. reflexivity. }
    rewrite E. split.
    + rewrite nth_error_app2, Nat.sub_diag by lia. reflexivity.
    + rewrite nth_error_app2 by lia.
      replace (S _ - _)%nat with 1%nat by lia. reflexivity.
Qed.

Section GapsAlongInput.

Context `{Libm}.

Lemma pair_gap_length (line_name branch : string) (line_stations : list station)
    (i : Z) (l : list (GapRecord * feature)) :
  pair_gap line_name branch line_stations i = OK l -> (List.length l <= 1)%nat.
Proof.
  unfold pair_gap. intros E.
  inv_bind E. inv_bind E. inv_bind E. injection E as <-.
  destruct (_ <=? _)%float; simpl; lia.
Qed.

Lemma concat_length_le {A : Type} (ls : list (list A)) (n : nat) :
  (forall l, In l ls -> List.length l <= n)%nat ->
  (List.length (List.concat ls) <= n * List.length ls)%nat.
Proof.
  induction ls as [|l ls IH]; simpl; intros Hl; [lia|].
  rewrite length_app.
  specialize (IH (fun l' H' => Hl l' (or_intror H'))).
  specialize (Hl l (or_introl eq_refl)). lia.
Qed.

Lemma group_gaps_length (g : group_key * list station)
    (l : list (GapRecord * feature)) :
  group_gaps g = OK l -> (List.length l <= List.length (snd g) - 1)%nat.
Proof.
  unfold group_gaps. intros E. inv_bind E. injection E as <-.
  pose proof (map_m_length _ _ _ E0) as Hlen.
  rewrite length_range in Hlen.
  assert (Hle : (List.length (List.concat v) <= 1 * List.length v)%nat).
  { apply concat_length_le. intros l Hl.
    apply (map_m_In _ _ _ E0) in Hl. destruct Hl as (i & _ & Hi).
    exact (pair_gap_length _ _ _ _ _ Hi). }
  lia.
Qed.

Lemma groups_gaps_length (groups : list (group_key * list station))
    (ls : list (list (GapRecord * feature))) :
  map_m group_gaps groups = OK ls ->
  (forall g, In g groups -> snd g <> []) ->
  (List.length (List.concat ls) + List.length groups
   <= List.length (List.concat (map snd groups)))%nat.
Proof.
  revert ls. induction groups as [|g groups IH]; intros ls E Hne.
  - injection E as <-. simpl. lia.
  - simpl in E. inv_bind E. inv_bind E. injection E as <-.
    simpl. rewrite !length_app.
    pose proof (group_gaps_length _ _ E0) as Hg.
    specialize (IH _ E1 (fun g' H' => Hne g' (or_intror H'))).
    specialize (Hne g (or_introl eq_refl)).
    destruct (snd g); [congruence|]. simpl in *. lia.
Qed.

End GapsAlongInput.

(** X2.  Run on the groups of a station list, the gap scan reports a gap
    between two stations exactly when they have the same line and branch
    key, no station with that key stands between them in the input (stations
    of other branches may), and their haversine distance is at least the
    5 km threshold.  The record carries the line and branch of the two
    stations.  There are at most as many gaps as stations minus groups. *)
Theorem gaps_join_neighbours_of_a_branch (L : Libm) (stations : list station)
    (gaps_info : list GapRecord) (gap_features : list feature) :
  gap_scan (line_branch_groups stations) = OK (gaps_info, gap_features) ->
  (List.length gaps_info + List.length (line_branch_groups stations)
   <= List.length stations)%nat /\
  forall rec f,
    In (rec, f) (combine gaps_info gap_features) <->
    exists l1 a l2 b l3 dist,
      stations = l1 ++ a :: l2 ++ b :: l3 /\
      station_key b = station_key a /\
      Forall (fun s => station_key s <> station_key a) l2 /\
      haversine_km (lat a) (lng a) (lat b) (lng b) = OK dist /\
      (GAP_THRESHOLD_KM <=? dist)%float = true /\
      rec = gap_record (lineNameEng a) (branch_key a) a b dist /\
      f = gap_feature (lineNameEng a) a b dist.
Proof.
  rewrite gap_scan_emit. intros E. inv_bind E. injection E as <- <-.
  rename v into ls, E0 into E.
  rewrite line_branch_groups_by_key in *.
  set (keys := first_keys (map station_key stations)) in *.
  split.
  { simpl. rewrite length_map.
    assert (Hperm : Permutation
              (List.concat (map snd
                 (map (fun k => (k, members_of k stations)) keys))) stations).
    { rewrite map_map; simpl. apply groups_partition.
      - apply first_keys_NoDup.
      - intros s Hs. apply first_keys_In, in_map, Hs. }
    rewrite <- (Permutation_length Hperm).
    apply (groups_gaps_length _ _ E).
    intros g Hin. apply in_map_iff in Hin. destruct Hin as (k & <- & Hk).
    apply members_of_nonempty. apply first_keys_In, Hk. }
  intros rec f. simpl. rewrite combine_emit, in_concat. split.
  - intros (l & Hl & Hin).
    apply (map_m_In _ _ _ E) in Hl. destruct Hl as (g & Hg & Eg).
    apply in_map_iff in Hg. destruct Hg as (k & <- & Hk).
    apply (group_gaps_In _ _ rec f Eg) in Hin.
    destruct Hin as (i & a & b & dist & Hab & Hd & Hge & -> & ->).
    cbn [fst snd] in *.
    destruct (proj1 (filter_consecutive _ _ a b) (ex_intro _ i Hab))
      as (l1 & l2 & l3 & Hst & Ha & Hb & Hl2).
    apply key_eqb_eq in Ha, Hb. subst k.
    exists l1, a, l2, b, l3, dist.
    repeat split; auto.
    eapply Forall_impl; [|exact Hl2]. simpl. intros s Hs.
    apply key_eqb_neq in Hs. congruence.
  - intros (l1 & a & l2 & b & l3 & dist & Hst & Hkey & Hl2 & Hd & Hge & -> & ->).
    set (k := station_key a).
    assert (Hk : In k keys).
    { apply first_keys_In, in_map. rewrite Hst. apply in_or_app. simpl; auto. }
    assert (Hg : In (k, members_of k stations)
                   (map (fun k => (k, members_of k stations)) keys))
      by (apply in_map_iff; exists k; auto).
    destruct (In_nth_error _ _ Hg) as (n & Hn).
    destruct (map_m_nth _ _ _ E n _ Hn) as (l & El & Hl).
    exists l. split; [exact (nth_error_In _ _ Hl)|].
    apply (group_gaps_In _ _ _ _ El). cbn [fst snd].
    assert (Hcons : exists i, consecutive (members_of k stations) i a b).
    { apply filter_consecutive. exists l1, l2, l3.
      split; [exact Hst|]. split; [apply key_eqb_refl|].
      split; [apply key_eqb_eq; auto|].
      eapply Forall_impl; [|exact Hl2]. simpl. intros s Hs.
      apply key_eqb_neq. unfold k. congruence. }
    destruct Hcons as (i & Hi).
    exists i, a, b, dist. repeat split; auto; apply Hi.
Qed.

Lemma gaps_join_neighbours_of_a_branch_witness :
  exists gaps_info gap_features,
    @gap_scan RefLibm.libm (line_branch_groups two_branches)
      = OK (gaps_info, gap_features) /\
    (List.length gaps_info + List.length (line_branch_groups two_branches)
     <= List.length two_branches)%nat.
Proof.
  destruct (@gap_scan RefLibm.libm (line_branch_groups two_branches))
    as [[gaps_info gap_features]|] eqn:E.
  - exists gaps_info, gap_features. split; [reflexivity|].
    apply (gaps_join_neighbours_of_a_branch RefLibm.libm _ _ _ E).
  - exfalso.
    assert (Hok : is_ok (@gap_scan RefLibm.libm (line_branch_groups two_branches))
                  = true) by (vm_compute; reflexivity).
    rewrite E in Hok. discriminate.
Defined.

(** ** The covered cells *)

Lemma cell_covered_true (x y : float) (skm : list (float * float)) :
  cell_covered x y skm = OK true ->
  existsb (within_buffer x y) skm = true.
Proof.
  induction skm as [|s rest IH]; [discriminate|].
  rewrite cell_covered_cons. intros E. inv_bind E. simpl.
  unfold within_buffer at 1. rewrite E0.
  destruct v; [reflexivity|]. apply IH, E.
Qed.

Lemma cell_covered_false (x y : float) (skm : list (float * float)) :
  cell_covered x y skm = OK false ->
  Forall (fun s => in_buffer x y s = OK false) skm.
Proof.
  induction skm as [|s rest IH]; [constructor|].
  rewrite cell_covered_cons. intros E. inv_bind E.
  destruct v; [discriminate|]. constructor; [exact E0 | apply IH, E].
Qed.

Lemma cell_covered_existsb (x y : float) (skm : list (float * float))
    (hit : bool) :
  cell_covered x y skm = OK hit -> hit = existsb (within_buffer x y) skm.
Proof.
  destruct hit; intros E.
  - symmetry. apply cell_covered_true, E.
  - apply cell_covered_false in E.
    induction E as [|s rest Hs _ IH]; [reflexivity|].
    simpl. unfold within_buffer at 1. rewrite Hs. exact IH.
Qed.

Lemma existsb_Permutation {A : Type} (p : A -> bool) (l l' : list A) :
  Permutation l l' -> existsb p l = existsb p l'.
Proof.
  induction 1; simpl.
  - reflexivity.
  - f_equal; assumption.
  - destruct (p x), (p y); reflexivity.
  - congruence.
Qed.

Lemma count_row (skm : list (float * float)) (r : Z) (cs : list Z) :
  forall n m,
    for_each cs (count_cell skm (cell_center r)) n = OK m ->
    m = n + Z.of_nat (List.length
          (filter (fun rc => existsb (within_buffer (cell_center (snd rc))
                                                    (cell_center (fst rc))) skm)
                  (map (fun c => (r, c)) cs))).
Proof.
  induction cs as [|c cs IH]; intros n m E.
  - injection E as <-. simpl. lia.
  - simpl in E. inv_bind E. unfold count_cell in E0. inv_bind E0.
    injection E0 as <-. apply cell_covered_existsb in E1.
    apply IH in E. simpl. rewrite <- E1.
    destruct v0; simpl in *; lia.
Qed.

Lemma count_rows (skm : list (float * float)) (cols : Z) (rs : list Z) :
  forall n m,
    for_each rs (fun r covered =>
      for_each (range cols) (count_cell skm (cell_center r)) covered) n = OK m ->
    m = n + Z.of_nat (List.length
          (filter (fun rc => existsb (within_buffer (cell_center (snd rc))
                                                    (cell_center (fst rc))) skm)
                  (list_prod rs (range cols)))).
Proof.
  induction rs as [|r rs IH]; intros n m E.
  - injection E as <-. simpl. lia.
  - simpl in E. inv_bind E. apply count_row in E0. apply IH in E.
    simpl. rewrite filter_app, length_app. lia.
Qed.

Lemma covered_cells_count (rows cols : Z) (skm : list (float * float)) (n : Z) :
  covered_cells rows cols skm = OK n ->
  n = Z.of_nat (List.length (cells_in_some_buffer rows cols skm)).
Proof.
  intros E. apply (count_rows skm cols (range rows) 0 n). exact E.
Qed.

(** X3.  The covered-cell count is the number of grid cells whose centre
    passes the test of line 162 for at least one station: stopping at the
    first hit changes no count.  The count lies between 0 and the number of
    cells of the grid, and it does not depend on the order of the stations
    (when the scan in the other order raises no exception either). *)
Theorem covered_cells_counts_buffered_cells (rows cols : Z)
    (skm : list (float * float)) (n : Z) :
  covered_cells rows cols skm = OK n ->
  n = Z.of_nat (List.length (cells_in_some_buffer rows cols skm)) /\
  0 <= n <= Z.max 0 rows * Z.max 0 cols /\
  (forall r c, In (r, c) (cells_in_some_buffer rows cols skm) <->
     0 <= r < rows /\ 0 <= c < cols /\
     exists s, In s skm /\ in_buffer (cell_center c) (cell_center r) s = OK true) /\
  (forall skm' n', Permutation skm skm' ->
     covered_cells rows cols skm' = OK n' -> n' = n).
Proof.
  intros E. pose proof (covered_cells_count _ _ _ _ E) as Hn.
  split; [exact Hn|]. split; [|split].
  - subst n. split; [lia|].
    unfold cells_in_some_buffer.
    pose proof (filter_length_le
      (fun rc => existsb (within_buffer (cell_center (snd rc))
                                        (cell_center (fst rc))) skm)
      (grid_cells rows cols)) as Hle.
    unfold grid_cells in Hle at 2.
    rewrite length_prod, !length_range in Hle. nia.
  - intros r c. unfold cells_in_some_buffer, grid_cells.
    rewrite filter_In, in_prod_iff, !in_range, existsb_exists. cbn [fst snd].
    split.
    + intros ((Hr & Hc) & s & Hs & Hw). repeat split; try lia.
      exists s. split; [exact Hs|]. unfold within_buffer in Hw.
      destruct (in_buffer _ _ s) as [hit|]; [subst; reflexivity | discriminate].
    + intros (Hr & Hc & s & Hs & Hw). split; [split; assumption|].
      exists s. split; [exact Hs|]. unfold within_buffer. rewrite Hw. reflexivity.
  - intros skm' n' Hperm E'. apply covered_cells_count in E'. subst n n'.
    unfold cells_in_some_buffer. do 2 f_equal.
    apply filter_ext. intros rc. apply existsb_Permutation.
    apply Permutation_sym, Hperm.
Qed.

Lemma covered_cells_counts_buffered_cells_witness :
  exists n,
    covered_cells 21 21 [(1.05, 1.05)%float] = OK n /\
    0 <= n <= Z.max 0 21 * Z.max 0 21.
Proof.
  destruct (covered_cells 21 21 [(1.05, 1.05)%float]) as [n|] eqn:E.
  - exists n. split; [reflexivity|].
    apply (covered_cells_counts_buffered_cells _ _ _ _ E).
  - exfalso.
    assert (Hok : is_ok (covered_cells 21 21 [(1.05, 1.05)%float]) = true)
      by (vm_compute; reflexivity).
    rewrite E in Hok. discriminate.
Defined.

(** ** Smallest and largest item *)

Lemma ltb_true_not_nan (x y : float) :
  (x <? y)%float = true -> is_nan x = false /\ is_nan y = false.
Proof.
  rewrite ltb_spec. intros E. apply SFltb_true_not_nan in E.
  split; apply not_nan_Prim2SF; tauto.
Qed.

Lemma fold_min_spec (rest : list float) :
  forall x m,
    fold_left (fun m y => if (y <? m)%float then y else m) rest x = m ->
    In m (x :: rest) /\
    (is_nan m = false ->
     is_nan x = false /\
     forall z, In z (x :: rest) -> (z <? m)%float = false).
Proof.
  induction rest as [|y rest IH]; intros x m E.
  - simpl in E; subst m. split; [simpl; auto|].
    intros Hm. split; [exact Hm|].
    intros z [<-|[]]. apply ltb_irrefl.
  - simpl in E. apply IH in E. destruct E as (Hin & Hmin).
    destruct (y <? x)%float eqn:Eyx.
    + split; [simpl in *; tauto|].
      intros Hm. destruct (Hmin Hm) as (Hy & Hall).
      destruct (ltb_true_not_nan _ _ Eyx) as (_ & Hx).
      split; [exact Hx|].
      intros z [<-|[<-|Hz]].
      * apply (not_ltb_trans x y m Hy); [apply ltb_asym, Eyx|].
        apply Hall; simpl; auto.
      * apply Hall; simpl; auto.
      * apply Hall; simpl; auto.
    + split; [simpl in *; tauto|].
      intros Hm. destruct (Hmin Hm) as (Hx & Hall).
      split; [exact Hx|].
      intros z [<-|[<-|Hz]].
      * apply Hall; simpl; auto.
      * apply (not_ltb_trans y x m Hx Eyx). apply Hall; simpl; auto.
      * apply Hall; simpl; auto.
Qed.

Lemma fold_max_spec (rest : list float) :
  forall x m,
    fold_left (fun m y => if (m <? y)%float then y else m) rest x = m ->
    In m (x :: rest) /\
    (is_nan m = false ->
     is_nan x = false /\
     forall z, In z (x :: rest) -> (m <? z)%float = false).
Proof.
  induction rest as [|y rest IH]; intros x m E.
  - simpl in E; subst m. split; [simpl; auto|].
    intros Hm. split; [exact Hm|].
    intros z [<-|[]]. apply ltb_irrefl.
  - simpl in E. apply IH in E. destruct E as (Hin & Hmax).
    destruct (x <? y)%float eqn:Exy.
    + split; [simpl in *; tauto|].
      intros Hm. destruct (Hmax Hm) as (Hy & Hall).
      destruct (ltb_true_not_nan _ _ Exy) as (Hx & _).
      split; [exact Hx|].
      intros z [<-|[<-|Hz]].
      * apply (not_ltb_trans m y x Hy); [|apply ltb_asym, Exy].
        apply Hall; simpl; auto.
      * apply Hall; simpl; auto.
      * apply Hall; simpl; auto.
    + split; [simpl in *; tauto|].
      intros Hm. destruct (Hmax Hm) as (Hx & Hall).
      split; [exact Hx|].
      intros z [<-|[<-|Hz]].
      * apply Hall; simpl; auto.
      * apply (not_ltb_trans m x y Hx); [|exact Exy]. apply Hall; simpl; auto.
      * apply Hall; simpl; auto.
Qed.

Lemma min_spec (xs : list float) (m : float) :
  Py.min xs = OK m ->
  In m xs /\
  (is_nan m = false -> forall z, In z xs -> (z <? m)%float = false).
Proof.
  destruct xs as [|x rest]; [discriminate|].
  intros [= E]. apply fold_min_spec in E. destruct E as (Hin & Hmin).
  split; [exact Hin|]. intros Hm. apply (Hmin Hm).
Qed.

Lemma max_spec (xs : list float) (m : float) :
  Py.max xs = OK m ->
  In m xs /\
  (is_nan m = false -> forall z, In z xs -> (m <? z)%float = false).
Proof.
  destruct xs as [|x rest]; [discriminate|].
  intros [= E]. apply fold_max_spec in E. destruct E as (Hin & Hmax).
  split; [exact Hin|]. intros Hm. apply (Hmax Hm).
Qed.

(** ** The nearest station *)

Lemma cell_min_dist_planar (x_km y_km : float) (skm : list (float * float)) :
  cell_min_dist x_km y_km skm =
  (ds <- map_m (planar_distance x_km y_km) skm ;; Py.min ds).
Proof.
  unfold cell_min_dist. f_equal.
  assert (E : forall l, map_m (fun s : float * float =>
              let (sy, sx) := s in
              dx2 <- pow2 (x_km - sx) ;;
              dy2 <- pow2 (y_km - sy) ;;
              Py.sqrt (dx2 + dy2)) l = map_m (planar_distance x_km y_km) l).
  { induction l as [|(sy, sx) l IH]; [reflexivity|].
    simpl. rewrite IH. reflexivity. }
  apply E.
Qed.

Lemma leb_true_not_gt (x y : float) :
  (x <=? y)%float = true -> (y <? x)%float = false.
Proof.
  rewrite leb_spec, ltb_spec. unfold SFleb, SFltb.
  destruct (SFcompare (Prim2SF x) (Prim2SF y)) as [[| |]|] eqn:E;
    try discriminate; intros _.
  - destruct (SFcompare (Prim2SF y) (Prim2SF x)) as [[| |]|] eqn:E';
      try reflexivity.
    apply SFcompare_Lt_Gt in E'. congruence.
  - rewrite (SFcompare_Lt_Gt _ _ E). reflexivity.
Qed.

(** X4.  The distance computed for a sampled cell is the distance to one
    of the stations, every station has a distance, and when the result is
    not NaN no station is nearer.  So a cell that passes the 5 km threshold
    has no station within 5 km (planar distance, as computed). *)
Theorem cell_min_dist_is_nearest (x_km y_km : float)
    (skm : list (float * float)) (min_dist : float) :
  cell_min_dist x_km y_km skm = OK min_dist ->
  (exists s, In s skm /\ planar_distance x_km y_km s = OK min_dist) /\
  (forall s, In s skm -> exists d, planar_distance x_km y_km s = OK d) /\
  (is_nan min_dist = false ->
   forall s d, In s skm -> planar_distance x_km y_km s = OK d ->
     (d <? min_dist)%float = false) /\
  ((GAP_THRESHOLD_KM <=? min_dist)%float = true ->
   forall s d, In s skm -> planar_distance x_km y_km s = OK d ->
     (d <? GAP_THRESHOLD_KM)%float = false).
Proof.
  rewrite cell_min_dist_planar. intros E. inv_bind E.
  rename v into ds, E0 into Eds.
  destruct (min_spec _ _ E) as (Hin & Hmin).
  assert (Hnear : is_nan min_dist = false ->
            forall s d, In s skm -> planar_distance x_km y_km s = OK d ->
              (d <? min_dist)%float = false).
  { intros Hm s d Hs Hd. apply (Hmin Hm).
    apply (map_m_In _ _ _ Eds). exists s. auto. }
  split; [|split; [|split]].
  - apply (map_m_In _ _ _ Eds) in Hin. exact Hin.
  - intros s Hs. destruct (In_nth_error _ _ Hs) as (i & Hi).
    destruct (map_m_nth _ _ _ Eds i s Hi) as (d & Hd & _). exists d; exact Hd.
  - exact Hnear.
  - intros Hge s d Hs Hd.
    pose proof (leb_true_not_nan _ _ Hge) as Hm.
    apply (not_ltb_trans d min_dist GAP_THRESHOLD_KM Hm).
    + exact (Hnear Hm s d Hs Hd).
    + apply leb_true_not_gt, Hge.
Qed.

(** ** The order of the stations *)

Lemma not_lt_both (x y : float) :
  is_nan x = false -> is_nan y = false ->
  (x <? y)%float = false -> (y <? x)%float = false ->
  x = y \/
  (exists sx sy, Prim2SF x = S754_zero sx /\ Prim2SF y = S754_zero sy).
Proof.
  intros Hx Hy Fxy Fyx.
  apply Prim2SF_not_nan in Hx, Hy. rewrite ltb_spec in Fxy, Fyx.
  assert (Hxy : ~ rank_lt (SF_rank (Prim2SF x)) (SF_rank (Prim2SF y))).
  { intros F; apply (SFltb_rank _ _ Hx Hy) in F. congruence. }
  assert (Hyx : ~ rank_lt (SF_rank (Prim2SF y)) (SF_rank (Prim2SF x))).
  { intros F; apply (SFltb_rank _ _ Hy Hx) in F. congruence. }
  assert (E : SF_rank (Prim2SF x) = SF_rank (Prim2SF y)).
  { destruct (SF_rank (Prim2SF x)) as ((x1, x2), x3).
    destruct (SF_rank (Prim2SF y)) as ((y1, y2), y3).
    unfold rank_lt in *.
    assert (x1 = y1) by lia. assert (x2 = y2) by lia. assert (x3 = y3) by lia.
    congruence. }
  clear Fxy Fyx Hxy Hyx.
  destruct (Prim2SF x) as [sx | sx | | sx mx ex] eqn:Ex;
    destruct (Prim2SF y) as [sy | sy | | sy my ey] eqn:Ey;
    try (contradiction Hx; reflexivity); try (contradiction Hy; reflexivity);
    try (right; exists sx, sy; split; reflexivity);
    left; apply Prim2SF_inj; rewrite Ex, Ey; clear Ex Ey Hx Hy;
    destruct sx, sy; simpl in E; try discriminate E; try reflexivity;
    injection E as E1 E2; f_equal; lia.
Qed.

Lemma sub_same_number (x y d : float) (s : bool) (m : positive) (e : Z) :
  Prim2SF d = S754_finite s m e ->
  x = y \/
  (exists sx sy, Prim2SF x = S754_zero sx /\ Prim2SF y = S754_zero sy) ->
  (x - d = y - d)%float.
Proof.
  intros Hd [-> | (sx & sy & Hx & Hy)]; [reflexivity|].
  apply Prim2SF_inj. rewrite !sub_spec, Hx, Hy, Hd. reflexivity.
Qed.

Lemma add_same_number (x y d : float) (s : bool) (m : positive) (e : Z) :
  Prim2SF d = S754_finite s m e ->
  x = y \/
  (exists sx sy, Prim2SF x = S754_zero sx /\ Prim2SF y = S754_zero sy) ->
  (x + d = y + d)%float.
Proof.
  intros Hd [-> | (sx & sy & Hx & Hy)]; [reflexivity|].
  apply Prim2SF_inj. rewrite !add_spec, Hx, Hy, Hd. reflexivity.
Qed.

Lemma min_Permutation (xs xs' : list float) (m m' : float) :
  Permutation xs xs' -> Forall (fun x => is_nan x = false) xs ->
  Py.min xs = OK m -> Py.min xs' = OK m' ->
  m = m' \/
  (exists s s', Prim2SF m = S754_zero s /\ Prim2SF m' = S754_zero s').
Proof.
  intros Hp Hnn E E'.
  destruct (min_spec _ _ E) as (Hin & Hmin).
  destruct (min_spec _ _ E') as (Hin' & Hmin').
  rewrite Forall_forall in Hnn.
  assert (Hm : is_nan m = false) by (apply Hnn, Hin).
  assert (Hm' : is_nan m' = false).
  { apply Hnn. apply (Permutation_in _ (Permutation_sym Hp)), Hin'. }
  apply not_lt_both; auto.
  - apply (Hmin' Hm'). apply (Permutation_in _ Hp), Hin.
  - apply (Hmin Hm). apply (Permutation_in _ (Permutation_sym Hp)), Hin'.
Qed.

Lemma max_Permutation (xs xs' : list float) (m m' : float) :
  Permutation xs xs' -> Forall (fun x => is_nan x = false) xs ->
  Py.max xs = OK m -> Py.max xs' = OK m' ->
  m = m' \/
  (exists s s', Prim2SF m = S754_zero s /\ Prim2SF m' = S754_zero s').
Proof.
  intros Hp Hnn E E'.
  destruct (max_spec _ _ E) as (Hin & Hmax).
  destruct (max_spec _ _ E') as (Hin' & Hmax').
  rewrite Forall_forall in Hnn.
  assert (Hm : is_nan m = false) by (apply Hnn, Hin).
  assert (Hm' : is_nan m' = false).
  { apply Hnn. apply (Permutation_in _ (Permutation_sym Hp)), Hin'. }
  apply not_lt_both; auto.
  - apply (Hmax Hm). apply (Permutation_in _ (Permutation_sym Hp)), Hin'.
  - apply (Hmax' Hm'). apply (Permutation_in _ Hp), Hin.
Qed.

Lemma bounding_box_Permutation (stations stations' : list station)
    (b b' : bbox) :
  Permutation stations stations' -> coordinates_not_nan stations ->
  bounding_box stations = OK b -> bounding_box stations' = OK b' ->
  b' = b.
Proof.
  intros Hp Hnn E E'. unfold bounding_box in E, E'.
  inv_bind E. inv_bind E. inv_bind E. inv_bind E. injection E as <-.
  inv_bind E'. inv_bind E'. inv_bind E'. inv_bind E'. injection E' as <-.
  assert (Hlat : Forall (fun x => is_nan x = false) (map lat stations)).
  { apply Forall_map. eapply Forall_impl; [|exact Hnn]. simpl; tauto. }
  assert (Hlng : Forall (fun x => is_nan x = false) (map lng stations)).
  { apply Forall_map. eapply Forall_impl; [|exact Hnn]. simpl; tauto. }
  assert (Dlat : exists s m e, Prim2SF (BUFFER_KM / KM_PER_DEG_LAT)%float =
                                S754_finite s m e)
    by (vm_compute; do 3 eexists; reflexivity).
  assert (Dlng : exists s m e, Prim2SF (BUFFER_KM / KM_PER_DEG_LNG)%float =
                                S754_finite s m e)
    by (vm_compute; do 3 eexists; reflexivity).
  destruct Dlat as (s1 & m1 & e1 & Dlat), Dlng as (s2 & m2 & e2 & Dlng).
  pose proof (min_Permutation _ _ _ _ (Permutation_map lat Hp) Hlat E0 E).
  pose proof (max_Permutation _ _ _ _ (Permutation_map lat Hp) Hlat E1 E4).
  pose proof (min_Permutation _ _ _ _ (Permutation_map lng Hp) Hlng E2 E5).
  pose proof (max_Permutation _ _ _ _ (Permutation_map lng Hp) Hlng E3 E6).
  f_equal; symmetry.
  - eapply sub_same_number; eauto.
  - eapply add_same_number; eauto.
  - eapply sub_same_number; eauto.
  - eapply add_same_number; eauto.
Qed.

Lemma coverage_Permutation (stations stations' : list station)
    (r r' : CoverageResult) :
  Permutation stations stations' -> coordinates_not_nan stations ->
  coverage stations = OK r -> coverage stations' = OK r' ->
  r' = r.
Proof.
  intros Hp Hnn E E'.
  destruct (coverage_OK _ _ E) as (Hb & Hrows & Hcols & Hcov).
  destruct (coverage_OK _ _ E') as (Hb' & Hrows' & Hcols' & Hcov').
  pose proof (bounding_box_Permutation _ _ _ _ Hp Hnn Hb Hb') as Eb.
  rewrite Eb in Hrows', Hcols', Hcov'.
  assert (Er : cr_n_rows r' = cr_n_rows r) by congruence.
  assert (Ec : cr_n_cols r' = cr_n_cols r) by congruence.
  rewrite Er, Ec in Hcov'.
  assert (En : cr_covered_cells r' = cr_covered_cells r).
  { apply covered_cells_count in Hcov, Hcov'. rewrite Hcov, Hcov'.
    unfold cells_in_some_buffer. do 2 f_equal.
    apply filter_ext. intros rc. apply existsb_Permutation.
    unfold stations_km. apply Permutation_map, Permutation_sym, Hp. }
  unfold coverage in E, E'.
  inv_bind E. inv_bind E. inv_bind E. inv_bind E. inv_bind E. inv_bind E.
  inv_bind E'. inv_bind E'. inv_bind E'. inv_bind E'. inv_bind E'. inv_bind E'.
  injection E as <-. injection E' as <-. simpl in *.
  congruence.
Qed.

(** X5.  The coverage result does not depend on the order of the stations
    in the input, provided no coordinate is NaN and both runs finish: the
    bounding box, the grid, the covered-cell count and the area are the
    same. *)
Theorem coverage_independent_of_station_order (stations stations' : list station)
    (r r' : CoverageResult) :
  Permutation stations stations' ->
  coordinates_not_nan stations ->
  coverage stations = OK r ->
  coverage stations' = OK r' ->
  bounding_box stations' = bounding_box stations /\ r' = r.
Proof.
  intros Hp Hnn E E'. split; [|exact (coverage_Permutation _ _ _ _ Hp Hnn E E')].
  destruct (coverage_OK _ _ E) as (Hb & _).
  destruct (coverage_OK _ _ E') as (Hb' & _).
  rewrite Hb, Hb'. f_equal.
  exact (bounding_box_Permutation _ _ _ _ Hp Hnn Hb Hb').
Qed.

Lemma coverage_independent_of_station_order_witness :
  exists r,
    coverage [station_A; station_NE] = OK r /\
    coverage [station_NE; station_A] = OK r.
Proof.
  destruct (coverage [station_A; station_NE]) as [r |] eqn:E;
    [| exfalso; vm_compute in E; discriminate E].
  destruct (coverage [station_NE; station_A]) as [r' |] eqn:E';
    [| exfalso; vm_compute in E'; discriminate E'].
  exists r. split; [reflexivity|]. f_equal.
  apply (coverage_independent_of_station_order
           [station_A; station_NE] [station_NE; station_A] r r').
  - apply perm_swap.
  - repeat constructor.
  - exact E.
  - exact E'.
Defined.

Lemma cell_min_dist_is_nearest_witness :
  exists min_dist s,
    cell_min_dist 0.05 0.05 [(1, 1); (3, 4)]%float = OK min_dist /\
    In s [(1, 1); (3, 4)]%float /\
    planar_distance 0.05 0.05 s = OK min_dist.
Proof.
  destruct (cell_min_dist 0.05 0.05 [(1, 1); (3, 4)]%float)
    as [min_dist|] eqn:E; [| exfalso; vm_compute in E; discriminate E].
  destruct (proj1 (cell_min_dist_is_nearest _ _ _ _ E)) as (s & Hs & Hd).
  exists min_dist, s. split; [reflexivity|]. split; assumption.
Defined.

(** ** The station buffers *)

Lemma angles_ok_64 : angles_ok 64 = true.
Proof. vm_compute; reflexivity. Qed.

Lemma angles_ok_48 : angles_ok 48 = true.
Proof. vm_compute; reflexivity. Qed.

Section Buffers.

Context `{Libm}.

Lemma buffer_ring_OK (s : station) :
  circle_polygon (lat s) (lng s) BUFFER_KM 64 = OK (buffer_ring s) /\
  List.length (buffer_ring s) = 65%nat.
Proof.
  destruct (circle_polygon_vertices (lat s) (lng s) BUFFER_KM 64
              ltac:(lia) angles_ok_64) as (ring & E & Hlen & _).
  unfold buffer_ring. rewrite E. split; [reflexivity | exact Hlen].
Qed.

Lemma station_buffers_acc (stations : list station) :
  forall st,
    for_each stations station_step st =
    OK (fst st ++ flat_map (fun s => [station_point_feature s;
                                      station_buffer_feature s (buffer_ring s)])
                           stations,
        snd st ++ map buffer_ring stations).
Proof.
  induction stations as [|s l IH]; intros (fs, rs);
    cbn [for_each flat_map map fst snd].
  - rewrite !app_nil_r. reflexivity.
  - unfold station_step at 1.
    rewrite (proj1 (buffer_ring_OK s)). cbn [bind fst snd].
    rewrite IH. cbn [fst snd]. rewrite <- !app_assoc. reflexivity.
Qed.

Lemma nth_error_flat_map_pair {A B : Type} (f g : A -> B) (l : list A)
    (i : nat) (a : A) :
  nth_error l i = Some a ->
  nth_error (flat_map (fun x => [f x; g x]) l) (2 * i) = Some (f a) /\
  nth_error (flat_map (fun x => [f x; g x]) l) (2 * i + 1) = Some (g a).
Proof.
  revert i. induction l as [|x l IH]; intros i Hi; [destruct i; discriminate|].
  destruct i as [|i].
  - injection Hi as ->. split; reflexivity.
  - simpl in Hi. destruct (IH i Hi) as (H1 & H2).
    replace (2 * S i)%nat with (S (S (2 * i))) by lia.
    replace (S (S (2 * i)) + 1)%nat with (S (S (2 * i + 1))) by lia.
    simpl. split; assumption.
Qed.

Lemma length_flat_map_pair {A B : Type} (f g : A -> B) (l : list A) :
  List.length (flat_map (fun x => [f x; g x]) l) = (2 * List.length l)%nat.
Proof. induction l as [|x l IH]; simpl; [reflexivity | rewrite IH; lia]. Qed.

End Buffers.

(** X6.  The buffer stage (lines 82-122) never fails, whatever the
    coordinates: every station gets a ring of 65 vertices
    ([circle_polygon] with the default 64 points and radius [BUFFER_KM]),
    and [station_features] holds two features per station in the order of
    the input, the point at [[lng, lat]] and then the buffer polygon with
    that ring and [radius_km] 1. *)
Theorem station_buffers_never_fail (L : Libm) (stations : list station) :
  exists station_features buffer_polygons,
    station_buffers stations = OK (station_features, buffer_polygons) /\
    List.length buffer_polygons = List.length stations /\
    List.length station_features = (2 * List.length stations)%nat /\
    forall i s, nth_error stations i = Some s ->
      exists ring,
        circle_polygon (lat s) (lng s) BUFFER_KM 64 = OK ring /\
        List.length ring = 65%nat /\
        nth_error buffer_polygons i = Some ring /\
        nth_error station_features (2 * i) =
          Some (station_feature (stationId s) (nameEng s) (name s)
                  (lineNameEng s) (lineServiceName s) (lineColorHex s)
                  (lng s, lat s)) /\
        nth_error station_features (2 * i + 1) =
          Some (buffer_1km (stationId s) (nameEng s) (lineNameEng s)
                  (lineColorHex s) 1 ring).
Proof.
  unfold station_buffers. rewrite station_buffers_acc. cbn [fst snd app].
  eexists _, _. split; [reflexivity|].
  split; [apply length_map|]. split; [apply length_flat_map_pair|].
  intros i s Hi. exists (buffer_ring s).
  destruct (buffer_ring_OK s) as (E & Hlen).
  split; [exact E|]. split; [exact Hlen|].
  split; [apply map_nth_error, Hi|].
  apply (nth_error_flat_map_pair station_point_feature
           (fun s => station_buffer_feature s (buffer_ring s)) _ _ _ Hi).
Qed.

(** ** The hull of a non-empty list *)

Lemma set_of_acc_nonempty (points seen : list point) :
  seen <> [] ->
  fold_left (fun seen p =>
    if existsb (point_eqb p) seen then seen else seen ++ [p]) points seen <> [].
Proof.
  revert seen. induction points as [|p l IH]; intros seen Hs; [exact Hs|].
  simpl. apply IH. destruct (existsb _ seen); [exact Hs|].
  destruct seen; discriminate.
Qed.

Lemma set_of_nonempty (points : list point) :
  points <> [] -> set_of points <> [].
Proof.
  destruct points as [|p l]; [congruence|]. intros _.
  unfold set_of. simpl. apply set_of_acc_nonempty. discriminate.
Qed.

Lemma insert_point_length (p : point) (l : list point) :
  List.length (insert_point p l) = S (List.length l).
Proof.
  induction l as [|q l IH]; simpl; [reflexivity|].
  destruct (point_ltb q p); simpl; [rewrite IH|]; reflexivity.
Qed.

Lemma sorted_length (l : list point) : List.length (sorted l) = List.length l.
Proof.
  induction l as [|p l IH]; simpl; [reflexivity|].
  rewrite insert_point_length, IH. reflexivity.
Qed.

Lemma pop_while_nonempty (stack : list point) (p : point) :
  stack <> [] -> pop_while stack p <> [].
Proof.
  induction stack as [|top below IH]; [congruence|]. intros _.
  simpl. destruct below as [|under rest]; [discriminate|].
  destruct (cross under top p <=? 0)%float; [|discriminate].
  apply IH. discriminate.
Qed.

Lemma scan_two (points stack : list point) :
  (2 <= List.length stack + List.length points)%nat ->
  stack <> [] \/ points <> [] ->
  (2 <= List.length (fold_left (fun stack p => p :: pop_while stack p)
                               points stack))%nat.
Proof.
  revert stack. induction points as [|p l IH]; intros stack Hlen Hne.
  - simpl in *. lia.
  - simpl. destruct stack as [|top below].
    + simpl in Hlen. destruct l as [|q l'].
      * simpl in Hlen. lia.
      * apply IH; [simpl; lia | left; discriminate].
    + assert (Hpop : pop_while (top :: below) p <> [])
        by (apply pop_while_nonempty; discriminate).
      destruct (pop_while (top :: below) p) as [|t b] eqn:E; [congruence|].
      apply IH; [simpl; lia | left; discriminate].
Qed.

Lemma chain_two (points : list point) :
  (2 <= List.length points)%nat -> (2 <= List.length (chain points))%nat.
Proof.
  intros Hlen. unfold chain. rewrite length_rev.
  apply scan_two; [simpl; lia|].
  right. destruct points; [simpl in Hlen; lia | discriminate].
Qed.

Lemma convex_hull_nonempty (points : list point) :
  points <> [] -> convex_hull points <> [].
Proof.
  intros Hne. unfold convex_hull.
  pose proof (set_of_nonempty _ Hne) as Hs.
  pose proof (sorted_length (set_of points)) as Hlen.
  destruct (List.length (sorted (set_of points)) <=? 1)%nat eqn:E.
  - intros E0. rewrite E0 in Hlen. apply Hs, length_zero_iff_nil.
    simpl in Hlen. lia.
  - apply Nat.leb_gt in E.
    pose proof (chain_two (sorted (set_of points)) ltac:(lia)) as Hc.
    destruct (chain (sorted (set_of points))) as [|a [|b l]];
      simpl in Hc; try lia.
    discriminate.
Qed.

Lemma hull_coords_nonempty (stations : list station) :
  stations <> [] -> exists ring, hull_coords stations = OK ring.
Proof.
  intros Hne. unfold hull_coords. rewrite map_pair_id.
  assert (Hh : convex_hull (map (fun s => (lng s, lat s)) stations) <> []).
  { apply convex_hull_nonempty.
    destruct stations; [exfalso; apply Hne; reflexivity | discriminate]. }
  unfold point in *.
  set (hull := convex_hull _) in *. clearbody hull.
  destruct hull as [|first rest]; [exfalso; apply Hh; reflexivity|].
  eexists. reflexivity.
Qed.

(** ** The document *)

Section Document.

Context `{Libm}.

Lemma desert_zone_features_total (zones : list desert_cell) :
  forall i, exists fs, desert_zone_features i zones = OK fs.
Proof.
  induction zones as [|dz l IH]; intros i; [eexists; reflexivity|].
  cbn [desert_zone_features].
  destruct (circle_polygon_vertices (dc_lat dz) (dc_lng dz)
              DESERT_ZONE_RADIUS_KM 48 ltac:(lia) angles_ok_48)
    as (ring & E & _).
  rewrite E. destruct (IH (i + 1)) as (fs & Efs). rewrite Efs.
  eexists; reflexivity.
Qed.

Lemma station_buffers_OK (stations : list station) :
  station_buffers stations =
  OK (flat_map (fun s => [station_point_feature s;
                          station_buffer_feature s (buffer_ring s)]) stations,
      map buffer_ring stations).
Proof. unfold station_buffers. rewrite station_buffers_acc. reflexivity. Qed.

Lemma coverage_nonempty (stations : list station) (cov : CoverageResult) :
  coverage stations = OK cov -> stations <> [].
Proof. intros E ->. discriminate E. Qed.

Lemma analysis_stages (stations : list station) :
  analysis stations =
  (cov <- coverage stations ;;
   '(gaps_info, gap_features) <- gap_scan (line_branch_groups stations) ;;
   '(zones, zone_features) <- isolation_scan stations ;;
   hull <- hull_coords stations ;;
   OK {| geo_metadata :=
           {| transit_coverage_sqkm := Py.round (cr_total_coverage_sqkm cov) 2;
              total_stations := Z.of_nat (List.length stations);
              buffer_radius_km := BUFFER_KM;
              gap_threshold_km := GAP_THRESHOLD_KM;
              transit_desert_gaps := gaps_info |};
         features :=
           [network_footprint hull]
             ++ flat_map (fun s => [station_point_feature s;
                                    station_buffer_feature s (buffer_ring s)])
                         stations
             ++ map desert_feature (gap_features ++ zone_features) |}).
Proof.
  unfold analysis. rewrite station_buffers_OK. cbn [bind].
  destruct (coverage stations) as [cov|e] eqn:Ecov; [|reflexivity].
  cbn [bind].
  destruct (gap_scan _) as [(gaps_info, gap_features)|e]; [|reflexivity].
  cbn [bind].
  destruct (coverage_OK _ _ Ecov) as (Hb & Hrows & Hcols & _).
  unfold isolation_scan. rewrite Hb; cbn [bind].
  rewrite Hrows; cbn [bind]. rewrite Hcols; cbn [bind].
  destruct (desert_center_cells _ _ _ _) as [cells|e]; [|reflexivity].
  cbn [bind].
  destruct (desert_zone_features 0 (desert_zones cells)) as [fs|e];
    reflexivity.
Qed.

End Document.

(** X7.  When the script finishes, the document holds the footprint
    first, then for every station, in input order, its point and its buffer,
    then the gap lines, then the desert disks: one feature plus two per
    station plus one per reported gap plus one per desert zone.  The
    metadata carry the coverage rounded to 2 decimals, the number of
    stations (at least one), the two radii and the gap records.  The desert
    scan reuses the grid of the coverage stage. *)
Theorem analysis_document_layout (L : Libm) (stations : list station)
    (doc : geojson) :
  analysis stations = OK doc ->
  exists cov gaps_info gap_features zones zone_features hull,
    coverage stations = OK cov /\
    gap_scan (line_branch_groups stations) = OK (gaps_info, gap_features) /\
    isolation_scan stations = OK (zones, zone_features) /\
    hull_coords stations = OK hull /\
    geo_metadata doc =
      {| transit_coverage_sqkm := Py.round (cr_total_coverage_sqkm cov) 2;
         total_stations := Z.of_nat (List.length stations);
         buffer_radius_km := 1;
         gap_threshold_km := 5;
         transit_desert_gaps := gaps_info |} /\
    0 < total_stations (geo_metadata doc) /\
    List.length (features doc) =
      (1 + 2 * List.length stations + List.length gaps_info
       + List.length zones)%nat /\
    nth_error (features doc) 0 = Some (network_footprint hull) /\
    (forall i s, nth_error stations i = Some s ->
       exists ring,
         circle_polygon (lat s) (lng s) BUFFER_KM 64 = OK ring /\
         nth_error (features doc) (1 + 2 * i) =
           Some (station_point_feature s) /\
         nth_error (features doc) (2 + 2 * i) =
           Some (station_buffer_feature s ring)) /\
    (forall j f, nth_error gap_features j = Some f ->
       nth_error (features doc) (1 + 2 * List.length stations + j) =
         Some (desert_feature f)) /\
    (forall j f, nth_error zone_features j = Some f ->
       nth_error (features doc)
         (1 + 2 * List.length stations + List.length gaps_info + j) =
         Some (desert_feature f)).
Proof.
  rewrite analysis_stages. intros E.
  inv_bind E. rename v into cov, E0 into Ecov.
  inv_bind E. destruct v as (gaps_info, gap_features). rename E0 into Egaps.
  inv_bind E. destruct v as (zones, zone_features). rename E0 into Ezones.
  inv_bind E. rename v into hull, E0 into Ehull.
  injection E as <-.
  exists cov, gaps_info, gap_features, zones, zone_features, hull.
  assert (Hlen_gaps : List.length gap_features = List.length gaps_info).
  { rewrite gap_scan_emit in Egaps. inv_bind Egaps.
    injection Egaps as <- <-. simpl. rewrite !length_map. reflexivity. }
  assert (Hlen_zones : List.length zone_features = List.length zones).
  { apply isolation_scan_OK in Ezones.
    destruct Ezones as (b & rows & cols & cells & _ & _ & _ & _ & _ & Ef).
    apply (desert_zone_features_nth L _ _ _ Ef). }
  set (sf := flat_map (fun s => [station_point_feature s;
                                 station_buffer_feature s (buffer_ring s)])
                      stations).
  assert (Hsf : List.length sf = (2 * List.length stations)%nat)
    by apply length_flat_map_pair.
  cbn [features geo_metadata total_stations].
  repeat (split; [first [assumption | reflexivity] |]).
  split.
  { pose proof (coverage_nonempty _ _ Ecov).
    destruct stations; [congruence | simpl; lia]. }
  split.
  { cbn [app List.length]. rewrite !length_app, !length_map, length_app.
    fold sf. lia. }
  split; [reflexivity|].
  split.
  { intros i s Hi. exists (buffer_ring s).
    split; [apply buffer_ring_OK|].
    destruct (nth_error_flat_map_pair station_point_feature
                (fun s => station_buffer_feature s (buffer_ring s)) _ _ _ Hi)
      as (H1 & H2).
    fold sf in H1, H2.
    assert (Hlt : (2 * i + 1 < List.length sf)%nat).
    { apply nth_error_Some. rewrite H2. discriminate. }
    cbn [app].
    replace (1 + 2 * i)%nat with (S (2 * i)) by lia.
    replace (2 + 2 * i)%nat with (S (2 * i + 1)) by lia.
    cbn [nth_error]. rewrite !nth_error_app1 by lia. split; assumption. }
  split.
  { intros j f Hj. cbn [app].
    replace (1 + 2 * List.length stations + j)%nat
      with (S (List.length sf + j)) by lia.
    cbn [nth_error]. rewrite nth_error_app2 by lia.
    replace (List.length sf + j - List.length sf)%nat with j by lia.
    rewrite map_app, nth_error_app1.
    - apply map_nth_error, Hj.
    - rewrite length_map. apply nth_error_Some. rewrite Hj. discriminate. }
  { intros j f Hj. cbn [app].
    replace (1 + 2 * List.length stations + List.length gaps_info + j)%nat
      with (S (List.length sf + (List.length gap_features + j))) by lia.
    cbn [nth_error]. rewrite nth_error_app2 by lia.
    replace (List.length sf + (List.length gap_features + j)
             - List.length sf)%nat
      with (List.length gap_features + j)%nat by lia.
    rewrite map_app, nth_error_app2 by (rewrite length_map; lia).
    rewrite length_map.
    replace (List.length gap_features + j - List.length gap_features)%nat
      with j by lia.
    apply map_nth_error, Hj. }
Qed.

(** X8.  The script fails only in the coverage stage, the gap scan or the
    sampling of the desert cells, with the exception of the first of these
    that fails; once they succeed the document is produced.  The buffers,
    the disks of the desert zones and the closing of the hull ring never
    fail on their own. *)
Theorem analysis_fails_at_first_failing_stage (L : Libm)
    (stations : list station) :
  ((exists doc, analysis stations = OK doc) <->
   is_ok (coverage stations) = true /\
   is_ok (gap_scan (line_branch_groups stations)) = true /\
   is_ok (candidate_cells stations) = true) /\
  (forall e, analysis stations = Raise e <->
     coverage stations = Raise e \/
     (is_ok (coverage stations) = true /\
      gap_scan (line_branch_groups stations) = Raise e) \/
     (is_ok (coverage stations) = true /\
      is_ok (gap_scan (line_branch_groups stations)) = true /\
      candidate_cells stations = Raise e)).
Proof.
  rewrite analysis_stages.
  assert (Hiso : isolation_scan stations =
                 (cells <- candidate_cells stations ;;
                  fs <- desert_zone_features 0 (desert_zones cells) ;;
                  OK (desert_zones cells, fs))).
  { unfold isolation_scan, candidate_cells.
    destruct (bounding_box stations) as [b|]; [|reflexivity]. cbn [bind].
    destruct (n_rows b) as [rows|]; [|reflexivity]. cbn [bind].
    destruct (n_cols b) as [cols|]; reflexivity. }
  rewrite Hiso.
  destruct (coverage stations) as [cov|e1] eqn:Ecov; cbn [bind is_ok].
  2:{ split; [split; [intros (doc & E); discriminate E | intros (E & _);
                       discriminate E]|].
      intros e; split.
      - intros E; injection E as ->; left; reflexivity.
      - intros [E | [(E1 & E) | (E1 & E2 & E)]]; try discriminate;
          injection E as ->; reflexivity. }
  destruct (gap_scan _) as [(gaps_info, gap_features)|e2]; cbn [bind is_ok].
  2:{ split; [split; [intros (doc & E); discriminate E | intros (_ & E & _);
                       discriminate E]|].
      intros e; split.
      - intros E; injection E as ->; right; left; split; reflexivity.
      - intros [E | [(E1 & E) | (E1 & E2 & E)]]; try discriminate;
          injection E as ->; reflexivity. }
  destruct (candidate_cells stations) as [cells|e3]; cbn [bind is_ok].
  2:{ split; [split; [intros (doc & E); discriminate E | intros (_ & _ & E);
                       discriminate E]|].
      intros e; split.
      - intros E; injection E as ->; right; right; repeat split; reflexivity.
      - intros [E | [(E1 & E) | (E1 & E2 & E)]]; try discriminate;
          injection E as ->; reflexivity. }
  destruct (desert_zone_features_total (desert_zones cells) 0) as (fs & ->).
  cbn [bind].
  destruct (hull_coords_nonempty stations (coverage_nonempty _ _ Ecov))
    as (ring & ->).
  cbn [bind]. split.
  - split; [intros _; repeat split | intros _; eexists; reflexivity].
  - intros e; split; [discriminate|].
    intros [E | [(_ & E) | (_ & _ & E)]]; discriminate E.
Qed.

Lemma analysis_document_layout_witness :
  exists doc,
    @analysis RefLibm.libm two_stations = OK doc /\
    0 < total_stations (geo_metadata doc).
Proof.
  destruct (@analysis RefLibm.libm two_stations) as [doc|] eqn:E.
  - exists doc. split; [reflexivity|].
    destruct (analysis_document_layout RefLibm.libm _ _ E)
      as (cov & gaps_info & gap_features & zones & zone_features & hull & H).
    apply H.
  - exfalso.
    assert (Hok : is_ok (@analysis RefLibm.libm two_stations) = true)
      by (vm_compute; reflexivity).
    rewrite E in Hok. discriminate.
Defined.

(** ** The hull in exact arithmetic *)

(** *** Directions and turns *)

Lemma dir_trans (ux uy vx vy wx wy : Z) :
  (0 < vx \/ (vx = 0 /\ 0 < vy)) ->
  (0 <= ux) -> (0 < wx \/ (wx = 0 /\ 0 <= wy)) ->
  0 <= ux * vy - uy * vx ->
  0 <= vx * wy - vy * wx ->
  0 <= ux * wy - uy * wx.
Proof.
  intros Hv Hu Hw H1 H2.
  destruct Hv as [Hv | (Hv & Hv')].
  - assert ((ux * wy - uy * wx) * vx =
            (vx * wy - vy * wx) * ux + (ux * vy - uy * vx) * wx) by ring.
    assert (0 <= wx) by lia. nia.
  - subst vx. assert (wx = 0) by nia. subst wx. nia.
Qed.

Lemma zeqb_eq (a b : zpoint) : zeqb a b = true <-> a = b.
Proof.
  destruct a, b; unfold zeqb; simpl; rewrite andb_true_iff, !Z.eqb_eq.
  split; [intros (-> & ->); reflexivity | intros E; injection E; auto].
Qed.

Lemma lex_ltb_lt (a b : zpoint) : lex_ltb a b = true <-> lex_lt a b.
Proof.
  unfold lex_ltb, lex_lt; rewrite orb_true_iff, andb_true_iff, !Z.ltb_lt, Z.eqb_eq.
  tauto.
Qed.

Ltac geom := unfold lex_lt, cross_exact in *; simpl in *.


Lemma turn_L1 (k2 k1 p q : zpoint) :
  lex_lt k2 k1 -> lex_lt k1 p -> lex_lt q k1 ->
  0 <= cross_exact k2 k1 q -> 0 < cross_exact k2 k1 p ->
  0 <= cross_exact k1 p q.
Proof.
  destruct k2 as (ax, ay), k1 as (bx, by_), p as (px, py), q as (qx, qy); geom.
  intros H1 H2 H3 C1 C2.
  (* w = k1 - q, g = k1 - k2, d = p - k1 : w <= g < d *)
  pose proof (dir_trans (bx - qx) (by_ - qy) (bx - ax) (by_ - ay) (px - bx) (py - by_)) as T.
  nia.
Qed.

Lemma dir_trans_strict (ux uy vx vy wx wy : Z) :
  (0 < vx \/ (vx = 0 /\ 0 < vy)) ->
  (0 < ux \/ (ux = 0 /\ 0 < uy)) ->
  (0 < wx \/ (wx = 0 /\ 0 < wy)) ->
  0 <= ux * vy - uy * vx ->
  0 <= vx * wy - vy * wx ->
  0 < ux * vy - uy * vx \/ 0 < vx * wy - vy * wx ->
  0 < ux * wy - uy * wx.
Proof.
  intros Hv Hu Hw H1 H2 H3.
  destruct Hv as [Hv | (Hv & Hv')].
  - assert ((ux * wy - uy * wx) * vx =
            (vx * wy - vy * wx) * ux + (ux * vy - uy * vx) * wx) by ring.
    destruct Hu as [Hu | (Hu & Hu')], Hw as [Hw | (Hw & Hw')]; subst; nia.
  - subst vx. assert (wx = 0) by nia. subst wx. nia.
Qed.

Lemma turn_L2 (k1 x p q : zpoint) :
  lex_lt k1 x -> lex_lt k1 q -> lex_lt k1 p ->
  0 <= cross_exact k1 x q -> cross_exact k1 x p <= 0 ->
  0 <= cross_exact k1 p q.
Proof.
  destruct k1 as (ax, ay), x as (bx, by_), p as (px, py), q as (qx, qy); geom.
  intros H1 H2 H3 C1 C2.
  pose proof (dir_trans (px - ax) (py - ay) (bx - ax) (by_ - ay) (qx - ax) (qy - ay)) as T.
  nia.
Qed.

Lemma turn_L3 (a' a b p : zpoint) :
  lex_lt a' a -> lex_lt a b -> lex_lt b p ->
  0 < cross_exact a' a b -> 0 < cross_exact a b p ->
  0 < cross_exact a' a p.
Proof.
  destruct a' as (cx, cy), a as (ax, ay), b as (bx, by_), p as (px, py); geom.
  intros H1 H2 H3 C1 C2.
  pose proof (dir_trans_strict (ax - cx) (ay - cy) (bx - ax) (by_ - ay) (px - bx) (py - by_)) as T.
  nia.
Qed.

Lemma turn_L4 (a b c t : zpoint) :
  lex_lt a b -> lex_lt b c -> lex_lt b t ->
  0 < cross_exact a b c -> 0 <= cross_exact b c t ->
  0 < cross_exact a b t.
Proof.
  destruct a as (ax, ay), b as (bx, by_), c as (cx, cy), t as (tx, ty); geom.
  intros H1 H2 H3 C1 C2.
  pose proof (dir_trans_strict (bx - ax) (by_ - ay) (cx - bx) (cy - by_) (tx - bx) (ty - by_)) as T.
  nia.
Qed.

Lemma slope_base (lj l x : zpoint) : slope lj l lj x = cross_exact lj l x.
Proof. unfold slope, cross_exact; ring. Qed.

Lemma turn_L5a (lj l under x : zpoint) :
  lex_lt lj l -> lex_lt under x -> lex_lt x l ->
  0 <= slope lj l under x -> 0 <= cross_exact lj l x ->
  cross_exact under x l <= 0.
Proof.
  destruct lj as (jx, jy), l as (lx, ly), under as (ux, uy), x as (xx, xy);
    unfold slope; geom.
  intros H1 H2 H3 C1 C2.
  (* f = l - x <= d0 = l - lj <= e = x - under *)
  pose proof (dir_trans (lx - xx) (ly - xy) (lx - jx) (ly - jy) (xx - ux) (xy - uy)) as T.
  nia.
Qed.

Lemma turn_L5b (lj l under2 under x : zpoint) :
  lex_lt lj l -> lex_lt under2 under -> lex_lt under x ->
  0 <= slope lj l under2 under -> 0 < cross_exact under2 under x ->
  0 <= slope lj l under x.
Proof.
  destruct lj as (jx, jy), l as (lx, ly), under2 as (vx, vy),
    under as (ux, uy), x as (xx, xy); unfold slope; geom.
  intros H1 H2 H3 C1 C2.
  pose proof (dir_trans (lx - jx) (ly - jy) (ux - vx) (uy - vy) (xx - ux) (xy - uy)) as T.
  nia.
Qed.

Lemma pop_exact_cons2 (top under : zpoint) (rest : list zpoint) (p : zpoint) :
  pop_exact (top :: under :: rest) p =
  if clockwise_exact under top p then pop_exact (under :: rest) p
  else top :: under :: rest.
Proof. reflexivity. Qed.

Lemma clockwise_exact_false (o a b : zpoint) :
  clockwise_exact o a b = false <-> 0 < cross_exact o a b.
Proof. unfold clockwise_exact; rewrite Z.leb_gt; tauto. Qed.

Lemma clockwise_exact_true (o a b : zpoint) :
  clockwise_exact o a b = true <-> cross_exact o a b <= 0.
Proof. unfold clockwise_exact; rewrite Z.leb_le; tauto. Qed.

Lemma lex_lt_trans (a b c : zpoint) : lex_lt a b -> lex_lt b c -> lex_lt a c.
Proof. unfold lex_lt; lia. Qed.

Lemma lex_lt_irrefl (a : zpoint) : ~ lex_lt a a.
Proof. unfold lex_lt; lia. Qed.

Lemma lex_le_lt_trans (a b c : zpoint) : lex_le a b -> lex_lt b c -> lex_lt a c.
Proof. intros [-> | H]; [auto | apply lex_lt_trans; exact H]. Qed.

Lemma lex_trichotomy (a b : zpoint) : lex_lt a b \/ a = b \/ lex_lt b a.
Proof.
  destruct a as (ax, ay), b as (bx, by_); unfold lex_lt; simpl.
  destruct (Z.lt_trichotomy ax bx) as [H | [H | H]];
    destruct (Z.lt_trichotomy ay by_) as [H' | [H' | H']]; subst; auto; lia.
Qed.

Lemma edges_tail R p stack : edges R (p :: stack) -> edges R stack.
Proof. destruct stack; simpl; tauto. Qed.

Lemma edges_suffix R upper stack : edges R (upper ++ stack) -> edges R stack.
Proof.
  induction upper as [| p upper IH]; simpl app; [auto |].
  intros H; apply IH; exact (edges_tail _ _ _ H).
Qed.

Lemma convex_tail p stack : convex (p :: stack) -> convex stack.
Proof. destruct stack as [| b [| a rest]]; simpl; tauto. Qed.

Lemma convex_suffix upper stack : convex (upper ++ stack) -> convex stack.
Proof.
  induction upper as [| p upper IH]; simpl app; [auto |].
  intros H; apply IH; exact (convex_tail _ _ H).
Qed.

(** *** What the pops leave *)

Lemma pop_exact_suffix (stack : list zpoint) (p : zpoint) :
  exists popped, stack = popped ++ pop_exact stack p.
Proof.
  induction stack as [| top below IH]; [exists []; reflexivity |].
  destruct below as [| under rest]; [exists []; reflexivity |].
  rewrite pop_exact_cons2; destruct (clockwise_exact under top p).
  - destruct IH as (popped & E); exists (top :: popped); simpl; f_equal; exact E.
  - exists []; reflexivity.
Qed.

Lemma pop_exact_convex (stack : list zpoint) (p : zpoint) :
  convex stack -> convex (p :: pop_exact stack p).
Proof.
  induction stack as [| top below IH]; intros H; [exact I |].
  destruct below as [| under rest]; [exact I |].
  rewrite pop_exact_cons2; destruct (clockwise_exact under top p) eqn:T.
  - apply IH; exact (convex_tail _ _ H).
  - apply clockwise_exact_false in T; split; assumption.
Qed.

Lemma pop_exact_keeps (stack : list zpoint) (p : zpoint) :
  convex (p :: stack) -> pop_exact stack p = stack.
Proof.
  destruct stack as [| top [| under rest]]; try reflexivity.
  intros (T & _); rewrite pop_exact_cons2.
  apply clockwise_exact_false in T; rewrite T; reflexivity.
Qed.

Lemma pop_exact_last (stack : list zpoint) (p d : zpoint) :
  stack <> [] ->
  pop_exact stack p <> [] /\ last (pop_exact stack p) d = last stack d.
Proof.
  induction stack as [| top below IH]; intros H; [contradiction H; reflexivity |].
  destruct below as [| under rest]; [split; [discriminate | reflexivity] |].
  rewrite pop_exact_cons2; destruct (clockwise_exact under top p).
  - destruct IH as (IH1 & IH2); [discriminate |].
    split; [exact IH1 | rewrite IH2; reflexivity].
  - split; [discriminate | reflexivity].
Qed.

(** A point to the right of a convex ascending stack, turning left at its
    top, lies above all its edges. *)

Lemma convex_drop (p b a : zpoint) (rest : list zpoint) :
  ascending (p :: b :: a :: rest) -> convex (p :: b :: a :: rest) ->
  convex (p :: a :: rest).
Proof.
  destruct rest as [| a' rest']; [intros _ _; exact I |].
  intros (Hbp & Hab & Ha'a & _) (Cp & Cb & Crest).
  split; [exact (turn_L3 a' a b p Ha'a Hab Hbp Cb Cp) | exact Crest].
Qed.

Lemma above_top (kept : list zpoint) (p : zpoint) :
  ascending (p :: kept) -> convex (p :: kept) -> above kept p.
Proof.
  induction kept as [| b kept IH]; intros Ha Hc; [exact I |].
  destruct kept as [| a rest]; [exact I |].
  split.
  - destruct Hc as (Hc & _); lia.
  - apply IH.
    + destruct Ha as (Hbp & Hab & Hrest); split; [| exact Hrest].
      exact (lex_lt_trans _ _ _ Hab Hbp).
    + exact (convex_drop _ _ _ _ Ha Hc).
Qed.

Lemma cross_exact_same (a p : zpoint) : cross_exact a p a = 0.
Proof. unfold cross_exact; ring. Qed.

Lemma cross_exact_end (a p : zpoint) : cross_exact a p p = 0.
Proof. unfold cross_exact; ring. Qed.

(** The new edge: a point seen before [p], above all the edges of the
    stack, is above the edge from the rest of the stack to [p]. *)

Lemma new_edge (p q : zpoint) (stack : list zpoint) :
  stack <> [] ->
  ascending (p :: stack) ->
  above stack q ->
  (forall d, lex_le (last stack d) q) ->
  (forall top rest, stack = top :: rest ->
     lex_le q top \/
     exists x, lex_lt top x /\ lex_lt top q /\
               cross_exact top x p <= 0 /\ 0 <= cross_exact top x q) ->
  above (p :: pop_exact stack p) q.
Proof.
  induction stack as [| top below IH]; intros Hne Hasc Habove Hbot Htop;
    [contradiction Hne; reflexivity |].
  assert (Hstop :
    (below = [] \/ exists under rest, below = under :: rest /\
       lex_lt under top /\ 0 <= cross_exact under top q /\
       0 < cross_exact under top p) ->
    above (p :: top :: below) q).
  { intros Hcase; split; [| exact Habove].
    destruct (Htop top below eq_refl) as [[-> | Hq] | (x & Hx & Hq & Cp & Cq)].
    - rewrite cross_exact_same; lia.
    - destruct Hcase as [-> | (under & rest & -> & Hu & Cq & Cp)].
      + specialize (Hbot top); simpl in Hbot.
        destruct Hbot as [-> | Hbot];
          [contradiction (lex_lt_irrefl _ Hq) |].
        contradiction (lex_lt_irrefl _ (lex_lt_trans _ _ _ Hq Hbot)).
      + destruct Hasc as (Htp & _).
        exact (turn_L1 under top p q Hu Htp Hq Cq Cp).
    - destruct Hasc as (Htp & _).
      exact (turn_L2 top x p q Hx Hq Htp Cq Cp). }
  destruct below as [| under rest]; [apply Hstop; left; reflexivity |].
  rewrite pop_exact_cons2.
  destruct Hasc as (Htp & Hut & Hrest).
  destruct Habove as (Cq & Habove).
  destruct (clockwise_exact under top p) eqn:T.
  - apply clockwise_exact_true in T.
    apply IH; try assumption; try discriminate.
    + split; [exact (lex_lt_trans _ _ _ Hut Htp) | exact Hrest].
    + intros top' rest' E; injection E as <- <-.
      destruct (lex_trichotomy q under) as [H | [H | H]].
      * left; right; exact H.
      * left; left; exact H.
      * right; exists top; repeat split; assumption.
  - apply clockwise_exact_false in T.
    apply Hstop; right; exists under, rest; repeat split; assumption.
Qed.

Lemma scanned_nil : scanned [] [].
Proof.
  split.
  - exact I.
  - exact I.
  - intros q [].
  - intros q top rest [].
  - intros q d [].
  - intros H; exact H.
  - intros q H; exact H.
Qed.

Lemma pop_exact_incl (stack : list zpoint) (p : zpoint) :
  incl (pop_exact stack p) stack.
Proof.
  destruct (pop_exact_suffix stack p) as (popped & E).
  intros x Hx; rewrite E; apply in_or_app; right; exact Hx.
Qed.

Lemma pop_exact_ascending (stack : list zpoint) (p : zpoint) :
  ascending stack -> ascending (pop_exact stack p).
Proof.
  destruct (pop_exact_suffix stack p) as (popped & E).
  intros H; rewrite E in H; exact (edges_suffix _ _ _ H).
Qed.

Lemma scanned_push (stack seen : list zpoint) (p : zpoint) :
  scanned stack seen ->
  (forall q, In q seen -> lex_lt q p) ->
  scanned (push_exact stack p) (seen ++ [p]).
Proof.
  intros [Hc Ha Hab Htop Hbot Hne Hincl] Hp; unfold push_exact.
  assert (Hasc : ascending (p :: pop_exact stack p)).
  { pose proof (pop_exact_ascending stack p Ha) as Hk.
    pose proof (pop_exact_incl stack p) as Hi.
    destruct (pop_exact stack p) as [| k kept]; [exact I |].
    split; [| exact Hk].
    apply Hp, Hincl, Hi; left; reflexivity. }
  assert (Hcv : convex (p :: pop_exact stack p))
    by (apply pop_exact_convex; exact Hc).
  split.
  - exact Hcv.
  - exact Hasc.
  - intros q Hq; apply in_app_or in Hq; destruct Hq as [Hq | [<- | []]].
    + assert (Hs : stack <> []) by (apply Hne; intros ->; destruct Hq).
      apply new_edge; try assumption.
      * destruct stack as [| top rest]; [contradiction Hs; reflexivity |].
        split; [| exact Ha].
        apply Hp, Hincl; left; reflexivity.
      * apply Hab; exact Hq.
      * intros d; apply Hbot; exact Hq.
      * intros top rest E; left; exact (Htop q top rest Hq E).
    + pose proof (above_top _ _ Hasc Hcv) as Hk.
      destruct (pop_exact stack p) as [| k kept]; [exact I |].
      split; [rewrite cross_exact_end; lia | exact Hk].
  - intros q top rest Hq E; injection E as <- _.
    apply in_app_or in Hq; destruct Hq as [Hq | [<- | []]];
      [right; apply Hp; exact Hq | left; reflexivity].
  - intros q d Hq.
    destruct stack as [| top rest].
    + simpl. apply in_app_or in Hq; destruct Hq as [Hq | [<- | []]].
      * assert (F : ([] : list zpoint) <> [])
          by (apply Hne; intros ->; destruct Hq).
        contradiction F; reflexivity.
      * left; reflexivity.
    + destruct (pop_exact_last (top :: rest) p d) as (Hk & Hl); [discriminate |].
      replace (last (p :: pop_exact (top :: rest) p) d)
        with (last (pop_exact (top :: rest) p) d)
        by (destruct (pop_exact (top :: rest) p);
            [contradiction Hk; reflexivity | reflexivity]).
      rewrite Hl.
      apply in_app_or in Hq; destruct Hq as [Hq | [<- | []]].
      * apply Hbot; exact Hq.
      * right; apply Hp, Hincl.
        clear; revert top; induction rest as [| r rest IH]; intros top;
          [left; reflexivity | right; apply IH].
  - intros _; discriminate.
  - intros x [<- | Hx]; [apply in_or_app; right; left; reflexivity |].
    apply in_or_app; left; apply Hincl, (pop_exact_incl stack p); exact Hx.
Qed.

Lemma scanned_scan (points stack seen : list zpoint) :
  scanned stack seen ->
  StronglySorted lex_lt (seen ++ points) ->
  scanned (scan_exact points stack) (seen ++ points).
Proof.
  revert stack seen; induction points as [| p points IH]; intros stack seen H Hs.
  - rewrite app_nil_r; exact H.
  - replace (seen ++ p :: points) with ((seen ++ [p]) ++ points) in *
      by (rewrite <- app_assoc; reflexivity).
    apply IH; [| exact Hs].
    apply scanned_push; [exact H |].
    intros q Hq.
    clear - Hs Hq; induction seen as [| s seen IH]; [destruct Hq |].
    simpl in Hs; apply StronglySorted_inv in Hs; destruct Hs as (Hs & Hall).
    destruct Hq as [<- | Hq]; [| exact (IH Hs Hq)].
    rewrite Forall_forall in Hall; apply Hall.
    apply in_or_app; left; apply in_or_app; right; left; reflexivity.
Qed.

(** *** A chain is determined by its points *)

Lemma lex_lt_asym (a b : zpoint) : lex_lt a b -> lex_lt b a -> False.
Proof. unfold lex_lt; lia. Qed.

Lemma lex_le_antisym (a b : zpoint) : lex_le a b -> lex_le b a -> a = b.
Proof.
  intros [-> | H] [E | H']; auto.
  contradiction (lex_lt_asym _ _ H H').
Qed.

Lemma ascending_last (stack : list zpoint) :
  forall t d, ascending (t :: stack) -> lex_le (last (t :: stack) d) t.
Proof.
  induction stack as [| s rest IH]; intros t d H; [left; reflexivity |].
  destruct H as (Hst & H).
  right. apply (lex_le_lt_trans _ s); [| exact Hst].
  exact (IH s d H).
Qed.

Lemma unique_step (x2 x1 y1 t : zpoint) :
  lex_lt y1 x1 -> lex_lt x1 t ->
  0 <= cross_exact x1 t y1 -> 0 <= cross_exact y1 t x1 ->
  0 < cross_exact x2 x1 t -> 0 <= cross_exact x2 x1 y1 -> False.
Proof.
  destruct x2 as (wx, wy), x1 as (ax, ay), y1 as (bx, by_), t as (tx, ty); geom.
  intros H1 H2 C1 C2 C3 C4.
  assert (E : (ax - bx) * (ty - ay) = (ay - by_) * (tx - ax)) by lia.
  destruct H2 as [H2 | (H2 & H2')].
  - assert (Hd : 0 < ax - bx).
    { destruct H1 as [H1 | (H1 & H1')]; [lia | exfalso].
      replace (ax - bx) with 0 in E by lia. nia. }
    assert (F : ((ax - wx) * (ay - by_) - (ay - wy) * (ax - bx)) * (tx - ax) =
            (ax - bx) * ((ax - wx) * (ty - ay) - (ay - wy) * (tx - ax))).
    { replace (((ax - wx) * (ay - by_) - (ay - wy) * (ax - bx)) * (tx - ax))
        with ((ax - wx) * ((ay - by_) * (tx - ax))
              - (ay - wy) * (ax - bx) * (tx - ax)) by ring.
      rewrite <- E. ring. }
    nia.
  - assert (ax = bx) by nia. nia.
Qed.

Lemma last_cons2 {A : Type} (a b : A) (l : list A) (d : A) :
  last (a :: b :: l) d = last (b :: l) d.
Proof. reflexivity. Qed.

Lemma chain_unique (X : list zpoint) :
  forall (Y : list zpoint) (t : zpoint),
    convex (t :: X) -> convex (t :: Y) ->
    ascending (t :: X) -> ascending (t :: Y) ->
    (forall q, In q (t :: Y) -> above (t :: X) q) ->
    (forall q, In q (t :: X) -> above (t :: Y) q) ->
    (forall d, last (t :: X) d = last (t :: Y) d) ->
    X = Y.
Proof.
  induction X as [| x1 X IH]; intros Y t CX CY AX AY HX HY Hlast.
  - destruct Y as [| y1 Y]; [reflexivity | exfalso].
    specialize (Hlast t). rewrite last_cons2 in Hlast.
    change (last [t] t) with t in Hlast.
    destruct AY as (Hy & AY).
    pose proof (ascending_last Y y1 t AY) as Hl.
    rewrite <- Hlast in Hl.
    exact (lex_lt_irrefl _ (lex_le_lt_trans _ _ _ Hl Hy)).
  - destruct Y as [| y1 Y]; [exfalso |].
    { specialize (Hlast t). rewrite last_cons2 in Hlast.
      change (last [t] t) with t in Hlast.
      destruct AX as (Hx & AX).
      pose proof (ascending_last X x1 t AX) as Hl.
      rewrite Hlast in Hl.
      exact (lex_lt_irrefl _ (lex_le_lt_trans _ _ _ Hl Hx)). }
    assert (E : x1 = y1).
    { destruct (lex_trichotomy x1 y1) as [H | [H | H]]; [exfalso | exact H | exfalso].
      - (* x1 < y1: y1 has a predecessor in Y *)
        destruct AY as (Hy & AY), AX as (Hx & AX).
        destruct Y as [| y2 Y].
        + specialize (Hlast t). rewrite !last_cons2 in Hlast.
          change (last [y1] t) with y1 in Hlast.
          pose proof (ascending_last X x1 t AX) as Hl.
          rewrite Hlast in Hl.
          exact (lex_lt_irrefl _ (lex_le_lt_trans _ _ _ Hl H)).
        + destruct CY as (CY & _).
          pose proof (HY x1 (or_intror (or_introl eq_refl))) as (C1 & C2 & _).
          pose proof (HX y1 (or_intror (or_introl eq_refl))) as (C3 & _).
          exact (unique_step y2 y1 x1 t H Hy C1 C3 CY C2).
      - destruct AY as (Hy & AY), AX as (Hx & AX).
        destruct X as [| x2 X].
        + specialize (Hlast t). rewrite !last_cons2 in Hlast.
          change (last [x1] t) with x1 in Hlast.
          pose proof (ascending_last Y y1 t AY) as Hl.
          rewrite <- Hlast in Hl.
          exact (lex_lt_irrefl _ (lex_le_lt_trans _ _ _ Hl H)).
        + destruct CX as (CX & _).
          pose proof (HX y1 (or_intror (or_introl eq_refl))) as (C1 & C2 & _).
          pose proof (HY x1 (or_intror (or_introl eq_refl))) as (C3 & _).
          exact (unique_step x2 x1 y1 t H Hx C1 C3 CX C2). }
    subst y1. f_equal.
    apply (IH Y x1).
    + exact (convex_tail _ _ CX).
    + exact (convex_tail _ _ CY).
    + exact (edges_tail _ _ _ AX).
    + exact (edges_tail _ _ _ AY).
    + intros q Hq. apply (edges_tail _ t). apply HX. right; exact Hq.
    + intros q Hq. apply (edges_tail _ t). apply HY. right; exact Hq.
    + intros d. exact (Hlast d).
Qed.

(** *** Distinct points in ascending order *)

Lemma set_of_by_zeqb_acc (points : list zpoint) :
  forall seen,
    NoDup seen ->
    let out := fold_left (fun seen p =>
      if existsb (zeqb p) seen then seen else seen ++ [p]) points seen in
    NoDup out /\ forall x, In x out <-> In x seen \/ In x points.
Proof.
  induction points as [| p points IH]; intros seen Hnd; cbn [fold_left].
  - split; [exact Hnd | intros x; simpl; tauto].
  - destruct (existsb (zeqb p) seen) eqn:E.
    + destruct (IH seen Hnd) as (H1 & H2). split; [exact H1 |].
      intros x. rewrite H2. simpl.
      apply existsb_exists in E. destruct E as (y & Hy & Ey).
      apply zeqb_eq in Ey; subst y.
      split; [tauto | intros [H | [<- | H]]; tauto].
    + assert (Hp : ~ In p seen).
      { intros Hin.
        assert (existsb (zeqb p) seen = true)
          by (apply existsb_exists; exists p; split; [exact Hin | apply zeqb_eq; reflexivity]).
        congruence. }
      destruct (IH (seen ++ [p])) as (H1 & H2).
      { apply NoDup_app; [exact Hnd | repeat constructor; intros [] |].
        intros x Hx [<- | []]. exact (Hp Hx). }
      split; [exact H1 |].
      intros x. rewrite H2, in_app_iff. simpl. tauto.
Qed.

Lemma set_of_by_zeqb (points : list zpoint) :
  NoDup (set_of_by zeqb points) /\
  forall x, In x (set_of_by zeqb points) <-> In x points.
Proof.
  destruct (set_of_by_zeqb_acc points [] (NoDup_nil _)) as (H1 & H2).
  split; [exact H1 |]. intros x. rewrite (H2 x). simpl. tauto.
Qed.

Lemma insert_by_lex_In (p : zpoint) (l : list zpoint) (x : zpoint) :
  In x (insert_by lex_ltb p l) <-> x = p \/ In x l.
Proof.
  induction l as [| q l IH]; simpl; [intuition congruence |].
  destruct (lex_ltb q p); simpl; [rewrite IH |]; intuition congruence.
Qed.

Lemma insert_by_lex_sorted (p : zpoint) (l : list zpoint) :
  StronglySorted lex_lt l -> ~ In p l ->
  StronglySorted lex_lt (insert_by lex_ltb p l).
Proof.
  induction l as [| q l IH]; intros Hs Hp; simpl.
  - repeat constructor.
  - apply StronglySorted_inv in Hs. destruct Hs as (Hs & Hq).
    destruct (lex_ltb q p) eqn:E.
    + apply lex_ltb_lt in E. constructor.
      * apply IH; [exact Hs | simpl in Hp; tauto].
      * rewrite Forall_forall in *. intros x Hx.
        apply insert_by_lex_In in Hx. destruct Hx as [-> | Hx]; auto.
    + assert (Hpq : lex_lt p q).
      { destruct (lex_trichotomy p q) as [H | [H | H]]; [exact H | |].
        - subst q. simpl in Hp. tauto.
        - apply lex_ltb_lt in H. congruence. }
      constructor; [constructor; assumption |].
      constructor; [exact Hpq |].
      rewrite Forall_forall in *. intros x Hx.
      exact (lex_lt_trans _ _ _ Hpq (Hq x Hx)).
Qed.

Lemma sorted_by_lex (l : list zpoint) :
  NoDup l ->
  StronglySorted lex_lt (sorted_by lex_ltb l) /\
  forall x, In x (sorted_by lex_ltb l) <-> In x l.
Proof.
  induction l as [| p l IH]; intros Hnd; simpl.
  - split; [constructor | tauto].
  - inversion Hnd as [| ? ? Hp Hnd']; subst.
    destruct (IH Hnd') as (H1 & H2). split.
    + apply insert_by_lex_sorted; [exact H1 | rewrite H2; exact Hp].
    + intros x. rewrite insert_by_lex_In, H2. intuition congruence.
Qed.

Lemma canonical_points (points : list zpoint) :
  StronglySorted lex_lt (sorted_by lex_ltb (set_of_by zeqb points)) /\
  forall x, In x (sorted_by lex_ltb (set_of_by zeqb points)) <-> In x points.
Proof.
  destruct (set_of_by_zeqb points) as (Hnd & Hin).
  destruct (sorted_by_lex _ Hnd) as (Hs & Hin').
  split; [exact Hs |]. intros x. rewrite Hin', Hin. tauto.
Qed.

(** *** The lower chain of a set of points *)

Lemma scanned_from_nil (S : list zpoint) :
  StronglySorted lex_lt S -> scanned (scan_exact S []) S.
Proof. intros H. exact (scanned_scan S [] [] scanned_nil H). Qed.

Lemma last_In {A : Type} (l : list A) (d : A) : l <> [] -> In (last l d) l.
Proof.
  induction l as [| a l IH]; [congruence |]. intros _.
  destruct l as [| b l]; [left; reflexivity |].
  right. apply IH. discriminate.
Qed.

Lemma lower_chain_determined (S S2 : list zpoint) :
  StronglySorted lex_lt S -> StronglySorted lex_lt S2 ->
  incl S2 S -> incl (scan_exact S []) S2 ->
  scan_exact S2 [] = scan_exact S [].
Proof.
  intros HS HS2 Hincl HK.
  pose proof (scanned_from_nil S HS) as [C A Ab Top Bot Ne In1].
  pose proof (scanned_from_nil S2 HS2) as [C2 A2 Ab2 Top2 Bot2 Ne2 In2].
  set (K := scan_exact S []) in *. set (K2 := scan_exact S2 []) in *.
  destruct K2 as [| t2 X2] eqn:EK2.
  - destruct S2 as [| s S2]; [| contradiction Ne2; [discriminate | reflexivity]].
    destruct K as [| t X]; [reflexivity |].
    destruct (HK t (or_introl eq_refl)).
  - destruct K as [| t X] eqn:EK.
    + assert (HS0 : S = []).
      { destruct S as [| s S']; [reflexivity |].
        contradiction Ne; [discriminate | reflexivity]. }
      subst S. destruct (Hincl t2 (In2 t2 (or_introl eq_refl))).
    + assert (Et : t2 = t).
      { apply lex_le_antisym.
        - apply (Top t2 t X); [| reflexivity].
          apply Hincl, In2. left; reflexivity.
        - apply (Top2 t t2 X2); [| reflexivity].
          apply HK. left; reflexivity. }
      subst t2. f_equal.
      apply (chain_unique X2 X t); try assumption.
      * intros q Hq. apply Ab2, HK, Hq.
      * intros q Hq. apply Ab, Hincl, In2, Hq.
      * intros d. apply lex_le_antisym.
        -- apply Bot2. apply HK. apply last_In. discriminate.
        -- apply Bot. apply Hincl, In2. apply last_In. discriminate.
Qed.

(** *** The upper chain, by reflection *)

Lemma cross_exact_negp (o a b : zpoint) :
  cross_exact (negp o) (negp a) (negp b) = cross_exact o a b.
Proof. unfold cross_exact, negp; simpl; ring. Qed.

Lemma negp_inj (a b : zpoint) : negp a = negp b -> a = b.
Proof.
  destruct a as (ax, ay), b as (bx, by_); unfold negp; simpl.
  intros E; injection E as E1 E2; f_equal; lia.
Qed.

Lemma map_negp_inj (l l' : list zpoint) : map negp l = map negp l' -> l = l'.
Proof.
  revert l'; induction l as [| a l IH]; intros [| b l'] E; try discriminate;
    [reflexivity |].
  cbn [map] in E; injection E as E1 E2 E3.
  f_equal; [apply negp_inj; unfold negp; congruence | exact (IH _ E3)].
Qed.

Lemma lex_lt_negp (a b : zpoint) : lex_lt (negp a) (negp b) <-> lex_lt b a.
Proof. unfold lex_lt, negp; simpl; lia. Qed.

Lemma pop_exact_negp (stack : list zpoint) (p : zpoint) :
  pop_exact (map negp stack) (negp p) = map negp (pop_exact stack p).
Proof.
  induction stack as [| top below IH]; [reflexivity |].
  destruct below as [| under rest]; [reflexivity |].
  change (map negp (top :: under :: rest))
    with (negp top :: negp under :: map negp rest).
  rewrite !pop_exact_cons2.
  unfold clockwise_exact at 1. rewrite cross_exact_negp.
  fold (clockwise_exact under top p).
  destruct (clockwise_exact under top p); [exact IH | reflexivity].
Qed.

Lemma scan_exact_negp (points stack : list zpoint) :
  scan_exact (map negp points) (map negp stack) =
  map negp (scan_exact points stack).
Proof.
  revert stack; induction points as [| p points IH]; intros stack;
    [reflexivity |].
  cbn [map scan_exact fold_left]. unfold push_exact at 2.
  rewrite pop_exact_negp.
  change (negp p :: map negp (pop_exact stack p))
    with (map negp (push_exact stack p)).
  apply IH.
Qed.

Lemma StronglySorted_app {A : Type} (R : A -> A -> Prop) (l1 l2 : list A) :
  StronglySorted R l1 -> StronglySorted R l2 ->
  (forall x y, In x l1 -> In y l2 -> R x y) ->
  StronglySorted R (l1 ++ l2).
Proof.
  induction l1 as [| a l1 IH]; intros H1 H2 H; [exact H2 |].
  apply StronglySorted_inv in H1; destruct H1 as (H1 & Ha).
  simpl; constructor.
  - apply IH; [exact H1 | exact H2 |].
    intros x y Hx Hy; apply H; [right; exact Hx | exact Hy].
  - rewrite Forall_forall in *; intros x Hx.
    apply in_app_or in Hx; destruct Hx as [Hx | Hx];
      [apply Ha; exact Hx | apply H; [left; reflexivity | exact Hx]].
Qed.

Lemma sorted_negp_rev (S : list zpoint) :
  StronglySorted lex_lt S -> StronglySorted lex_lt (map negp (rev S)).
Proof.
  induction S as [| a S IH]; intros H; [constructor |].
  apply StronglySorted_inv in H; destruct H as (H & Ha).
  simpl; rewrite map_app; apply StronglySorted_app.
  - exact (IH H).
  - repeat constructor.
  - intros x y Hx [<- | []].
    apply in_map_iff in Hx; destruct Hx as (z & <- & Hz).
    apply lex_lt_negp.
    rewrite Forall_forall in Ha; apply Ha, in_rev, Hz.
Qed.

Lemma upper_chain_determined (S S2 : list zpoint) :
  StronglySorted lex_lt S -> StronglySorted lex_lt S2 ->
  incl S2 S -> incl (scan_exact (rev S) []) S2 ->
  scan_exact (rev S2) [] = scan_exact (rev S) [].
Proof.
  intros HS HS2 Hincl HK.
  apply map_negp_inj.
  rewrite <- !(scan_exact_negp _ []).
  apply lower_chain_determined.
  - exact (sorted_negp_rev _ HS).
  - exact (sorted_negp_rev _ HS2).
  - intros x Hx. apply in_map_iff in Hx; destruct Hx as (z & <- & Hz).
    apply in_map, in_rev. rewrite rev_involutive. apply Hincl, in_rev, Hz.
  - rewrite (scan_exact_negp _ []).
    intros x Hx. apply in_map_iff in Hx; destruct Hx as (z & <- & Hz).
    apply in_map, in_rev. rewrite rev_involutive. apply HK, Hz.
Qed.

(** *** The two chains of the hull *)

Lemma last_cons2' {A : Type} (a : A) (l : list A) (d : A) :
  l <> [] -> last (a :: l) d = last l d.
Proof. destruct l; [congruence | reflexivity]. Qed.

Lemma scan_exact_two (points : list zpoint) :
  forall stack,
    (2 <= List.length stack + List.length points)%nat ->
    stack <> [] \/ points <> [] ->
    (2 <= List.length (scan_exact points stack))%nat.
Proof.
  induction points as [| p l IH]; intros stack Hlen Hne.
  - simpl in *. lia.
  - cbn [scan_exact fold_left]. fold (scan_exact l (push_exact stack p)).
    destruct stack as [| top below].
    + simpl in Hlen. destruct l as [| q l'].
      * simpl in Hlen. lia.
      * apply IH; [simpl; lia | left; discriminate].
    + destruct (pop_exact_last (top :: below) p p) as (Hpop & _);
        [discriminate |].
      apply IH; [| left; discriminate].
      unfold push_exact.
      destruct (pop_exact (top :: below) p);
        [contradiction Hpop; reflexivity | simpl; lia].
Qed.

Lemma edges_map (R : zpoint -> zpoint -> Prop) (f : zpoint -> zpoint)
    (stack : list zpoint) :
  edges R (map f stack) <-> edges (fun a b => R (f a) (f b)) stack.
Proof.
  induction stack as [| b stack IH]; [simpl; tauto |].
  destruct stack as [| a rest]; [simpl; tauto |].
  change (edges R (map f (b :: a :: rest)))
    with (R (f a) (f b) /\ edges R (map f (a :: rest))).
  change (edges (fun a b => R (f a) (f b)) (b :: a :: rest))
    with (R (f a) (f b) /\ edges (fun a b => R (f a) (f b)) (a :: rest)).
  rewrite IH. tauto.
Qed.

Lemma edges_impl (R R' : zpoint -> zpoint -> Prop) (stack : list zpoint) :
  (forall a b, R a b -> R' a b) -> edges R stack -> edges R' stack.
Proof.
  intros H. induction stack as [| b stack IH]; [auto |].
  destruct stack as [| a rest]; [auto |].
  intros (H1 & H2). split; [apply H, H1 | apply IH, H2].
Qed.

Lemma edges_app (R : zpoint -> zpoint -> Prop) (l1 l2 : list zpoint)
    (x : zpoint) :
  edges R (l1 ++ [x]) -> edges R (x :: l2) -> edges R (l1 ++ x :: l2).
Proof.
  induction l1 as [| b l1 IH]; intros H1 H2; [exact H2 |].
  destruct l1 as [| a l1].
  - destruct H1 as (H1 & _). split; [exact H1 | exact H2].
  - destruct H1 as (H1 & H1'). split; [exact H1 |]. apply IH; assumption.
Qed.

Lemma edges_rev (R : zpoint -> zpoint -> Prop) (l : list zpoint) :
  edges R l -> edges (fun a b => R b a) (rev l).
Proof.
  induction l as [| b l IH]; intros H; [exact I |].
  destruct l as [| a l]; [exact I |].
  destruct H as (Hab & H).
  change (rev (b :: a :: l)) with ((rev l ++ [a]) ++ [b]).
  rewrite <- app_assoc. apply edges_app.
  - exact (IH H).
  - split; [exact Hab | exact I].
Qed.

Lemma edges_nth (R : zpoint -> zpoint -> Prop) (l : list zpoint) :
  edges R l ->
  forall i u v,
    nth_error l i = Some v -> nth_error l (S i) = Some u -> R u v.
Proof.
  induction l as [| b l IH]; intros H i u v Hv Hu; [destruct i; discriminate |].
  destruct l as [| a l]; [destruct i as [| [| i]]; discriminate |].
  destruct H as (Hab & H).
  destruct i as [| i].
  - injection Hv as <-. injection Hu as <-. exact Hab.
  - exact (IH H i u v Hv Hu).
Qed.

Lemma last_map_negp (l : list zpoint) (d : zpoint) :
  last (map negp l) (negp d) = negp (last l d).
Proof.
  induction l as [| a l IH]; [reflexivity |].
  destruct l as [| b l]; [reflexivity |].
  change (map negp (a :: b :: l)) with (negp a :: map negp (b :: l)).
  rewrite last_cons2' , IH by discriminate. reflexivity.
Qed.

Lemma scan_exact_negp_nil (points : list zpoint) :
  scan_exact (map negp points) [] = map negp (scan_exact points []).
Proof. exact (scan_exact_negp points []). Qed.

(** The chains of at least two distinct points in ascending order: the
    lower chain runs from the smallest point [a] to the largest point [b],
    the upper chain from [b] back to [a]. *)
Lemma hull_chains (S : list zpoint) :
  StronglySorted lex_lt S -> (2 <= List.length S)%nat ->
  exists a b X XU,
    scan_exact S [] = b :: X /\
    scan_exact (rev S) [] = a :: XU /\
    (forall d, last X d = a) /\ X <> [] /\
    (forall d, last XU d = b) /\ XU <> [] /\
    incl (b :: X) S /\ incl (a :: XU) S /\
    (forall q, In q S -> above (b :: X) q) /\
    (forall q, In q S -> above (a :: XU) q).
Proof.
  intros HS Hlen.
  pose proof (scanned_from_nil S HS) as [C A Ab Top Bot Ne In1].
  pose proof (scanned_from_nil _ (sorted_negp_rev S HS))
    as [C' A' Ab' Top' Bot' Ne' In'].
  rewrite scan_exact_negp_nil in *.
  pose proof (scan_exact_two S [] ltac:(simpl; lia)
                ltac:(right; destruct S; [simpl in Hlen; lia | discriminate]))
    as HK.
  pose proof (scan_exact_two (rev S) [] ltac:(rewrite length_rev; simpl; lia)
                ltac:(right; destruct S; [simpl in Hlen; lia |
                        simpl; destruct (rev S); discriminate]))
    as HKU.
  destruct (scan_exact S []) as [| b [| x X]] eqn:EK;
    try (simpl in HK; lia).
  destruct (scan_exact (rev S) []) as [| a [| xu XU]] eqn:EKU;
    try (simpl in HKU; lia).
  assert (InU : incl (a :: xu :: XU) S).
  { intros z Hz. apply in_rev.
    apply (in_map negp) in Hz. apply In' in Hz.
    apply in_map_iff in Hz. destruct Hz as (y & Ey & Hy).
    apply negp_inj in Ey. subst y. exact Hy. }
  assert (Hmin : forall q, In q S -> lex_le a q).
  { intros q Hq.
    assert (Hn : In (negp q) (map negp (rev S)))
      by (apply in_map; apply in_rev in Hq; exact Hq).
    destruct (Top' (negp q) (negp a) (map negp (xu :: XU)) Hn eq_refl)
      as [E | H]; [left; symmetry; exact (negp_inj _ _ E) |].
    right. apply lex_lt_negp, H. }
  assert (Hmax : forall q, In q S -> lex_le q b)
    by (intros q Hq; exact (Top q b (x :: X) Hq eq_refl)).
  exists a, b, (x :: X), (xu :: XU).
  split; [reflexivity |]. split; [reflexivity |].
  split.
  { intros d. rewrite <- (last_cons2 b x X d).
    apply lex_le_antisym.
    + apply Bot. apply InU. left; reflexivity.
    + apply Hmin. apply In1. apply last_In. discriminate. }
  split; [discriminate |].
  split.
  { intros d. rewrite <- (last_cons2 a xu XU d).
    assert (Hl : In (last (a :: xu :: XU) d) S)
      by (apply InU; apply last_In; discriminate).
    apply lex_le_antisym; [apply Hmax, Hl |].
    pose proof (Bot' (negp b) (negp d)
                  ltac:(apply in_map; rewrite <- in_rev; apply In1;
                        left; reflexivity)) as Hb.
    rewrite last_map_negp in Hb.
    destruct Hb as [E | H]; [left; symmetry; exact (negp_inj _ _ E) |].
    right. apply lex_lt_negp, H. }
  split; [discriminate |].
  split; [exact In1 |]. split; [exact InU |].
  split; [exact Ab |].
  intros q Hq.
  assert (Hn : In (negp q) (map negp (rev S)))
    by (apply in_map; apply in_rev in Hq; exact Hq).
  specialize (Ab' _ Hn). unfold above in *.
  apply edges_map in Ab'.
  eapply edges_impl; [| exact Ab'].
  intros u v. cbn beta. rewrite cross_exact_negp. auto.
Qed.

(** *** The hull with exact tests *)

Lemma hull_exact_sorted (points : list zpoint) :
  hull_exact points =
  let S := sorted_by lex_ltb (set_of_by zeqb points) in
  if (List.length S <=? 1)%nat then S
  else removelast (rev (scan_exact S []))
         ++ removelast (rev (scan_exact (rev S) [])).
Proof. reflexivity. Qed.

Lemma removelast_rev_cons {A : Type} (t : A) (X : list A) :
  removelast (rev (t :: X)) = rev X.
Proof. simpl. apply removelast_last. Qed.

Lemma rev_last_first {A : Type} (X : list A) (a : A) :
  X <> [] -> (forall d, last X d = a) -> exists r, rev X = a :: r.
Proof.
  intros Hne Hlast.
  rewrite (app_removelast_last a Hne), Hlast, rev_app_distr.
  eexists. reflexivity.
Qed.

Lemma hull_exact_of_chains (points : list zpoint) :
  let S := sorted_by lex_ltb (set_of_by zeqb points) in
  (2 <= List.length S)%nat ->
  exists a b X XU,
    scan_exact S [] = b :: X /\
    scan_exact (rev S) [] = a :: XU /\
    (forall d, last X d = a) /\ X <> [] /\
    (forall d, last XU d = b) /\ XU <> [] /\
    incl (b :: X) points /\ incl (a :: XU) points /\
    (forall q, In q points -> above (b :: X) q) /\
    (forall q, In q points -> above (a :: XU) q) /\
    hull_exact points = rev X ++ rev XU.
Proof.
  intros S Hlen.
  destruct (canonical_points points) as (HS & Hin). fold S in HS, Hin.
  destruct (hull_chains S HS Hlen)
    as (a & b & X & XU & EK & EKU & La & HX & Lb & HXU & I1 & I2 & A1 & A2).
  exists a, b, X, XU.
  repeat (split; [assumption |]).
  split; [intros z Hz; apply Hin, I1, Hz |].
  split; [intros z Hz; apply Hin, I2, Hz |].
  split; [intros q Hq; apply A1, Hin, Hq |].
  split; [intros q Hq; apply A2, Hin, Hq |].
  rewrite hull_exact_sorted; cbv zeta; fold S.
  destruct (Nat.leb_spec (List.length S) 1) as [H | _]; [lia |].
  rewrite EK, EKU, !removelast_rev_cons. reflexivity.
Qed.

Lemma hull_exact_short (points : list zpoint) :
  let S := sorted_by lex_ltb (set_of_by zeqb points) in
  (List.length S <= 1)%nat ->
  hull_exact points = S /\ hull_exact S = S.
Proof.
  intros S Hlen. split.
  - rewrite hull_exact_sorted; cbv zeta; fold S.
    destruct (Nat.leb_spec (List.length S) 1) as [_ | H]; [reflexivity | lia].
  - destruct S as [| p [| q S']]; [reflexivity | reflexivity |].
    simpl in Hlen. lia.
Qed.

Lemma hull_exact_idempotent (points : list zpoint) :
  hull_exact (hull_exact points) = hull_exact points.
Proof.
  set (S := sorted_by lex_ltb (set_of_by zeqb points)).
  destruct (Nat.leb_spec (List.length S) 1) as [Hlen | Hlen].
  - destruct (hull_exact_short points Hlen) as (E1 & E2). fold S in E1, E2.
    rewrite E1. exact E2.
  - destruct (hull_exact_of_chains points ltac:(fold S; lia))
      as (a & b & X & XU & EK & EKU & La & HX & Lb & HXU & I1 & I2 & _ & _ & EH).
    fold S in EK, EKU.
    destruct (canonical_points points) as (HS & Hin). fold S in HS, Hin.
    set (H := hull_exact points) in *.
    destruct (canonical_points H) as (HS2 & Hin2).
    set (S2 := sorted_by lex_ltb (set_of_by zeqb H)) in *.
    assert (HinH : forall z, In z H <-> In z X \/ In z XU).
    { intros z. rewrite EH, in_app_iff, <- !in_rev. tauto. }
    assert (Ha : In a X) by (rewrite <- (La a); apply last_In, HX).
    assert (Hb : In b XU) by (rewrite <- (Lb b); apply last_In, HXU).
    assert (Hsub : incl S2 S).
    { intros z Hz. apply Hin2, HinH in Hz. apply Hin.
      destruct Hz as [Hz | Hz]; [apply I1 | apply I2]; right; exact Hz. }
    assert (HK : incl (scan_exact S []) S2).
    { rewrite EK. intros z [<- | Hz]; apply Hin2, HinH; auto. }
    assert (HKU : incl (scan_exact (rev S) []) S2).
    { rewrite EKU. intros z [<- | Hz]; apply Hin2, HinH; auto. }
    pose proof (lower_chain_determined S S2 HS HS2 Hsub HK) as E1.
    pose proof (upper_chain_determined S S2 HS HS2 Hsub HKU) as E2.
    rewrite hull_exact_sorted; cbv zeta; fold S2.
    destruct (Nat.leb_spec (List.length S2) 1) as [Hshort | _].
    + exfalso. rewrite EK in E1.
      destruct S2 as [| p [| q S2']]; [discriminate E1 | | simpl in Hshort; lia].
      injection E1 as _ E1. apply HX. symmetry. exact E1.
    + rewrite E1, E2, EK, EKU, !removelast_rev_cons. symmetry. exact EH.
Qed.

(** Every point given lies on or to the left of every edge of the closed
    ring of the hull. *)
Lemma hull_exact_encloses (points : list zpoint) (q first : zpoint)
    (rest : list zpoint) :
  In q points -> hull_exact points = first :: rest ->
  edges (fun v u => 0 <= cross_exact v u q) (rev (first :: rest ++ [first])).
Proof.
  intros Hq EH.
  set (S := sorted_by lex_ltb (set_of_by zeqb points)).
  destruct (Nat.leb_spec (List.length S) 1) as [Hlen | Hlen].
  - destruct (hull_exact_short points Hlen) as (E1 & _). fold S in E1.
    rewrite EH in E1.
    destruct S as [| p [| p' S']]; [discriminate E1 | | simpl in Hlen; lia].
    injection E1 as -> ->. simpl.
    split; [unfold cross_exact; lia | exact I].
  - destruct (hull_exact_of_chains points ltac:(fold S; lia))
      as (a & b & X & XU & EK & EKU & La & HX & Lb & HXU & I1 & I2 & A1 & A2 & E).
    destruct (rev_last_first X a HX La) as (r & Er).
    destruct (rev_last_first XU b HXU Lb) as (ru & Eru).
    rewrite EH, Er in E. simpl in E. injection E as -> ->.
    assert (Ering : a :: (r ++ rev XU) ++ [a] = rev ((a :: XU) ++ X)).
    { rewrite rev_app_distr, Er. simpl. rewrite <- app_assoc. reflexivity. }
    rewrite Ering, rev_involutive.
    (* the stack a :: XU ++ X : the upper chain above the lower chain *)
    replace ((a :: XU) ++ X) with ((a :: removelast XU) ++ b :: X).
    + apply edges_app.
      * replace ((a :: removelast XU) ++ [b]) with (a :: XU); [exact (A2 q Hq) |].
        simpl. f_equal.
        pose proof (app_removelast_last b HXU) as Eu.
        rewrite (Lb b) in Eu. exact Eu.
      * exact (A1 q Hq).
    + simpl. f_equal.
      pose proof (app_removelast_last b HXU) as Eu.
      rewrite (Lb b) in Eu. rewrite Eu at 2. rewrite <- app_assoc.
      reflexivity.
Qed.

(** *** The hull picks its vertices among the points given *)

Lemma set_of_by_acc_incl {A : Type} (eqb : A -> A -> bool) (points : list A) :
  forall seen,
    incl (fold_left (fun seen p =>
            if existsb (eqb p) seen then seen else seen ++ [p]) points seen)
         (seen ++ points).
Proof.
  induction points as [| p l IH]; intros seen; cbn [fold_left].
  - rewrite app_nil_r. apply incl_refl.
  - destruct (existsb (eqb p) seen).
    + intros x Hx. apply IH in Hx. apply in_app_or in Hx.
      apply in_or_app. simpl. tauto.
    + intros x Hx. apply IH in Hx. rewrite <- app_assoc in Hx. exact Hx.
Qed.

Lemma set_of_by_incl {A : Type} (eqb : A -> A -> bool) (points : list A) : incl (set_of_by eqb points) points.
Proof. exact (set_of_by_acc_incl eqb points []). Qed.

Lemma insert_by_In {A : Type} (ltb : A -> A -> bool) (p : A) (l : list A)
    (x : A) :
  In x (insert_by ltb p l) <-> x = p \/ In x l.
Proof.
  induction l as [| q l IH]; simpl; [intuition congruence |].
  destruct (ltb q p); simpl; [rewrite IH |]; intuition congruence.
Qed.

Lemma sorted_by_In {A : Type} (ltb : A -> A -> bool) (l : list A) (x : A) : In x (sorted_by ltb l) <-> In x l.
Proof.
  induction l as [| p l IH]; simpl; [tauto |].
  rewrite insert_by_In, IH. intuition congruence.
Qed.

Lemma pop_while_by_incl {A : Type} (clockwise : A -> A -> A -> bool)
    (stack : list A) (p : A) :
  incl (pop_while_by clockwise stack p) stack.
Proof.
  induction stack as [| top below IH]; [apply incl_refl |].
  destruct below as [| under rest]; [apply incl_refl |].
  change (pop_while_by clockwise (top :: under :: rest) p)
    with (if clockwise under top p
          then pop_while_by clockwise (under :: rest) p
          else top :: under :: rest).
  destruct (clockwise under top p); [| apply incl_refl].
  intros x Hx. right. exact (IH x Hx).
Qed.

Lemma scan_by_incl {A : Type} (clockwise : A -> A -> A -> bool)
    (points : list A) :
  forall stack,
    incl (fold_left (push_by clockwise) points stack) (stack ++ points).
Proof.
  induction points as [| p l IH]; intros stack; cbn [fold_left].
  - rewrite app_nil_r. apply incl_refl.
  - intros x Hx. apply IH in Hx. apply in_app_or in Hx.
    apply in_or_app. destruct Hx as [[<- | Hx] | Hx].
    + right; left; reflexivity.
    + left. exact (pop_while_by_incl _ _ _ _ Hx).
    + right; right; exact Hx.
Qed.

Lemma chain_by_incl {A : Type} (clockwise : A -> A -> A -> bool)
    (points : list A) :
  incl (chain_by clockwise points) points.
Proof.
  intros x Hx. unfold chain_by in Hx. apply in_rev in Hx.
  exact (scan_by_incl clockwise points [] x Hx).
Qed.

Lemma removelast_incl {A : Type} (l : list A) : incl (removelast l) l.
Proof.
  induction l as [| a l IH]; [apply incl_refl |].
  destruct l as [| b l]; [intros x [] |].
  intros x [<- | Hx]; [left; reflexivity | right; exact (IH x Hx)].
Qed.

Lemma hull_by_incl {A : Type} (eqb ltb : A -> A -> bool)
    (clockwise : A -> A -> A -> bool) (points : list A) :
  incl (hull_by eqb ltb clockwise points) points.
Proof.
  unfold hull_by.
  assert (Hs : incl (sorted_by ltb (set_of_by eqb points)) points).
  { intros x Hx. rewrite sorted_by_In in Hx. exact (set_of_by_incl _ _ _ Hx). }
  destruct (_ <=? 1)%nat; [exact Hs |].
  intros x Hx. apply in_app_or in Hx. apply Hs.
  destruct Hx as [Hx | Hx]; apply removelast_incl, chain_by_incl in Hx;
    [exact Hx | apply in_rev; exact Hx].
Qed.


(** *** Two families of tests that agree *)

Section Agreement.

Context {A B : Type}.
Variables (f : A -> B).
Variables (eqb ltb : A -> A -> bool) (clockwise : A -> A -> A -> bool).
Variables (eqb' ltb' : B -> B -> bool) (clockwise' : B -> B -> B -> bool).
Variable D : list A.

Hypothesis eqb_agrees :
  forall p q, In p D -> In q D -> eqb p q = eqb' (f p) (f q).
Hypothesis ltb_agrees :
  forall p q, In p D -> In q D -> ltb p q = ltb' (f p) (f q).
Hypothesis clockwise_agrees :
  forall o a b, In o D -> In a D -> In b D ->
    clockwise o a b = clockwise' (f o) (f a) (f b).

Lemma existsb_agrees (p : A) (seen : list A) :
  In p D -> incl seen D ->
  existsb (eqb p) seen = existsb (eqb' (f p)) (map f seen).
Proof.
  intros Hp. induction seen as [| q seen IH]; intros Hs; [reflexivity |].
  simpl. rewrite (eqb_agrees p q Hp (Hs q (or_introl eq_refl))).
  rewrite IH; [reflexivity |].
  intros x Hx. apply Hs. right; exact Hx.
Qed.

Lemma set_of_by_acc_agrees (points : list A) :
  forall seen,
    incl points D -> incl seen D ->
    map f (fold_left (fun seen p =>
             if existsb (eqb p) seen then seen else seen ++ [p]) points seen) =
    fold_left (fun seen p =>
      if existsb (eqb' p) seen then seen else seen ++ [p])
      (map f points) (map f seen).
Proof.
  induction points as [| p l IH]; intros seen Hl Hs; [reflexivity |].
  cbn [fold_left map].
  assert (Hp : In p D) by (apply Hl; left; reflexivity).
  assert (Hl' : incl l D) by (intros x Hx; apply Hl; right; exact Hx).
  rewrite <- (existsb_agrees p seen Hp Hs).
  destruct (existsb (eqb p) seen).
  - apply IH; assumption.
  - rewrite IH; [rewrite map_app; reflexivity | exact Hl' |].
    intros x Hx. apply in_app_or in Hx.
    destruct Hx as [Hx | [<- | []]]; [apply Hs, Hx | exact Hp].
Qed.

Lemma set_of_by_agrees (points : list A) :
  incl points D ->
  map f (set_of_by eqb points) = set_of_by eqb' (map f points).
Proof.
  intros H. apply (set_of_by_acc_agrees points [] H). intros x [].
Qed.

Lemma insert_by_agrees (p : A) (l : list A) :
  In p D -> incl l D ->
  map f (insert_by ltb p l) = insert_by ltb' (f p) (map f l).
Proof.
  intros Hp. induction l as [| q l IH]; intros Hl; [reflexivity |].
  simpl. rewrite (ltb_agrees q p (Hl q (or_introl eq_refl)) Hp).
  destruct (ltb' (f q) (f p)); simpl; [| reflexivity].
  rewrite IH; [reflexivity |].
  intros x Hx. apply Hl. right; exact Hx.
Qed.

Lemma sorted_by_agrees (l : list A) :
  incl l D -> map f (sorted_by ltb l) = sorted_by ltb' (map f l).
Proof.
  induction l as [| p l IH]; intros Hl; [reflexivity |].
  assert (Hl' : incl l D) by (intros x Hx; apply Hl; right; exact Hx).
  simpl. rewrite insert_by_agrees.
  - rewrite IH by exact Hl'. reflexivity.
  - apply Hl. left; reflexivity.
  - intros x Hx. rewrite sorted_by_In in Hx. apply Hl'. exact Hx.
Qed.

Lemma pop_while_by_agrees (stack : list A) (p : A) :
  incl stack D -> In p D ->
  map f (pop_while_by clockwise stack p) =
  pop_while_by clockwise' (map f stack) (f p).
Proof.
  intros Hs Hp. induction stack as [| top below IH]; [reflexivity |].
  destruct below as [| under rest]; [reflexivity |].
  change (pop_while_by clockwise (top :: under :: rest) p)
    with (if clockwise under top p
          then pop_while_by clockwise (under :: rest) p
          else top :: under :: rest).
  change (pop_while_by clockwise' (map f (top :: under :: rest)) (f p))
    with (if clockwise' (f under) (f top) (f p)
          then pop_while_by clockwise' (map f (under :: rest)) (f p)
          else map f (top :: under :: rest)).
  rewrite <- (clockwise_agrees under top p);
    [| apply Hs; right; left; reflexivity | apply Hs; left; reflexivity
     | exact Hp].
  destruct (clockwise under top p); [| reflexivity].
  apply IH. intros x Hx. apply Hs. right; exact Hx.
Qed.

Lemma scan_by_agrees (points : list A) :
  forall stack,
    incl points D -> incl stack D ->
    map f (fold_left (push_by clockwise) points stack) =
    fold_left (push_by clockwise') (map f points) (map f stack).
Proof.
  induction points as [| p l IH]; intros stack Hl Hs; [reflexivity |].
  assert (Hp : In p D) by (apply Hl; left; reflexivity).
  cbn [fold_left map]. rewrite IH.
  - unfold push_by at 2 4. cbn [map].
    rewrite pop_while_by_agrees; auto.
  - intros x Hx. apply Hl. right; exact Hx.
  - intros x [<- | Hx]; [exact Hp |].
    apply Hs. exact (pop_while_by_incl _ _ _ _ Hx).
Qed.

Lemma chain_by_agrees (points : list A) :
  incl points D ->
  map f (chain_by clockwise points) = chain_by clockwise' (map f points).
Proof.
  intros H. unfold chain_by. rewrite map_rev. f_equal.
  apply (scan_by_agrees points [] H). intros x [].
Qed.

Lemma map_removelast (l : list A) :
  map f (removelast l) = removelast (map f l).
Proof.
  induction l as [| a l IH]; [reflexivity |].
  destruct l as [| b l]; [reflexivity |].
  change (map f (removelast (a :: b :: l)))
    with (f a :: map f (removelast (b :: l))).
  rewrite IH. reflexivity.
Qed.

Lemma hull_by_agrees (points : list A) :
  incl points D ->
  map f (hull_by eqb ltb clockwise points) =
  hull_by eqb' ltb' clockwise' (map f points).
Proof.
  intros H. unfold hull_by.
  assert (Hs : incl (sorted_by ltb (set_of_by eqb points)) D).
  { intros x Hx. rewrite sorted_by_In in Hx. apply H.
    exact (set_of_by_incl _ _ _ Hx). }
  rewrite <- set_of_by_agrees, <- sorted_by_agrees by
    (try exact H; intros x Hx; apply H; exact (set_of_by_incl _ _ _ Hx)).
  rewrite length_map.
  destruct (_ <=? 1)%nat; [reflexivity |].
  rewrite map_app, !map_removelast, !chain_by_agrees, map_rev; auto.
  intros x Hx. apply Hs, in_rev, Hx.
Qed.

End Agreement.

(** *** The hull on floats *)

Lemma convex_hull_by_tests (points : list point) :
  convex_hull points = hull_by point_eqb point_ltb clockwise points.
Proof. reflexivity. Qed.

Lemma point_same_eq (p q : point) : point_same p q = true -> p = q.
Proof.
  destruct p as (px, py), q as (qx, qy). unfold point_same. simpl.
  rewrite andb_true_iff, !Leibniz.eqb_spec. intros (-> & ->). reflexivity.
Qed.

Lemma exact_on_spec (exact : point -> zpoint) (points : list point) :
  exact_on exact points = true ->
  (forall p q, In p points -> In q points ->
     point_eqb p q = zeqb (exact p) (exact q)) /\
  (forall p q, In p points -> In q points ->
     point_ltb p q = lex_ltb (exact p) (exact q)) /\
  (forall o a b, In o points -> In a points -> In b points ->
     clockwise o a b = clockwise_exact (exact o) (exact a) (exact b)) /\
  (forall p q, In p points -> In q points -> exact p = exact q -> p = q).
Proof.
  unfold exact_on. rewrite forallb_forall. intros H.
  assert (H' : forall p q, In p points -> In q points ->
    point_eqb p q = zeqb (exact p) (exact q) /\
    point_ltb p q = lex_ltb (exact p) (exact q) /\
    (zeqb (exact p) (exact q) = true -> point_same p q = true) /\
    forall o, In o points ->
      clockwise o p q = clockwise_exact (exact o) (exact p) (exact q)).
  { intros p q Hp Hq. specialize (H p Hp). rewrite forallb_forall in H.
    specialize (H q Hq). rewrite !andb_true_iff, forallb_forall in H.
    destruct H as (((H1 & H2) & H3) & H4).
    apply Bool.eqb_prop in H1, H2.
    split; [exact H1 |]. split; [exact H2 |]. split.
    - intros E. rewrite E in H3. exact H3.
    - intros o Ho. apply Bool.eqb_prop. exact (H4 o Ho). }
  split; [intros p q Hp Hq; apply (H' p q Hp Hq) |].
  split; [intros p q Hp Hq; apply (H' p q Hp Hq) |].
  split; [intros o a b Ho Ha Hb; apply (H' a b Ha Hb); exact Ho |].
  intros p q Hp Hq E. apply point_same_eq.
  apply (H' p q Hp Hq). apply zeqb_eq. exact E.
Qed.

Lemma convex_hull_incl (points : list point) :
  incl (convex_hull points) points.
Proof. rewrite convex_hull_by_tests. apply hull_by_incl. Qed.

Lemma convex_hull_exact (exact : point -> zpoint) (points l : list point) :
  exact_on exact points = true -> incl l points ->
  map exact (convex_hull l) = hull_exact (map exact l).
Proof.
  intros H Hl. destruct (exact_on_spec _ _ H) as (H1 & H2 & H3 & _).
  rewrite convex_hull_by_tests. unfold hull_exact.
  exact (hull_by_agrees exact point_eqb point_ltb clockwise
           zeqb lex_ltb clockwise_exact points H1 H2 H3 l Hl).
Qed.

Lemma map_inj_on {A B : Type} (f : A -> B) (D l l' : list A) :
  (forall p q, In p D -> In q D -> f p = f q -> p = q) ->
  incl l D -> incl l' D -> map f l = map f l' -> l = l'.
Proof.
  intros Hinj. revert l'. induction l as [| a l IH]; intros [| b l'] Hl Hl' E;
    try discriminate; [reflexivity |].
  cbn [map] in E. injection E as E1 E2. f_equal.
  - apply Hinj; [apply Hl | apply Hl' |]; auto; left; reflexivity.
  - apply IH; auto; intros x Hx; [apply Hl | apply Hl']; right; exact Hx.
Qed.

(** X9.  The hull invents no point: every vertex returned by
    [convex_hull] is one of the points given, and every vertex of the ring
    of the network footprint is the position [(lng, lat)] of a station. *)
Theorem convex_hull_vertices_are_input_points :
  (forall points p, In p (convex_hull points) -> In p points) /\
  (forall stations ring,
      hull_coords stations = OK ring ->
      forall p, In p ring ->
        exists s, In s stations /\ p = (lng s, lat s)).
Proof.
  split; [intros points p; apply convex_hull_incl |].
  intros stations ring E p Hp.
  unfold hull_coords in E. rewrite map_pair_id in E. inv_bind E.
  injection E as <-.
  assert (Hv : In v (convex_hull (map (fun s => (lng s, lat s)) stations))).
  { unfold Py.index in E0.
    destruct (nth_error _ _) as [x |] eqn:En; [| discriminate].
    injection E0 as <-. exact (nth_error_In _ _ En). }
  assert (Hin : In p (convex_hull (map (fun s => (lng s, lat s)) stations))).
  { apply in_app_or in Hp. destruct Hp as [Hp | [<- | []]]; assumption. }
  apply convex_hull_incl, in_map_iff in Hin.
  destruct Hin as (s & <- & Hs). exists s. split; [exact Hs | reflexivity].
Qed.

(** X10.  When the tests of [convex_hull] on the points given come out as
    in exact arithmetic (for an embedding [exact] of these points into
    integer points), the hull is the one computed with exact tests, and
    [convex_hull] is idempotent on it: the hull of the hull is the hull.
    Rounding in the cross products is the only obstacle to idempotence. *)
Theorem convex_hull_idempotent_when_exact (exact : point -> zpoint)
    (points : list point) :
  exact_on exact points = true ->
  map exact (convex_hull points) = hull_exact (map exact points) /\
  convex_hull (convex_hull points) = convex_hull points.
Proof.
  intros H.
  pose proof (convex_hull_exact exact points points H (incl_refl _)) as E.
  split; [exact E |].
  destruct (exact_on_spec _ _ H) as (_ & _ & _ & Hinj).
  pose proof (convex_hull_incl points) as Hi.
  apply (map_inj_on exact points); [exact Hinj | | exact Hi |].
  - intros x Hx. apply Hi. exact (convex_hull_incl _ x Hx).
  - rewrite (convex_hull_exact exact points _ H Hi), E.
    apply hull_exact_idempotent.
Qed.

Lemma convex_hull_idempotent_when_exact_witness :
  convex_hull (convex_hull (map station_point grid_stations)) =
  convex_hull (map station_point grid_stations).
Proof.
  apply (convex_hull_idempotent_when_exact integer_point).
  vm_compute. reflexivity.
Defined.

(** X11.  Under the same condition on the station positions, no station
    lies outside the network footprint: every station is on or to the left
    of every edge of the closed ring of line 326, taken in the order of the
    ring (counter-clockwise). *)
Theorem hull_ring_encloses_when_exact (exact : point -> zpoint)
    (stations : list station) (ring : list point) :
  exact_on exact (map station_point stations) = true ->
  hull_coords stations = OK ring ->
  forall i u v s,
    nth_error ring i = Some u -> nth_error ring (S i) = Some v ->
    In s stations ->
    0 <= cross_exact (exact u) (exact v) (exact (station_point s)).
Proof.
  intros H E i u v s Hu Hv Hs.
  unfold hull_coords in E. rewrite map_pair_id in E.
  change (map (fun s => (lng s, lat s)) stations)
    with (map station_point stations) in E.
  pose proof (convex_hull_exact exact _ _ H (incl_refl _)) as EH.
  revert E EH. unfold point.
  generalize (convex_hull (@map station (float * float) station_point stations)).
  intros hull E EH.
  destruct hull as [| first rest];
    [change (@Raise (list (float * float)) IndexError = OK ring) in E;
     discriminate E |].
  change (OK ((first :: rest) ++ [first]) = OK ring) in E.
  injection E as <-.
  assert (Hq : In (exact (station_point s))
                 (map exact (map station_point stations)))
    by (apply in_map, in_map, Hs).
  cbn [map] in EH. symmetry in EH.
  pose proof (hull_exact_encloses _ _ _ _ Hq EH) as Hedges.
  apply edges_rev in Hedges. rewrite rev_involutive in Hedges.
  apply (edges_nth _ _ Hedges i).
  - change (exact first :: map exact rest ++ [exact first])
      with (map exact (first :: rest) ++ map exact [first]).
    rewrite <- map_app. apply map_nth_error. exact Hu.
  - change (exact first :: map exact rest ++ [exact first])
      with (map exact (first :: rest) ++ map exact [first]).
    rewrite <- map_app. apply map_nth_error. exact Hv.
Qed.

Lemma hull_ring_encloses_when_exact_witness :
  exists ring,
    hull_coords grid_stations = OK ring /\
    forall i u v s,
      nth_error ring i = Some u -> nth_error ring (S i) = Some v ->
      In s grid_stations ->
      0 <= cross_exact (integer_point u) (integer_point v)
             (integer_point (station_point s)).
Proof.
  destruct (hull_coords grid_stations) as [ring |] eqn:E;
    [| exfalso; vm_compute in E; discriminate E].
  exists ring. split; [reflexivity |].
  apply (hull_ring_encloses_when_exact integer_point grid_stations ring);
    [vm_compute; reflexivity | exact E].
Defined.

(** ** Arithmetic on NaN *)

Lemma is_nan_Prim2SF (x : float) : is_nan x = true -> Prim2SF x = S754_nan.
Proof. unfold Prim2SF. intros ->. reflexivity. Qed.

Lemma Prim2SF_is_nan (x : float) : Prim2SF x = S754_nan -> is_nan x = true.
Proof.
  intros E. destruct (is_nan x) eqn:H; [reflexivity |].
  contradiction (Prim2SF_not_nan x H).
Qed.

Lemma sub_nan_l (x y : float) : is_nan x = true -> is_nan (x - y) = true.
Proof.
  intros H. apply Prim2SF_is_nan. rewrite sub_spec, (is_nan_Prim2SF x H).
  reflexivity.
Qed.

Lemma sub_nan_r (x y : float) : is_nan y = true -> is_nan (x - y) = true.
Proof.
  intros H. apply Prim2SF_is_nan. rewrite sub_spec, (is_nan_Prim2SF y H).
  destruct (Prim2SF x); reflexivity.
Qed.

Lemma mul_nan_l (x y : float) : is_nan x = true -> is_nan (x * y) = true.
Proof.
  intros H. apply Prim2SF_is_nan. rewrite mul_spec, (is_nan_Prim2SF x H).
  reflexivity.
Qed.

Lemma add_nan_l (x y : float) : is_nan x = true -> is_nan (x + y) = true.
Proof.
  intros H. apply Prim2SF_is_nan. rewrite add_spec, (is_nan_Prim2SF x H).
  reflexivity.
Qed.

Lemma div_nan_l (x y : float) : is_nan x = true -> is_nan (x / y) = true.
Proof.
  intros H. apply Prim2SF_is_nan. rewrite div_spec, (is_nan_Prim2SF x H).
  reflexivity.
Qed.

Lemma sqrt_nan (x : float) : is_nan x = true -> is_nan (PrimFloat.sqrt x) = true.
Proof.
  intros H. apply Prim2SF_is_nan. rewrite sqrt_spec, (is_nan_Prim2SF x H).
  reflexivity.
Qed.

Lemma ltb_nan_l (x y : float) : is_nan x = true -> (x <? y)%float = false.
Proof. intros H. rewrite ltb_spec, (is_nan_Prim2SF x H). reflexivity. Qed.

Lemma ltb_nan_r (x y : float) : is_nan y = true -> (x <? y)%float = false.
Proof.
  intros H. rewrite ltb_spec, (is_nan_Prim2SF y H).
  destruct (Prim2SF x); reflexivity.
Qed.

Lemma leb_nan_l (x y : float) : is_nan x = true -> (x <=? y)%float = false.
Proof. intros H. rewrite leb_spec, (is_nan_Prim2SF x H). reflexivity. Qed.

Lemma leb_nan_r (x y : float) : is_nan y = true -> (x <=? y)%float = false.
Proof.
  intros H. rewrite leb_spec, (is_nan_Prim2SF y H).
  destruct (Prim2SF x); reflexivity.
Qed.

Lemma pow2_nan (x : float) :
  is_nan x = true -> exists y, pow2 x = OK y /\ is_nan y = true.
Proof.
  intros H. unfold pow2, is_finite. rewrite H. simpl.
  eexists. split; [reflexivity | apply mul_nan_l, H].
Qed.

Lemma sqrt_of_nan (x : float) :
  is_nan x = true -> exists y, Py.sqrt x = OK y /\ is_nan y = true.
Proof.
  intros H. unfold Py.sqrt. rewrite (ltb_nan_l _ _ H).
  eexists. split; [reflexivity | apply sqrt_nan, H].
Qed.

Lemma ceil_nan (x : float) : is_nan x = true -> Py.ceil x = Raise ValueError.
Proof. intros H. unfold Py.ceil. rewrite (is_nan_Prim2SF x H). reflexivity. Qed.

(** ** A station without coordinates *)

Lemma fold_min_nan_first (rest : list float) (x : float) :
  is_nan x = true ->
  fold_left (fun m y => if (y <? m)%float then y else m) rest x = x.
Proof.
  intros H. induction rest as [| y rest IH]; [reflexivity |].
  simpl. rewrite (ltb_nan_r y x H). exact IH.
Qed.

Lemma fold_max_nan_first (rest : list float) (x : float) :
  is_nan x = true ->
  fold_left (fun m y => if (m <? y)%float then y else m) rest x = x.
Proof.
  intros H. induction rest as [| y rest IH]; [reflexivity |].
  simpl. rewrite (ltb_nan_l x y H). exact IH.
Qed.

Lemma min_skips_nan (xs1 xs2 : list float) (y : float) :
  xs1 <> [] -> is_nan y = true ->
  Py.min (xs1 ++ y :: xs2) = Py.min (xs1 ++ xs2).
Proof.
  intros Hne H. destruct xs1 as [| x xs1]; [congruence |].
  simpl. f_equal. rewrite !fold_left_app. simpl.
  rewrite (ltb_nan_l y _ H). reflexivity.
Qed.

Lemma max_skips_nan (xs1 xs2 : list float) (y : float) :
  xs1 <> [] -> is_nan y = true ->
  Py.max (xs1 ++ y :: xs2) = Py.max (xs1 ++ xs2).
Proof.
  intros Hne H. destruct xs1 as [| x xs1]; [congruence |].
  simpl. f_equal. rewrite !fold_left_app. simpl.
  rewrite (ltb_nan_r _ y H). reflexivity.
Qed.

Lemma bounding_box_skips_nan (before after : list station) (s : station) :
  before <> [] -> nan_station s = true ->
  bounding_box (before ++ s :: after) = bounding_box (before ++ after).
Proof.
  intros Hne H. apply andb_true_iff in H. destruct H as (Hlat & Hlng).
  unfold bounding_box. rewrite !map_app. cbn [map].
  assert (Hm : forall f : station -> float, map f before <> [])
    by (intros f E; apply map_eq_nil in E; contradiction).
  rewrite (min_skips_nan _ _ _ (Hm lat) Hlat), (max_skips_nan _ _ _ (Hm lat) Hlat).
  rewrite (min_skips_nan _ _ _ (Hm lng) Hlng), (max_skips_nan _ _ _ (Hm lng) Hlng).
  reflexivity.
Qed.

Lemma in_buffer_nan (x y : float) (t : float * float) :
  is_nan (fst t) = true -> is_nan (snd t) = true ->
  in_buffer x y t = OK false.
Proof.
  intros Hy Hx. unfold in_buffer.
  destruct (pow2_nan (x - snd t) (sub_nan_r _ _ Hx)) as (dx2 & -> & Hdx).
  destruct (pow2_nan (y - fst t) (sub_nan_r _ _ Hy)) as (dy2 & -> & Hdy).
  cbn [bind].
  assert (Er : pow2 BUFFER_KM = OK 1%float) by (vm_compute; reflexivity).
  rewrite Er. cbn [bind]. rewrite (leb_nan_l _ _ (add_nan_l _ _ Hdx)). reflexivity.
Qed.

Lemma cell_covered_skips_nan (x y : float) (t : float * float)
    (skm1 skm2 : list (float * float)) :
  is_nan (fst t) = true -> is_nan (snd t) = true ->
  cell_covered x y (skm1 ++ t :: skm2) = cell_covered x y (skm1 ++ skm2).
Proof.
  intros Hy Hx. induction skm1 as [| u skm1 IH].
  - cbn [app]. rewrite cell_covered_cons, (in_buffer_nan x y t Hy Hx).
    reflexivity.
  - cbn [app]. rewrite !cell_covered_cons.
    destruct (in_buffer x y u) as [[|] |]; cbn [bind]; [reflexivity | exact IH | reflexivity].
Qed.

Lemma covered_cells_skips_nan (rows cols : Z) (t : float * float)
    (skm1 skm2 : list (float * float)) :
  is_nan (fst t) = true -> is_nan (snd t) = true ->
  covered_cells rows cols (skm1 ++ t :: skm2) =
  covered_cells rows cols (skm1 ++ skm2).
Proof.
  intros Hy Hx. unfold covered_cells.
  apply for_each_ext. intros r n.
  apply for_each_ext. intros c m.
  rewrite (cell_covered_skips_nan _ _ t skm1 skm2 Hy Hx). reflexivity.
Qed.

Lemma stations_km_nan (b : bbox) (s : station) :
  nan_station s = true ->
  exists t, stations_km b [s] = [t] /\
            is_nan (fst t) = true /\ is_nan (snd t) = true.
Proof.
  intros H. apply andb_true_iff in H. destruct H as (Hlat & Hlng).
  eexists. split; [reflexivity |]. cbn [fst snd].
  split; apply mul_nan_l, sub_nan_l; assumption.
Qed.

Lemma stations_km_app (b : bbox) (l1 l2 : list station) :
  stations_km b (l1 ++ l2) = stations_km b l1 ++ stations_km b l2.
Proof. unfold stations_km. apply map_app. Qed.

Lemma coverage_skips_nan (before after : list station) (s : station) :
  before <> [] -> nan_station s = true ->
  coverage (before ++ s :: after) = coverage (before ++ after).
Proof.
  intros Hne H. unfold coverage.
  rewrite (bounding_box_skips_nan before after s Hne H).
  destruct (bounding_box (before ++ after)) as [b |]; [| reflexivity].
  cbn [bind].
  destruct (n_rows b) as [rows |]; [| reflexivity]. cbn [bind].
  destruct (n_cols b) as [cols |]; [| reflexivity]. cbn [bind].
  destruct (stations_km_nan b s H) as (t & Et & Hy & Hx).
  change (before ++ s :: after) with (before ++ [s] ++ after).
  rewrite !stations_km_app, Et. cbn [app].
  rewrite (covered_cells_skips_nan rows cols t _ _ Hy Hx). reflexivity.
Qed.

Lemma coverage_nan_first (s : station) (after : list station) :
  is_nan (lat s) = true -> coverage (s :: after) = Raise ValueError.
Proof.
  intros H. unfold coverage, bounding_box. cbn [map Py.min Py.max bind].
  rewrite (fold_min_nan_first _ _ H), (fold_max_nan_first _ _ H).
  unfold n_rows at 1. cbn [max_lat min_lat].
  rewrite ceil_nan; [reflexivity |].
  apply div_nan_l, mul_nan_l, sub_nan_l, add_nan_l, H.
Qed.

Lemma map_m_app {A B : Type} (f : A -> result B) (l1 l2 : list A) :
  map_m f (l1 ++ l2) =
  (ys1 <- map_m f l1 ;; ys2 <- map_m f l2 ;; OK (ys1 ++ ys2)).
Proof.
  induction l1 as [| a l1 IH]; cbn [app map_m bind].
  - destruct (map_m f l2); reflexivity.
  - destruct (f a) as [y |]; cbn [bind]; [| reflexivity].
    rewrite IH. destruct (map_m f l1) as [ys1 |]; cbn [bind]; [| reflexivity].
    destruct (map_m f l2); reflexivity.
Qed.

Lemma planar_distance_nan (x y : float) (t : float * float) :
  is_nan (fst t) = true -> is_nan (snd t) = true ->
  exists d, planar_distance x y t = OK d /\ is_nan d = true.
Proof.
  intros Hy Hx. unfold planar_distance.
  destruct (pow2_nan (x - snd t) (sub_nan_r _ _ Hx)) as (dx2 & -> & Hdx).
  destruct (pow2_nan (y - fst t) (sub_nan_r _ _ Hy)) as (dy2 & -> & Hdy).
  cbn [bind]. apply sqrt_of_nan, add_nan_l, Hdx.
Qed.

Lemma cell_min_dist_skips_nan (x y : float) (t : float * float)
    (skm1 skm2 : list (float * float)) :
  skm1 <> [] -> is_nan (fst t) = true -> is_nan (snd t) = true ->
  cell_min_dist x y (skm1 ++ t :: skm2) = cell_min_dist x y (skm1 ++ skm2).
Proof.
  intros Hne Hy Hx. rewrite !cell_min_dist_planar, !map_m_app.
  destruct (map_m (planar_distance x y) skm1) as [ds1 |] eqn:E1;
    cbn [bind]; [| reflexivity].
  cbn [map_m].
  destruct (planar_distance_nan x y t Hy Hx) as (d & -> & Hd). cbn [bind].
  destruct (map_m (planar_distance x y) skm2) as [ds2 |]; cbn [bind];
    [| reflexivity].
  apply min_skips_nan; [| exact Hd].
  intros ->. apply map_m_length in E1.
  destruct skm1; [congruence | discriminate E1].
Qed.

Lemma desert_center_cells_skips_nan (b : bbox) (rows cols : Z)
    (t : float * float) (skm1 skm2 : list (float * float)) :
  skm1 <> [] -> is_nan (fst t) = true -> is_nan (snd t) = true ->
  desert_center_cells b rows cols (skm1 ++ t :: skm2) =
  desert_center_cells b rows cols (skm1 ++ skm2).
Proof.
  intros Hne Hy Hx. unfold desert_center_cells.
  apply for_each_ext. intros r cells.
  apply for_each_ext. intros c cells'.
  unfold desert_step.
  rewrite (cell_min_dist_skips_nan _ _ t skm1 skm2 Hne Hy Hx). reflexivity.
Qed.

Lemma isolation_scan_skips_nan (L : Libm) (before after : list station)
    (s : station) :
  before <> [] -> nan_station s = true ->
  isolation_scan (before ++ s :: after) = isolation_scan (before ++ after).
Proof.
  intros Hne H. unfold isolation_scan.
  rewrite (bounding_box_skips_nan before after s Hne H).
  destruct (bounding_box (before ++ after)) as [b |]; [| reflexivity].
  cbn [bind].
  destruct (n_rows b) as [rows |]; [| reflexivity]. cbn [bind].
  destruct (n_cols b) as [cols |]; [| reflexivity]. cbn [bind].
  destruct (stations_km_nan b s H) as (t & Et & Hy & Hx).
  change (before ++ s :: after) with (before ++ [s] ++ after).
  rewrite !stations_km_app, Et. cbn [app].
  assert (Hkm : stations_km b before <> []).
  { intros E. unfold stations_km in E. apply map_eq_nil in E. contradiction. }
  rewrite (desert_center_cells_skips_nan b rows cols t _ _ Hkm Hy Hx).
  reflexivity.
Qed.

(** X12.  A station whose coordinates are both NaN is silently ignored by
    the coverage estimation and by the desert scan when it is not the first
    of the input: the bounding box, the grid, the covered cells and the
    desert zones are those of the other stations.  When it is the first
    (a NaN latitude is enough), [min] and [max] return NaN, and the coverage
    stage, and with it the script, stops with [ValueError] at
    [math.ceil]. *)
Theorem nan_station_is_ignored_unless_first (L : Libm)
    (before after : list station) (s : station) :
  nan_station s = true ->
  (before <> [] ->
   coverage (before ++ s :: after) = coverage (before ++ after) /\
   isolation_scan (before ++ s :: after) = isolation_scan (before ++ after)) /\
  coverage (s :: after) = Raise ValueError /\
  analysis (s :: after) = Raise ValueError.
Proof.
  intros H. split; [| split].
  - intros Hne. split.
    + exact (coverage_skips_nan before after s Hne H).
    + exact (isolation_scan_skips_nan L before after s Hne H).
  - apply coverage_nan_first. apply andb_true_iff in H. apply H.
  - rewrite analysis_stages, coverage_nan_first; [reflexivity |].
    apply andb_true_iff in H. apply H.
Qed.

Lemma nan_station_is_ignored_unless_first_witness :
  coverage ([station_A] ++ station_C :: [station_NE]) =
    coverage ([station_A] ++ [station_NE]) /\
  coverage [station_C; station_A] = Raise ValueError.
Proof.
  destruct (nan_station_is_ignored_unless_first RefLibm.libm
              [station_A] [station_NE] station_C eq_refl) as (H1 & _).
  destruct (nan_station_is_ignored_unless_first RefLibm.libm
              [] [station_A] station_C eq_refl) as (_ & H2 & _).
  split; [apply H1; discriminate | exact H2].
Defined.

(** ** Sorting distinct items

    [sorted(set(xs))] for tests that, on the items at hand, decide equality
    and a strict total order. *)

Section SortedSet.

Context {A : Type}.
Variables (eqb ltb : A -> A -> bool) (D : A -> Prop).

Hypothesis eqb_eq : forall p q, D p -> D q -> (eqb p q = true <-> p = q).
Hypothesis ltb_irrefl : forall p, D p -> ltb p p = false.
Hypothesis ltb_trans :
  forall p q r, D p -> D q -> D r ->
    ltb p q = true -> ltb q r = true -> ltb p r = true.
Hypothesis ltb_total :
  forall p q, D p -> D q -> ltb p q = true \/ p = q \/ ltb q p = true.

Lemma set_of_by_acc_NoDup (points : list A) :
  forall seen,
    Forall D points -> Forall D seen -> NoDup seen ->
    let out := fold_left (fun seen p =>
      if existsb (eqb p) seen then seen else seen ++ [p]) points seen in
    NoDup out /\ forall x, In x out <-> In x seen \/ In x points.
Proof.
  induction points as [| p points IH]; intros seen Hp Hs Hnd; cbn [fold_left].
  - split; [exact Hnd | intros x; simpl; tauto].
  - inversion Hp as [| ? ? Dp Hp']; subst.
    rewrite Forall_forall in Hs.
    destruct (existsb (eqb p) seen) eqn:E.
    + destruct (IH seen Hp' ltac:(apply Forall_forall; exact Hs) Hnd)
        as (H1 & H2).
      split; [exact H1 |].
      intros x. rewrite H2. simpl.
      apply existsb_exists in E. destruct E as (y & Hy & Ey).
      apply (eqb_eq p y Dp (Hs y Hy)) in Ey. subst y.
      split; [tauto | intros [H | [<- | H]]; tauto].
    + assert (Hnew : ~ In p seen).
      { intros Hin.
        assert (existsb (eqb p) seen = true).
        { apply existsb_exists. exists p. split; [exact Hin |].
          apply (eqb_eq p p Dp Dp). reflexivity. }
        congruence. }
      destruct (IH (seen ++ [p]) Hp') as (H1 & H2).
      { apply Forall_forall. intros x Hx. apply in_app_or in Hx.
        destruct Hx as [Hx | [<- | []]]; [apply Hs, Hx | exact Dp]. }
      { apply NoDup_app; [exact Hnd | repeat constructor; intros [] |].
        intros x Hx [<- | []]. exact (Hnew Hx). }
      split; [exact H1 |].
      intros x. rewrite H2, in_app_iff. simpl. tauto.
Qed.

Lemma insert_by_sorted (p : A) (l : list A) :
  D p -> Forall D l ->
  StronglySorted (fun a b => ltb a b = true) l -> ~ In p l ->
  StronglySorted (fun a b => ltb a b = true) (insert_by ltb p l).
Proof.
  intros Dp. induction l as [| q l IH]; intros Dl Hs Hp; simpl.
  - repeat constructor.
  - inversion Dl as [| ? ? Dq Dl']; subst.
    apply StronglySorted_inv in Hs. destruct Hs as (Hs & Hq).
    destruct (ltb q p) eqn:E.
    + constructor.
      * apply IH; [exact Dl' | exact Hs | simpl in Hp; tauto].
      * rewrite Forall_forall in *. intros x Hx.
        apply insert_by_In in Hx. destruct Hx as [-> | Hx]; auto.
    + assert (Hpq : ltb p q = true).
      { destruct (ltb_total p q Dp Dq) as [H | [H | H]]; [exact H | |].
        - subst q. simpl in Hp. tauto.
        - congruence. }
      constructor; [constructor; assumption |].
      constructor; [exact Hpq |].
      rewrite Forall_forall in *. intros x Hx.
      exact (ltb_trans p q x Dp Dq (Dl' x Hx) Hpq (Hq x Hx)).
Qed.

Lemma sorted_by_sorted (l : list A) :
  Forall D l -> NoDup l ->
  StronglySorted (fun a b => ltb a b = true) (sorted_by ltb l).
Proof.
  induction l as [| p l IH]; intros Dl Hnd; simpl; [constructor |].
  inversion Dl as [| ? ? Dp Dl']; subst.
  inversion Hnd as [| ? ? Hp Hnd']; subst.
  apply insert_by_sorted; auto.
  - apply Forall_forall. intros x Hx. rewrite sorted_by_In in Hx.
    rewrite Forall_forall in Dl'. exact (Dl' x Hx).
  - rewrite sorted_by_In. exact Hp.
Qed.

Lemma sorted_unique (l : list A) :
  forall l',
    Forall D l -> Forall D l' ->
    StronglySorted (fun a b => ltb a b = true) l ->
    StronglySorted (fun a b => ltb a b = true) l' ->
    (forall x, In x l <-> In x l') ->
    l = l'.
Proof.
  induction l as [| a l IH]; intros l' Dl Dl' Hs Hs' Hin.
  - destruct l' as [| b l']; [reflexivity |].
    destruct (proj2 (Hin b) (or_introl eq_refl)).
  - destruct l' as [| b l'].
    { destruct (proj1 (Hin a) (or_introl eq_refl)). }
    inversion Dl as [| ? ? Da Dl0]; subst.
    inversion Dl' as [| ? ? Db Dl0']; subst.
    apply StronglySorted_inv in Hs. destruct Hs as (Hs & Ha).
    apply StronglySorted_inv in Hs'. destruct Hs' as (Hs' & Hb).
    rewrite Forall_forall in Ha, Hb, Dl0, Dl0'.
    assert (E : a = b).
    { destruct (proj1 (Hin a) (or_introl eq_refl)) as [E | Hal'];
        [symmetry; exact E |].
      destruct (proj2 (Hin b) (or_introl eq_refl)) as [E | Hbl];
        [exact E |].
      pose proof (Hb a Hal') as H1. pose proof (Ha b Hbl) as H2.
      pose proof (ltb_trans a b a Da Db Da H2 H1) as H3.
      rewrite (ltb_irrefl a Da) in H3. discriminate. }
    subst b. f_equal.
    apply IH; try assumption; try (apply Forall_forall; assumption).
    intros x. split; intros Hx.
    + destruct (proj1 (Hin x) (or_intror Hx)) as [<- | H]; [| exact H].
      pose proof (Ha a Hx) as H1. rewrite (ltb_irrefl a Da) in H1.
      discriminate.
    + destruct (proj2 (Hin x) (or_intror Hx)) as [<- | H]; [| exact H].
      pose proof (Hb a Hx) as H1. rewrite (ltb_irrefl a Da) in H1.
      discriminate.
Qed.

Lemma sorted_set_determined (l l' : list A) :
  Forall D l -> Forall D l' -> (forall x, In x l <-> In x l') ->
  sorted_by ltb (set_of_by eqb l) = sorted_by ltb (set_of_by eqb l').
Proof.
  intros Dl Dl' Hin.
  destruct (set_of_by_acc_NoDup l [] Dl (Forall_nil _) (NoDup_nil _))
    as (Hnd & Hset).
  destruct (set_of_by_acc_NoDup l' [] Dl' (Forall_nil _) (NoDup_nil _))
    as (Hnd' & Hset').
  fold (set_of_by eqb l) in Hnd, Hset. fold (set_of_by eqb l') in Hnd', Hset'.
  assert (Ds : Forall D (set_of_by eqb l)).
  { apply Forall_forall. intros x Hx. apply Hset in Hx.
    destruct Hx as [[] | Hx]. rewrite Forall_forall in Dl. exact (Dl x Hx). }
  assert (Ds' : Forall D (set_of_by eqb l')).
  { apply Forall_forall. intros x Hx. apply Hset' in Hx.
    destruct Hx as [[] | Hx]. rewrite Forall_forall in Dl'. exact (Dl' x Hx). }
  apply sorted_unique.
  - apply Forall_forall. intros x Hx. rewrite sorted_by_In in Hx.
    rewrite Forall_forall in Ds. exact (Ds x Hx).
  - apply Forall_forall. intros x Hx. rewrite sorted_by_In in Hx.
    rewrite Forall_forall in Ds'. exact (Ds' x Hx).
  - apply sorted_by_sorted; assumption.
  - apply sorted_by_sorted; assumption.
  - intros x. rewrite !sorted_by_In, Hset, Hset', Hin. simpl. tauto.
Qed.

End SortedSet.

(** ** The order of plain floats *)

Lemma SFeqb_rank (x y : spec_float) :
  x <> S754_nan -> y <> S754_nan ->
  (SFeqb x y = true <-> SF_rank x = SF_rank y).
Proof.
  intros Hx Hy; unfold SFeqb.
  destruct x as [sx | sx | | sx mx ex]; [| | contradiction Hx; reflexivity |];
    (destruct y as [sy | sy | | sy my ey];
      [| | contradiction Hy; reflexivity |]);
    try (destruct sx); try (destruct sy); cbn [SFcompare SF_rank];
    try (split; intros; first [reflexivity | discriminate]).
  all: change (Pos.compare_cont Eq mx my) with (Pos.compare mx my).
  all: destruct (Z.compare_spec ex ey); cbn [CompOpp];
    try (split; intros E; first [discriminate E | injection E; lia]).
  all: destruct (Pos.compare_spec mx my); cbn [CompOpp];
    split; intros E;
    first [discriminate E | injection E; lia | subst; reflexivity].
Qed.

Lemma rank_lt_trans (a b c : Z * Z * Z) :
  rank_lt a b -> rank_lt b c -> rank_lt a c.
Proof.
  destruct a as ((a1, a2), a3), b as ((b1, b2), b3), c as ((c1, c2), c3).
  unfold rank_lt. lia.
Qed.

Lemma ltb_trans (x y z : float) :
  (x <? y)%float = true -> (y <? z)%float = true -> (x <? z)%float = true.
Proof.
  rewrite !ltb_spec. intros Hxy Hyz.
  destruct (SFltb_true_not_nan _ _ Hxy) as (Hx & Hy).
  destruct (SFltb_true_not_nan _ _ Hyz) as (_ & Hz).
  apply (SFltb_rank _ _ Hx Hz).
  apply (SFltb_rank _ _ Hx Hy) in Hxy. apply (SFltb_rank _ _ Hy Hz) in Hyz.
  exact (rank_lt_trans _ _ _ Hxy Hyz).
Qed.

Lemma plain_not_nan (x : float) : plain_coordinate x = true -> is_nan x = false.
Proof.
  unfold plain_coordinate. rewrite andb_true_iff, !negb_true_iff. tauto.
Qed.

Lemma plain_not_neg_zero (x : float) :
  plain_coordinate x = true -> Prim2SF x <> S754_zero true.
Proof.
  unfold plain_coordinate. rewrite andb_true_iff, !negb_true_iff.
  intros (_ & H) E.
  assert (Ex : x = (-0)%float).
  { rewrite <- (SF2Prim_Prim2SF x), E. reflexivity. }
  apply Leibniz.eqb_spec in Ex. congruence.
Qed.

Lemma plain_same_number (x y : float) :
  plain_coordinate x = true -> plain_coordinate y = true ->
  (x <? y)%float = false -> (y <? x)%float = false -> x = y.
Proof.
  intros Px Py Fxy Fyx.
  destruct (not_lt_both x y (plain_not_nan x Px) (plain_not_nan y Py) Fxy Fyx)
    as [E | (sx & sy & Ex & Ey)]; [exact E |].
  pose proof (plain_not_neg_zero x Px) as Nx.
  pose proof (plain_not_neg_zero y Py) as Ny.
  apply Prim2SF_inj. rewrite Ex, Ey in *.
  destruct sx, sy; congruence.
Qed.

Lemma eqb_plain (x y : float) :
  plain_coordinate x = true -> plain_coordinate y = true ->
  ((x =? y)%float = true <-> x = y).
Proof.
  intros Px Py. split.
  - intros E. rewrite eqb_spec in E.
    pose proof (Prim2SF_not_nan x (plain_not_nan x Px)) as Hx.
    pose proof (Prim2SF_not_nan y (plain_not_nan y Py)) as Hy.
    apply (SFeqb_rank _ _ Hx Hy) in E.
    apply plain_same_number; try assumption.
    + destruct (x <? y)%float eqn:F; [| reflexivity].
      rewrite ltb_spec in F. apply (SFltb_rank _ _ Hx Hy) in F.
      rewrite E in F. destruct (SF_rank (Prim2SF y)) as ((a, b), c).
      unfold rank_lt in F. lia.
    + destruct (y <? x)%float eqn:F; [| reflexivity].
      rewrite ltb_spec in F. apply (SFltb_rank _ _ Hy Hx) in F.
      rewrite E in F. destruct (SF_rank (Prim2SF y)) as ((a, b), c).
      unfold rank_lt in F. lia.
  - intros <-. pose proof (plain_not_nan x Px) as H.
    unfold is_nan in H. apply negb_false_iff in H. exact H.
Qed.

Lemma ltb_total_plain (x y : float) :
  plain_coordinate x = true -> plain_coordinate y = true ->
  (x <? y)%float = true \/ x = y \/ (y <? x)%float = true.
Proof.
  intros Px Py.
  destruct (x <? y)%float eqn:Fxy; [left; reflexivity |].
  destruct (y <? x)%float eqn:Fyx; [right; right; reflexivity |].
  right; left. exact (plain_same_number x y Px Py Fxy Fyx).
Qed.

(** ** The order of plain points *)

Lemma point_eqb_plain (p q : point) :
  plain_point p = true -> plain_point q = true ->
  (point_eqb p q = true <-> p = q).
Proof.
  destruct p as (px, py), q as (qx, qy). unfold plain_point, point_eqb.
  cbn [fst snd]. rewrite !andb_true_iff. intros (Hpx & Hpy) (Hqx & Hqy).
  rewrite (eqb_plain px qx Hpx Hqx), (eqb_plain py qy Hpy Hqy).
  split; [intros (-> & ->); reflexivity | intros E; injection E; auto].
Qed.

Lemma point_ltb_plain (p q : point) :
  plain_point p = true -> plain_point q = true ->
  (point_ltb p q = true <->
   (fst p <? fst q)%float = true \/
   (fst p = fst q /\ (snd p <? snd q)%float = true)).
Proof.
  destruct p as (px, py), q as (qx, qy). unfold plain_point, point_ltb.
  cbn [fst snd]. rewrite !andb_true_iff. intros (Hpx & Hpy) (Hqx & Hqy).
  destruct (px =? qx)%float eqn:Ex.
  - apply (eqb_plain px qx Hpx Hqx) in Ex. subst qx.
    rewrite ltb_irrefl.
    destruct (py =? qy)%float eqn:Ey.
    + apply (eqb_plain py qy Hpy Hqy) in Ey. subst qy.
      rewrite ltb_irrefl. intuition discriminate.
    + intuition discriminate.
  - split; [auto |]. intros [H | (E & _)]; [exact H |].
    apply (eqb_plain px qx Hpx Hqx) in E. congruence.
Qed.

Lemma point_ltb_irrefl_plain (p : point) :
  plain_point p = true -> point_ltb p p = false.
Proof.
  intros Hp. destruct (point_ltb p p) eqn:E; [| reflexivity].
  apply (point_ltb_plain p p Hp Hp) in E.
  destruct E as [E | (_ & E)]; rewrite ltb_irrefl in E; discriminate.
Qed.

Lemma point_ltb_trans_plain (p q r : point) :
  plain_point p = true -> plain_point q = true -> plain_point r = true ->
  point_ltb p q = true -> point_ltb q r = true -> point_ltb p r = true.
Proof.
  intros Hp Hq Hr Hpq Hqr.
  apply (point_ltb_plain p q Hp Hq) in Hpq.
  apply (point_ltb_plain q r Hq Hr) in Hqr.
  apply (point_ltb_plain p r Hp Hr).
  destruct Hpq as [H1 | (E1 & H1)], Hqr as [H2 | (E2 & H2)].
  - left. exact (ltb_trans _ _ _ H1 H2).
  - left. rewrite <- E2. exact H1.
  - left. rewrite E1. exact H2.
  - right. split; [congruence | exact (ltb_trans _ _ _ H1 H2)].
Qed.

Lemma point_ltb_total_plain (p q : point) :
  plain_point p = true -> plain_point q = true ->
  point_ltb p q = true \/ p = q \/ point_ltb q p = true.
Proof.
  intros Hp Hq.
  rewrite (point_ltb_plain p q Hp Hq), (point_ltb_plain q p Hq Hp).
  destruct p as (px, py), q as (qx, qy).
  unfold plain_point in Hp, Hq. cbn [fst snd] in *.
  apply andb_true_iff in Hp, Hq.
  destruct Hp as (Hpx & Hpy), Hq as (Hqx & Hqy).
  destruct (ltb_total_plain px qx Hpx Hqx) as [H | [-> | H]]; auto.
  destruct (ltb_total_plain py qy Hpy Hqy) as [H | [-> | H]]; auto.
Qed.

Lemma sorted_set_of_plain (points points' : list point) :
  forallb plain_point points = true ->
  (forall p, In p points <-> In p points') ->
  sorted (set_of points') = sorted (set_of points).
Proof.
  intros Hplain Hin.
  rewrite forallb_forall in Hplain.
  change (sorted_by point_ltb (set_of_by point_eqb points') =
          sorted_by point_ltb (set_of_by point_eqb points)).
  apply (sorted_set_determined point_eqb point_ltb
           (fun p => plain_point p = true)).
  - exact point_eqb_plain.
  - exact point_ltb_irrefl_plain.
  - exact point_ltb_trans_plain.
  - exact point_ltb_total_plain.
  - apply Forall_forall. intros p Hp. apply Hplain, Hin, Hp.
  - apply Forall_forall. exact Hplain.
  - intros p. symmetry. apply Hin.
Qed.

(** X13.  The network footprint does not depend on the order of the
    stations, provided no coordinate is NaN or the negative zero: the hull
    and its closed ring are the same for every permutation of the input. *)
Theorem footprint_independent_of_station_order
    (stations stations' : list station) :
  Permutation stations stations' ->
  forallb plain_point (map station_point stations) = true ->
  convex_hull (map station_point stations') =
    convex_hull (map station_point stations) /\
  hull_coords stations' = hull_coords stations.
Proof.
  intros Hperm Hplain.
  assert (E : sorted (set_of (map station_point stations')) =
              sorted (set_of (map station_point stations))).
  { apply sorted_set_of_plain; [exact Hplain |].
    intros p. split; apply Permutation_in.
    - apply Permutation_map, Hperm.
    - apply Permutation_map, Permutation_sym, Hperm. }
  assert (EH : convex_hull (map station_point stations') =
               convex_hull (map station_point stations)).
  { unfold convex_hull. rewrite E. reflexivity. }
  split; [exact EH |].
  unfold hull_coords.
  change (map (fun s => (lng s, lat s)) stations')
    with (map station_point stations').
  change (map (fun s => (lng s, lat s)) stations)
    with (map station_point stations).
  rewrite EH. reflexivity.
Qed.

Lemma footprint_independent_of_station_order_witness :
  hull_coords (rev grid_stations) = hull_coords grid_stations.
Proof.
  apply (footprint_independent_of_station_order grid_stations
           (rev grid_stations)).
  - apply Permutation_rev.
  - vm_compute. reflexivity.
Defined.

(** ** The exceptions of the script *)

Lemma bind_Raise {A B : Type} (c : result A) (k : A -> result B) (e : exn) :
  bind c k = Raise e ->
  c = Raise e \/ exists a, c = OK a /\ k a = Raise e.
Proof.
  destruct c as [a | e']; simpl; intros E.
  - right. exists a. split; [reflexivity | exact E].
  - left. injection E as ->. reflexivity.
Qed.

Lemma for_each_Raise {A S : Type} (body : A -> S -> result S) (xs : list A)
    (e : exn) :
  forall s, for_each xs body s = Raise e ->
    exists x s', In x xs /\ body x s' = Raise e.
Proof.
  induction xs as [| x xs IH]; intros s E; [discriminate |].
  cbn [for_each] in E. apply bind_Raise in E.
  destruct E as [E | (s' & _ & E)].
  - exists x, s. split; [left; reflexivity | exact E].
  - destruct (IH s' E) as (y & t & Hy & Ey).
    exists y, t. split; [right; exact Hy | exact Ey].
Qed.

Lemma pow2_Raise (x : float) (e : exn) : pow2 x = Raise e -> numeric_error e.
Proof.
  unfold pow2. destruct (_ && _); [| discriminate].
  intros [= <-]. right; reflexivity.
Qed.

Lemma ceil_Raise (x : float) (e : exn) : Py.ceil x = Raise e -> numeric_error e.
Proof.
  unfold Py.ceil. destruct (Prim2SF x) as [s | s | | s m ex].
  - discriminate.
  - intros [= <-]. right; reflexivity.
  - intros [= <-]. left; reflexivity.
  - destruct (0 <=? ex); [discriminate |]. destruct s; discriminate.
Qed.

Lemma sqrt_Raise (x : float) (e : exn) : Py.sqrt x = Raise e -> numeric_error e.
Proof.
  unfold Py.sqrt. destruct (_ <? _)%float; [| discriminate].
  intros [= <-]. left; reflexivity.
Qed.

Lemma min_Raise (xs : list float) (e : exn) :
  Py.min xs = Raise e -> numeric_error e.
Proof.
  destruct xs; [| discriminate]. intros [= <-]. left; reflexivity.
Qed.

Lemma max_Raise (xs : list float) (e : exn) :
  Py.max xs = Raise e -> numeric_error e.
Proof.
  destruct xs; [| discriminate]. intros [= <-]. left; reflexivity.
Qed.

Lemma float_of_int_Raise (z : Z) (e : exn) :
  float_of_int z = Raise e -> numeric_error e.
Proof.
  unfold float_of_int. destruct (is_infinity _); [| discriminate].
  intros [= <-]. right; reflexivity.
Qed.

(** Splits a failing sequence of steps into the step that fails. *)
Ltac raise_step E :=
  let a := fresh "v" in
  let Ea := fresh "Ev" in
  apply bind_Raise in E; destruct E as [E | (a & Ea & E)].

Lemma bounding_box_Raise (stations : list station) (e : exn) :
  bounding_box stations = Raise e -> numeric_error e.
Proof.
  unfold bounding_box. intros E.
  raise_step E; [exact (min_Raise _ _ E) |].
  raise_step E; [exact (max_Raise _ _ E) |].
  raise_step E; [exact (min_Raise _ _ E) |].
  raise_step E; [exact (max_Raise _ _ E) | discriminate E].
Qed.

Lemma cell_covered_Raise (x y : float) (skm : list (float * float)) (e : exn) :
  cell_covered x y skm = Raise e -> numeric_error e.
Proof.
  induction skm as [| (sy, sx) rest IH]; [discriminate |].
  cbn [cell_covered]. intros E.
  raise_step E; [exact (pow2_Raise _ _ E) |].
  raise_step E; [exact (pow2_Raise _ _ E) |].
  raise_step E; [exact (pow2_Raise _ _ E) |].
  destruct (_ <=? _)%float; [discriminate | exact (IH E)].
Qed.

Lemma covered_cells_Raise (rows cols : Z) (skm : list (float * float))
    (e : exn) :
  covered_cells rows cols skm = Raise e -> numeric_error e.
Proof.
  unfold covered_cells. intros E.
  apply for_each_Raise in E. destruct E as (r & n & _ & E).
  apply for_each_Raise in E. destruct E as (c & m & _ & E).
  raise_step E; [exact (cell_covered_Raise _ _ _ _ E) | discriminate E].
Qed.

Lemma coverage_Raise (stations : list station) (e : exn) :
  coverage stations = Raise e -> numeric_error e.
Proof.
  unfold coverage. intros E.
  raise_step E; [exact (bounding_box_Raise _ _ E) |].
  raise_step E; [exact (ceil_Raise _ _ E) |].
  raise_step E; [exact (ceil_Raise _ _ E) |].
  raise_step E; [exact (covered_cells_Raise _ _ _ _ E) |].
  raise_step E; [exact (pow2_Raise _ _ E) |].
  raise_step E; [exact (float_of_int_Raise _ _ E) | discriminate E].
Qed.

Lemma cell_min_dist_Raise (x y : float) (skm : list (float * float))
    (e : exn) :
  cell_min_dist x y skm = Raise e -> numeric_error e.
Proof.
  rewrite cell_min_dist_planar. intros E.
  raise_step E; [| exact (min_Raise _ _ E)].
  apply map_m_Raise in E. destruct E as (s & _ & E).
  unfold planar_distance in E.
  raise_step E; [exact (pow2_Raise _ _ E) |].
  raise_step E; [exact (pow2_Raise _ _ E) | exact (sqrt_Raise _ _ E)].
Qed.

Lemma desert_center_cells_Raise (b : bbox) (rows cols : Z)
    (skm : list (float * float)) (e : exn) :
  desert_center_cells b rows cols skm = Raise e -> numeric_error e.
Proof.
  unfold desert_center_cells. intros E.
  apply for_each_Raise in E. destruct E as (r & cells & _ & E).
  apply for_each_Raise in E. destruct E as (c & cells' & _ & E).
  unfold desert_step in E.
  raise_step E; [exact (cell_min_dist_Raise _ _ _ _ E) |].
  destruct (_ <=? _)%float; discriminate E.
Qed.

Lemma candidate_cells_Raise (stations : list station) (e : exn) :
  candidate_cells stations = Raise e -> numeric_error e.
Proof.
  unfold candidate_cells. intros E.
  raise_step E; [exact (bounding_box_Raise _ _ E) |].
  raise_step E; [exact (ceil_Raise _ _ E) |].
  raise_step E; [exact (ceil_Raise _ _ E) |].
  exact (desert_center_cells_Raise _ _ _ _ _ E).
Qed.

Section Exceptions.

Context `{Libm}.

Lemma math_sin_Raise (x : float) (e : exn) :
  math_sin x = Raise e -> numeric_error e.
Proof.
  unfold math_sin. destruct (is_infinity x); [| discriminate].
  intros [= <-]. left; reflexivity.
Qed.

Lemma math_cos_Raise (x : float) (e : exn) :
  math_cos x = Raise e -> numeric_error e.
Proof.
  unfold math_cos. destruct (is_infinity x); [| discriminate].
  intros [= <-]. left; reflexivity.
Qed.

Lemma haversine_km_Raise (lat1 lng1 lat2 lng2 : float) (e : exn) :
  haversine_km lat1 lng1 lat2 lng2 = Raise e -> numeric_error e.
Proof.
  unfold haversine_km. intros E.
  raise_step E; [exact (math_sin_Raise _ _ E) |].
  raise_step E; [exact (pow2_Raise _ _ E) |].
  raise_step E; [exact (math_cos_Raise _ _ E) |].
  raise_step E; [exact (math_cos_Raise _ _ E) |].
  raise_step E; [exact (math_sin_Raise _ _ E) |].
  raise_step E; [exact (pow2_Raise _ _ E) |].
  raise_step E; [exact (sqrt_Raise _ _ E) |].
  raise_step E; [exact (sqrt_Raise _ _ E) | discriminate E].
Qed.

Lemma gap_scan_Raise (groups : list (group_key * list station)) (e : exn) :
  gap_scan groups = Raise e -> numeric_error e.
Proof.
  rewrite gap_scan_emit. intros E.
  raise_step E; [| discriminate E].
  apply map_m_Raise in E. destruct E as (g & _ & E).
  apply group_gaps_Raise in E. destruct E as (i & a & b & _ & E).
  exact (haversine_km_Raise _ _ _ _ _ E).
Qed.

End Exceptions.

(** X14.  Whatever the station list, the script and its stages fail only
    with a domain error or an overflow of the float arithmetic
    ([ValueError], [OverflowError]): [haversine_km], the coverage
    estimation, the gap scan, the desert scan and the script as a whole.
    No index is out of range (neither [line_stations[i + 1]] of the gap loop
    nor [hull_coords[0]] once the coverage stage has succeeded) and no
    division by zero occurs. *)
Theorem script_raises_only_numeric_errors (L : Libm) :
  (forall lat1 lng1 lat2 lng2 e,
      haversine_km lat1 lng1 lat2 lng2 = Raise e ->
      e = ValueError \/ e = OverflowError) /\
  (forall stations e,
      coverage stations = Raise e -> e = ValueError \/ e = OverflowError) /\
  (forall groups e,
      gap_scan groups = Raise e -> e = ValueError \/ e = OverflowError) /\
  (forall stations e,
      isolation_scan stations = Raise e ->
      e = ValueError \/ e = OverflowError) /\
  (forall stations e,
      analysis stations = Raise e -> e = ValueError \/ e = OverflowError).
Proof.
  split; [exact haversine_km_Raise |].
  split; [exact coverage_Raise |].
  split; [exact gap_scan_Raise |].
  assert (Hiso : forall stations e,
            isolation_scan stations = Raise e -> numeric_error e).
  { intros stations e E. unfold isolation_scan in E.
    raise_step E; [exact (bounding_box_Raise _ _ E) |].
    raise_step E; [exact (ceil_Raise _ _ E) |].
    raise_step E; [exact (ceil_Raise _ _ E) |].
    raise_step E; [exact (desert_center_cells_Raise _ _ _ _ _ E) |].
    destruct (desert_zone_features_total (desert_zones v2) 0) as (fs & Efs).
    rewrite Efs in E. discriminate E. }
  split; [exact Hiso |].
  intros stations e E. rewrite analysis_stages in E.
  raise_step E; [exact (coverage_Raise _ _ E) |].
  raise_step E; [exact (gap_scan_Raise _ _ E) |].
  destruct v0 as (gaps_info, gap_features).
  raise_step E; [exact (Hiso _ _ E) |].
  destruct v0 as (zones, zone_features).
  destruct (hull_coords_nonempty stations (coverage_nonempty _ _ Ev))
    as (ring & Ering).
  rewrite Ering in E. discriminate E.
Qed.
